(** * Airplane-Flight-Optimizer: the route graph and Dijkstra's search

    A shallow embedding of [src/cpp/Graph.h], [src/cpp/Graph.cpp],
    [src/cpp/Dijkstra.cpp] and the sample graph of [src/cpp/main.cpp].

    Conventions of the embedding.
    - [std::unordered_map<std::string, V>] is a [gmap string V].  The only
      iteration over such a map in the program (the initialisation loop of
      [findShortestPath]) writes the same constant under every key, so the
      unspecified iteration order is not observable.
    - A route length is a finite [double], written as a whole number
      ([Z]) of units [2^-frac]; a tentative distance is such a number or
      an infinity ([dist]).  The search is given twice: [findShortestPath]
      adds without rounding, [findShortestPath64] adds as binary64 does
      ([round53], checked against the kernel's floating-point numbers on
      [binary64_probes]); its first argument is [frac].  The two return
      the same when the weights are small ([findShortestPath64_exact]);
      what the rounded search returns on weights of any size is in
      [search64_terminates], [search64_route] and [search64_least].
      Routes of infinite or NaN length are outside the model; no sum of
      the search is NaN or a negative zero when the lengths are finite.
    - [std::priority_queue<QueueNode, ..., std::greater<>>] is an interface
      ([PriorityQueue]): the standard fixes the contents of the queue and
      that [top] is a least element, not which of several least elements
      comes first.  Everything general is proved for every implementation
      of the interface; [ListPQ] is one that computes.
    - The two [while] loops of [findShortestPath] take a step budget and
      return [None] when it is used up. *)

From stdpp Require Import gmap strings list fin_maps sorting.
From Stdlib Require Import ZArith Lia Floats.

Local Open Scope string_scope.
Local Open Scope list_scope.
Local Open Scope Z_scope.

(** ** Numbers *)

Inductive dist : Type :=
  | Fin (z : Z)
  | Inf
  | NInf.

#[global] Instance dist_eq_dec : EqDecision dist.
Proof. solve_decision. Defined.

(** [a < b] on [double], with [+infinity] above and [-infinity] below
    every finite value. *)
Definition dist_ltb (a b : dist) : bool :=
  match a, b with
  | Fin x, Fin y => x <? y
  | Fin _, Inf => true
  | Fin _, NInf => false
  | Inf, _ => false
  | NInf, NInf => false
  | NInf, _ => true
  end.

Definition dist_le (a b : dist) : Prop := dist_ltb b a = false.

(** [a + w] for a finite [w], without rounding. *)
Definition dist_add (a : dist) (w : Z) : dist :=
  match a with
  | Fin x => Fin (x + w)
  | Inf => Inf
  | NInf => NInf
  end.

(** Every finite [double] is a whole number of units [2^-1074], and
    the whole numbers [z] of units [2^-frac], for [frac] at most 1074,
    that are finite [double]s are those whose binary numeral has no more
    than 53 digits from its first 1 to its last and that are below
    [2^(1024+frac)] in magnitude.  The rounded search counts in such a
    unit: [frac = 0] when all route lengths are integers, [frac = 1] for
    halves, up to [frac = 1074] for all finite lengths.

    [nearest53 z] is the number with at most 53 such digits nearest to
    [z], ties to the even significand: a number below [2^53] in magnitude
    is kept, a larger one keeps its 53 leading digits, rounded.
    [round53 frac z] is the binary64 value nearest to [z] units: an
    infinity when the magnitude of [nearest53 z] reaches [2^(1024+frac)]. *)
Definition nearest53 (z : Z) : Z :=
  let a := Z.abs z in
  if a <? 2 ^ 53 then z
  else
    let e := Z.log2 a - 52 in
    let q := a / 2 ^ e in
    let r := a mod 2 ^ e in
    let half := 2 ^ (e - 1) in
    let q' :=
      if r <? half then q
      else if half <? r then q + 1
      else if Z.even q then q else q + 1 in
    Z.sgn z * (q' * 2 ^ e).

Definition round53 (frac : nat) (z : Z) : dist :=
  let m := nearest53 z in
  if 2 ^ (1024 + Z.of_nat frac) <=? Z.abs m
  then (if 0 <? z then Inf else NInf)
  else Fin m.

(** [a + w] as binary64 computes it: the exact sum, rounded. *)
Definition dist_add64 (frac : nat) (a : dist) (w : Z) : dist :=
  match a with
  | Fin x => round53 frac (x + w)
  | Inf => Inf
  | NInf => NInf
  end.

(** A tentative distance of the rounded search on a graph without
    negative weights: [+infinity], or a [double] that is not negative. *)
Definition dist_ok (x : dist) : Prop :=
  match x with
  | Fin d => 0 ≤ d ∧ nearest53 d = d
  | Inf => True
  | NInf => False
  end.

(** [DBL_MAX], in units 1. *)
Definition largest_double : Z := (2 ^ 53 - 1) * 2 ^ 971.

(** The kernel's binary64 numbers, to check [round53] against: the float
    with the value of [z] units, for a [z] that is a [double], and the
    number of units or the infinity a float stands for ([None] for NaN and
    for a value that is not a whole number of units). *)
Definition float_of_Z (frac : nat) (z : Z) : float :=
  let a := Z.abs z in
  let e := Z.max 0 (Z.log2 a - 52) in
  let f :=
    Z.ldexp (PrimFloat.of_uint63 (Uint63.of_Z (a / 2 ^ e)))
      (e - Z.of_nat frac) in
  if z <? 0 then PrimFloat.opp f else f.

Definition dist_of_float (frac : nat) (f : float) : option dist :=
  match Prim2SF f with
  | S754_zero _ => Some (Fin 0)
  | S754_infinity false => Some Inf
  | S754_infinity true => Some NInf
  | S754_nan => None
  | S754_finite sg m e =>
    let v := if sg then Z.neg m else Z.pos m in
    let e' := e + Z.of_nat frac in
    if 0 <=? e' then Some (Fin (v * 2 ^ e'))
    else if Z.pos m mod 2 ^ (- e') =? 0 then Some (Fin (v / 2 ^ (- e')))
    else None
  end.

(** For [x] and [w] units: both are [double]s, and [x + w] and [x < w]
    computed by the kernel's binary64 agree with [dist_add64] and
    [dist_ltb]. *)
Definition agrees_with_binary64 (probe : nat * (Z * Z)) : bool :=
  let '(frac, (x, w)) := probe in
  bool_decide (dist_of_float frac (float_of_Z frac x) = Some (Fin x)) &&
  bool_decide (dist_of_float frac (float_of_Z frac w) = Some (Fin w)) &&
  bool_decide
    (dist_of_float frac
       (PrimFloat.add (float_of_Z frac x) (float_of_Z frac w))
       = Some (dist_add64 frac (Fin x) w)) &&
  bool_decide
    (PrimFloat.ltb (float_of_Z frac x) (float_of_Z frac w)
       = dist_ltb (Fin x) (Fin w)).

(** Pairs of [double]s around the places where binary64 rounds, ties and
    overflows: integers; [0.1 + 0.2], [800.5 + 1650.25] and [0.75 + 0.5];
    subnormal numbers and the largest finite ones in units [2^-1074]. *)
Definition binary64_probes : list (nat * (Z * Z)) :=
  map (pair 0%nat)
    [(0, 0); (0, 800); (800, 1650); (1650, 800); (2450, -2450);
     (2 ^ 53 - 1, 1); (2 ^ 53, 1); (2 ^ 53, 2); (2 ^ 53, 3);
     (2 ^ 53 + 2, 1); (2 ^ 53 + 2, 3); (2 ^ 54, 1); (2 ^ 54, 2);
     (2 ^ 54, 3); (2 ^ 54 + 4, 2); (2 ^ 54, 6); (2 ^ 60, 2 ^ 7);
     (2 ^ 60, 2 ^ 7 + 1); (2 ^ 100, 1); (2 ^ 100, 2 ^ 47);
     (2 ^ 100, 2 ^ 48);
     (- 2 ^ 53, -1); (- 2 ^ 53, -3); (- 2 ^ 54, -6); (- 2 ^ 53, 1);
     (2 ^ 53, -1); (2 ^ 54, -1); (5, -7); (-7, 5);
     ((2 ^ 53 - 1) * 2 ^ 971, (2 ^ 53 - 1) * 2 ^ 971);
     ((2 ^ 53 - 1) * 2 ^ 971, 2 ^ 970);
     ((2 ^ 53 - 1) * 2 ^ 971, 2 ^ 970 - 2 ^ 917);
     ((2 ^ 53 - 1) * 2 ^ 971, 1);
     (- ((2 ^ 53 - 1) * 2 ^ 971), - ((2 ^ 53 - 1) * 2 ^ 971));
     (- ((2 ^ 53 - 1) * 2 ^ 971), - 2 ^ 970);
     ((2 ^ 53 - 1) * 2 ^ 971, - ((2 ^ 53 - 1) * 2 ^ 971))] ++
  [(55%nat, (3602879701896397, 7205759403792794));
   (55%nat, (7205759403792794, 3602879701896397));
   (2%nat, (3202, 6601)); (2%nat, (3, 2)); (2%nat, (2 ^ 55, 1));
   (2%nat, (2 ^ 55, 2)); (2%nat, (2 ^ 55, 3)); (2%nat, (2 ^ 55, -1))] ++
  map (pair 1074%nat)
    [(0, 1); (1, 1); (2 ^ 52 - 1, 1); (2 ^ 52, 1); (2 ^ 53 - 1, 1);
     (2 ^ 53, 1); (2 ^ 53, 2); (2 ^ 53, 3); (2 ^ 53, -1); (-1, 1);
     (2 ^ 1074, 1); (2 ^ 1074, 2 ^ 1021); (2 ^ 1074, 2 ^ 1022);
     (2 ^ 1074, 3 * 2 ^ 1021); (800 * 2 ^ 1074, 1650 * 2 ^ 1074);
     ((2 ^ 53 - 1) * 2 ^ 2045, (2 ^ 53 - 1) * 2 ^ 2045);
     ((2 ^ 53 - 1) * 2 ^ 2045, 2 ^ 2044);
     ((2 ^ 53 - 1) * 2 ^ 2045, 2 ^ 2044 - 2 ^ 1991);
     ((2 ^ 53 - 1) * 2 ^ 2045, 1);
     (- ((2 ^ 53 - 1) * 2 ^ 2045), - 2 ^ 2044)].

(** ** Graph.h / Graph.cpp *)

(** [distance] is a finite [double], as a whole number of units. *)
Record Edge : Type := mkEdge {
  destination : string;
  distance : Z
}.

#[global] Instance Edge_eq_dec : EqDecision Edge.
Proof. solve_decision. Defined.

(** The class [Graph] has the single private member [adjList]. *)
Abbreviation Graph := (gmap string (list Edge)).

(** [adjList[k]] as an lvalue: the entry, created empty when missing. *)
Definition adj_at (adjList : Graph) (k : string) : list Edge :=
  default [] (adjList !! k).

Definition addAirport (adjList : Graph) (airportId : string) : Graph :=
  match adjList !! airportId with
  | None => <[airportId := []]> adjList
  | Some _ => adjList
  end.

Definition addRoute (adjList : Graph) (source destination : string)
    (distance : Z) : Graph :=
  let adj1 :=
    <[source := adj_at adjList source ++ [mkEdge destination distance]]>
      adjList in
  <[destination := adj_at adj1 destination ++ [mkEdge source distance]]> adj1.

Definition getRoutes (adjList : Graph) (airportId : string) : list Edge :=
  match adjList !! airportId with
  | Some routes => routes
  | None => []
  end.

Definition hasAirport (adjList : Graph) (airportId : string) : bool :=
  match adjList !! airportId with
  | Some _ => true
  | None => false
  end.

(** A [Graph] object starts empty and changes only through its two
    mutators. *)
Inductive GraphOp : Type :=
  | AddAirport (airportId : string)
  | AddRoute (source destination : string) (distance : Z).

Definition apply_op (g : Graph) (op : GraphOp) : Graph :=
  match op with
  | AddAirport a => addAirport g a
  | AddRoute a b w => addRoute g a b w
  end.

Definition build (ops : list GraphOp) : Graph := foldl apply_op ∅ ops.

(** [id] is named by an operation: added directly, or an endpoint of a route. *)
Definition op_adds (id : string) (op : GraphOp) : Prop :=
  match op with
  | AddAirport a => a = id
  | AddRoute a b _ => a = id ∨ b = id
  end.

Definition was_added (ops : list GraphOp) (id : string) : Prop :=
  Exists (op_adds id) ops.

(** Every edge leads to a node with an entry of its own. *)
Definition graph_closed (g : Graph) : Prop :=
  map_Forall (λ _ routes,
    Forall (λ e, is_Some (g !! destination e)) routes) g.

Definition graph_nonneg (g : Graph) : Prop :=
  map_Forall (λ _ routes, Forall (λ e, 0 ≤ distance e) routes) g.

#[global] Instance graph_closed_dec (g : Graph) : Decision (graph_closed g).
Proof. unfold graph_closed. apply _. Defined.

#[global] Instance graph_nonneg_dec (g : Graph) : Decision (graph_nonneg g).
Proof. unfold graph_nonneg. apply _. Defined.

Definition op_nonneg (op : GraphOp) : Prop :=
  match op with
  | AddAirport _ => True
  | AddRoute _ _ w => 0 ≤ w
  end.

(** ** Dijkstra.h / Dijkstra.cpp *)

Record PathResult : Type := mkPathResult {
  path : list string;
  totalDistance : dist
}.

(** A default-constructed [PathResult]. *)
Definition empty_result : PathResult := mkPathResult [] (Fin 0).

Module QueueNode.
Record t : Type := mk {
  airportId : string;
  distance : dist
}.

#[global] Instance eq_dec : EqDecision t.
Proof. solve_decision. Defined.

(** [operator>] *)
Definition gt (a b : t) : bool := dist_ltb (distance b) (distance a).
End QueueNode.

(** [std::priority_queue] ordered by [std::greater<>]: [pq_pop] is
    [empty()] followed by [top()] and [pop()].  [pq_items] is the content of
    the queue, used in statements only. *)
Class PriorityQueue : Type := {
  pq_t : Type;
  pq_new : pq_t;
  pq_push : QueueNode.t → pq_t → pq_t;
  pq_pop : pq_t → option (QueueNode.t * pq_t);
  pq_items : pq_t → list QueueNode.t;
  pq_new_items : pq_items pq_new = [];
  pq_push_items : ∀ x q, pq_items (pq_push x q) ≡ₚ x :: pq_items q;
  pq_pop_None : ∀ q, pq_pop q = None ↔ pq_items q = [];
  pq_pop_Some : ∀ q x q', pq_pop q = Some (x, q') →
    pq_items q ≡ₚ x :: pq_items q' ∧
    Forall (λ y, QueueNode.gt x y = false) (pq_items q')
}.

(** A queue kept as a plain list; [top] is the leftmost least element. *)
Fixpoint list_pop (q : list QueueNode.t)
    : option (QueueNode.t * list QueueNode.t) :=
  match q with
  | [] => None
  | x :: q' =>
    match list_pop q' with
    | None => Some (x, [])
    | Some (m, r) =>
      if QueueNode.gt x m then Some (m, x :: r) else Some (x, q')
    end
  end.

Section search.
Context `{PQ : PriorityQueue}.

Record state : Type := mkState {
  pq : pq_t;
  distances : gmap string dist;
  previous : gmap string string
}.

(** [distances[k]] read through [operator[]]: a missing key reads as
    [0.0] and is created with that value. *)
Definition dist_at (distances : gmap string dist) (k : string) : dist :=
  default (Fin 0) (distances !! k).

Definition dist_touch (distances : gmap string dist) (k : string)
    : gmap string dist :=
  <[k := dist_at distances k]> distances.

(** [previous[k]], read where the key is known to be present. *)
Definition prev_at (previous : gmap string string) (k : string) : string :=
  default "" (previous !! k).

(** Body of the loop over the routes of [current] (lines 53-62). *)
Definition relax (current : QueueNode.t) (st : state) (edge : Edge)
    : state :=
  let newDist := dist_add (QueueNode.distance current) (distance edge) in
  if dist_ltb newDist (dist_at (distances st) (destination edge)) then
    mkState
      (pq_push (QueueNode.mk (destination edge) newDist) (pq st))
      (<[destination edge := newDist]> (distances st))
      (<[destination edge := QueueNode.airportId current]> (previous st))
  else
    mkState (pq st) (dist_touch (distances st) (destination edge))
      (previous st).

(** The main loop (lines 41-63). *)
Fixpoint dijkstra_loop (fuel : nat) (graph : Graph) (targetId : string)
    (st : state) : option state :=
  match fuel with
  | O => None
  | S fuel' =>
    match pq_pop (pq st) with
    | None => Some st
    | Some (current, rest) =>
      if decide (QueueNode.airportId current = targetId) then
        Some (mkState rest (distances st) (previous st))
      else
        let st1 :=
          mkState rest
            (dist_touch (distances st) (QueueNode.airportId current))
            (previous st) in
        if dist_ltb (dist_at (distances st) (QueueNode.airportId current))
             (QueueNode.distance current)
        then dijkstra_loop fuel' graph targetId st1
        else
          dijkstra_loop fuel' graph targetId
            (foldl (relax current) st1
               (getRoutes graph (QueueNode.airportId current)))
    end
  end.

(** The reconstruction loop (lines 66-70); [acc] is [result.path]. *)
Fixpoint reconstruct (fuel : nat) (previous : gmap string string)
    (curr : string) (acc : list string) : option (list string) :=
  match fuel with
  | O => None
  | S fuel' =>
    if decide (curr ≠ "" ∧ is_Some (previous !! curr)) then
      reconstruct fuel' previous (prev_at previous curr) (curr :: acc)
    else Some acc
  end.

Definition init_state (graph : Graph) (sourceId : string) : state :=
  mkState
    (pq_push (QueueNode.mk sourceId (Fin 0)) pq_new)
    (<[sourceId := Fin 0]> ((λ _, Inf) <$> graph))
    ((λ _, "") <$> graph).

Definition findShortestPath (fuel : nat) (graph : Graph)
    (sourceId targetId : string) : option PathResult :=
  if negb (hasAirport graph sourceId) || negb (hasAirport graph targetId)
  then Some empty_result
  else
    st ← dijkstra_loop fuel graph targetId (init_state graph sourceId);
    p ← reconstruct fuel (previous st) targetId [];
    Some (mkPathResult p
            (match distances st !! targetId with
             | Some d => d
             | None => totalDistance empty_result
             end)).

(** What the call writes to [std::cerr] (line 19). *)
Definition findShortestPath_stderr (graph : Graph)
    (sourceId targetId : string) : string :=
  if negb (hasAirport graph sourceId) || negb (hasAirport graph targetId)
  then String.append "Error: Source or target airport not found in graph"
         (String (Ascii.ascii_of_nat 10) EmptyString)
  else EmptyString.
End search.

(** ** Dijkstra.cpp with the additions rounded

    The same function with line 54 computed by [dist_add64] in place of
    [dist_add]; the route lengths count units [2^-frac]. *)

Section search64.
Context `{PQ : PriorityQueue}.
Context (frac : nat).

Definition relax64 (current : QueueNode.t) (st : state) (edge : Edge)
    : state :=
  let newDist :=
    dist_add64 frac (QueueNode.distance current) (distance edge) in
  if dist_ltb newDist (dist_at (distances st) (destination edge)) then
    mkState
      (pq_push (QueueNode.mk (destination edge) newDist) (pq st))
      (<[destination edge := newDist]> (distances st))
      (<[destination edge := QueueNode.airportId current]> (previous st))
  else
    mkState (pq st) (dist_touch (distances st) (destination edge))
      (previous st).

Fixpoint dijkstra_loop64 (fuel : nat) (graph : Graph) (targetId : string)
    (st : state) : option state :=
  match fuel with
  | O => None
  | S fuel' =>
    match pq_pop (pq st) with
    | None => Some st
    | Some (current, rest) =>
      if decide (QueueNode.airportId current = targetId) then
        Some (mkState rest (distances st) (previous st))
      else
        let st1 :=
          mkState rest
            (dist_touch (distances st) (QueueNode.airportId current))
            (previous st) in
        if dist_ltb (dist_at (distances st) (QueueNode.airportId current))
             (QueueNode.distance current)
        then dijkstra_loop64 fuel' graph targetId st1
        else
          dijkstra_loop64 fuel' graph targetId
            (foldl (relax64 current) st1
               (getRoutes graph (QueueNode.airportId current)))
    end
  end.

Definition findShortestPath64 (fuel : nat) (graph : Graph)
    (sourceId targetId : string) : option PathResult :=
  if negb (hasAirport graph sourceId) || negb (hasAirport graph targetId)
  then Some empty_result
  else
    st ← dijkstra_loop64 fuel graph targetId (init_state graph sourceId);
    p ← reconstruct fuel (previous st) targetId [];
    Some (mkPathResult p
            (match distances st !! targetId with
             | Some d => d
             | None => totalDistance empty_result
             end)).
End search64.

(** ** main.cpp: the sample graph (lines 18-27) *)

Definition sample_ops : list GraphOp :=
  [AddAirport "JFK"; AddAirport "DFW"; AddAirport "ORD";
   AddRoute "JFK" "ORD" 800; AddRoute "ORD" "DFW" 1650].

Definition sample_graph : Graph := build sample_ops.

(** Two routes in a row whose lengths binary64 cannot add without
    rounding; not part of [main.cpp]. *)
Definition rounding_ops : list GraphOp :=
  [AddRoute "A" "B" (2 ^ 53); AddRoute "B" "C" 1].

(** ** Routes through the graph, for the statements *)

(** [walk g u p v]: the edges [p], taken in order, lead from [u] to [v]. *)
Fixpoint walk (g : Graph) (u : string) (p : list Edge) (v : string) : Prop :=
  match p with
  | [] => u = v
  | e :: p' => e ∈ getRoutes g u ∧ walk g (destination e) p' v
  end.

(** The sum of the weights of the edges of [p]. *)
Definition path_weight (p : list Edge) : Z :=
  foldr (λ e acc, distance e + acc) 0 p.

(** [d] is the least weight of a walk from [u] to [v]. *)
Definition min_weight (g : Graph) (u v : string) (d : Z) : Prop :=
  (∃ p, walk g u p v ∧ path_weight p = d) ∧
  (∀ p, walk g u p v → d ≤ path_weight p).

(** A walk that visits no node twice. *)
Definition simple_walk (g : Graph) (u : string) (p : list Edge) (v : string)
    : Prop :=
  walk g u p v ∧ NoDup (u :: map destination p).

(** [d] is the least weight of a simple walk from [u] to [v]. *)
Definition min_simple_weight (g : Graph) (u v : string) (d : Z) : Prop :=
  (∃ p, simple_walk g u p v ∧ path_weight p = d) ∧
  (∀ p, simple_walk g u p v → d ≤ path_weight p).

(** The weights of the edges of [p] added one after the other in
    binary64, starting from 0 at the first edge, as the search adds them
    along a route. *)
Definition path_weight64 (frac : nat) (p : list Edge) : dist :=
  foldl (λ acc e, dist_add64 frac acc (distance e)) (Fin 0) p.

(** The sum of the weights of all adjacency entries; a route counts
    twice, once at each end. *)
Definition total_weight (g : Graph) : Z :=
  map_fold (λ _ routes acc, path_weight routes + acc) 0 g.

(** The number of adjacency entries of the whole graph. *)
Definition total_edges (g : Graph) : nat :=
  map_fold (λ _ routes acc, length routes + acc)%nat 0%nat g.

(** A step budget that is enough for both loops on every closed graph
    without negative weights. *)
Definition fuel_bound (g : Graph) : nat := (size g + total_edges g + 2)%nat.

(** A graph of airports without routes. *)
Definition no_routes (g : Graph) : Prop :=
  map_Forall (λ _ routes, routes = []) g.

(** ** Invariants of the main loop, for the proofs *)

Section invariants.
Context `{PQ : PriorityQueue}.
Context (g : Graph) (s t : string).

(** What holds of the working state whenever the loop condition is
    tested.  [L] lists the nodes whose routes have been scanned, the
    latest first; it is not part of the program state. *)
Record inv (L : list string) (st : state) : Prop := mkInv {
  inv_dom : ∀ k, is_Some (distances st !! k) ↔ is_Some (g !! k);
  inv_src : distances st !! s = Some (Fin 0);
  inv_sound : ∀ v d, distances st !! v = Some (Fin d) →
    ∃ p, walk g s p v ∧ path_weight p = d;
  inv_queue : ∀ x, x ∈ pq_items (pq st) →
    ∃ d d', QueueNode.distance x = Fin d ∧
      distances st !! QueueNode.airportId x = Some (Fin d') ∧ d' ≤ d;
  inv_nodup : NoDup (pq_items (pq st));
  inv_settled : ∀ x, x ∈ L →
    ∃ dx, distances st !! x = Some (Fin dx) ∧
      ∀ y dy, y ∈ pq_items (pq st) → QueueNode.distance y = Fin dy →
        dx ≤ dy;
  inv_stale : ∀ y dy dx, y ∈ pq_items (pq st) →
    QueueNode.airportId y ∈ L → QueueNode.distance y = Fin dy →
    distances st !! QueueNode.airportId y = Some (Fin dx) → dx < dy;
  inv_prev_dom : ∀ k, is_Some (previous st !! k) ↔ is_Some (g !! k);
  inv_prev : ∀ v u, previous st !! v = Some u → u ≠ "" →
    u ∈ L ∧ ∀ l1 l2, L = l1 ++ v :: l2 → u ∈ l2;
  inv_prev_inf : ∀ v, distances st !! v = Some Inf →
    previous st !! v = Some "";
  inv_L_nodup : NoDup L;
  inv_above : ∀ v, distances st !! v ≠ Some NInf
}.

(** Every edge out of a node with a finite tentative distance has been
    relaxed with that distance, or the node is queued with it, or the
    edge is among the routes [pend] of [u] still to be scanned. *)
Definition relaxed (pend : list Edge) (u : string) (st : state) : Prop :=
  ∀ x routes e dx,
    g !! x = Some routes → e ∈ routes →
    distances st !! x = Some (Fin dx) →
    (∃ dy, distances st !! destination e = Some (Fin dy) ∧
       dy ≤ dx + distance e) ∨
    QueueNode.mk x (Fin dx) ∈ pq_items (pq st) ∨
    (x = u ∧ e ∈ pend).

(** The state while the routes of [u], popped with distance [d], are
    scanned. *)
Record scanning (u : string) (d : Z) (L : list string) (pend : list Edge)
    (st : state) : Prop := mkScanning {
  sc_inv : inv L st;
  sc_relaxed : relaxed pend u st;
  sc_cur : distances st !! u = Some (Fin d);
  sc_in : u ∈ L;
  sc_below : ∀ x, x ∈ L →
    ∃ dx, distances st !! x = Some (Fin dx) ∧ dx ≤ d
}.

(** The loop's progress measure. *)
Definition measure (L : list string) (st : state) : nat :=
  (length (pq_items (pq st)) + total_edges (foldr delete g L))%nat.

(** The tentative distance of the target is at most the weight of
    every walk from the source to it. *)
Definition target_final (st : state) : Prop :=
  ∀ p, walk g s p t →
    ∃ dt, distances st !! t = Some (Fin dt) ∧ dt ≤ path_weight p.
End invariants.

(** ** Notions for the further properties *)

(** The routes one call appends to the entry of [k], in the order of the
    two [push_back]s. *)
Definition op_routes (k : string) (op : GraphOp) : list Edge :=
  match op with
  | AddAirport _ => []
  | AddRoute a b w =>
    (if decide (a = k) then [mkEdge b w] else [])
      ++ (if decide (b = k) then [mkEdge a w] else [])
  end.

(** The number of [addRoute] calls in a sequence of calls. *)
Definition route_calls (ops : list GraphOp) : nat :=
  sum_list_with
    (λ op, match op with AddRoute _ _ _ => 1 | AddAirport _ => 0 end)%nat
    ops.

(** Every stored edge has its reverse stored at the other end. *)
Definition graph_symmetric (g : Graph) : Prop :=
  ∀ a b w, mkEdge b w ∈ getRoutes g a → mkEdge a w ∈ getRoutes g b.

Section further_invariants.
Context `{PQ : PriorityQueue}.
Context (g : Graph) (s : string).

(** The predecessor links follow edges of the graph and account for the
    tentative distances; the source, and only the source among the nodes
    with a finite distance, has none. *)
Definition route_links (D : gmap string dist) (P : gmap string string)
    : Prop :=
  P !! s = Some "" ∧
  (∀ v u, P !! v = Some u → u ≠ "" →
     ∃ w du, mkEdge v w ∈ getRoutes g u ∧
       D !! u = Some (Fin du) ∧ D !! v = Some (Fin (du + w))) ∧
  (∀ v d, D !! v = Some (Fin d) → P !! v = Some "" → v = s).

(** A property of the two maps that one pass through the body of the
    route loop keeps. *)
Definition relax_stable
    (Q : gmap string dist → gmap string string → Prop) : Prop :=
  ∀ u d L e pend st,
    scanning g s u d L (e :: pend) st → e ∈ getRoutes g u →
    Q (distances st) (previous st) →
    Q (distances (relax (QueueNode.mk u (Fin d)) st e))
      (previous (relax (QueueNode.mk u (Fin d)) st e)).


(** What the working state of the rounded search keeps whatever the sign
    of the weights: the distance map covers the graph, and every distance
    in the map other than the initial [+infinity], and every distance in
    the queue, is the rounded weight of a walk from the source. *)
Definition weak_inv64 (frac : nat) (st : state) : Prop :=
  (∀ k, is_Some (g !! k) → is_Some (distances st !! k)) ∧
  (∀ v x, distances st !! v = Some x →
     x = Inf ∨ ∃ p, walk g s p v ∧ path_weight64 frac p = x) ∧
  (∀ y, y ∈ pq_items (pq st) →
     is_Some (g !! QueueNode.airportId y) ∧
     ∃ p, walk g s p (QueueNode.airportId y) ∧
       path_weight64 frac p = QueueNode.distance y).
End further_invariants.

(** ** Invariants of the rounded search on weights of any size *)

Section invariants64.
Context `{PQ : PriorityQueue}.
Context (frac : nat) (g : Graph) (s : string).

(** Every predecessor link leads from a node to one scanned earlier. *)
Definition prev_ordered (L : list string) (P : gmap string string) : Prop :=
  ∀ v u, P !! v = Some u → u ≠ "" →
    u ∈ L ∧ ∀ l1 l2, L = l1 ++ v :: l2 → u ∈ l2.

(** What holds of the working state of the rounded search whenever the
    loop condition is tested.  [L] lists the nodes whose routes have been
    scanned, the latest first. *)
Record inv64 (L : list string) (st : state) : Prop := mkInv64 {
  inv64_dom : ∀ k, is_Some (distances st !! k) ↔ is_Some (g !! k);
  inv64_src : distances st !! s = Some (Fin 0);
  inv64_ok : ∀ v x, distances st !! v = Some x → dist_ok x;
  inv64_walk : ∀ v x, distances st !! v = Some x → x ≠ Inf →
    ∃ p, walk g s p v ∧ path_weight64 frac p = x;
  inv64_queue : ∀ y, y ∈ pq_items (pq st) →
    dist_ok (QueueNode.distance y) ∧
    ∃ x, distances st !! QueueNode.airportId y = Some x ∧
      dist_le x (QueueNode.distance y);
  inv64_nodup : NoDup (pq_items (pq st));
  inv64_settled : ∀ u, u ∈ L →
    ∃ x, distances st !! u = Some x ∧
      ∀ y, y ∈ pq_items (pq st) → dist_le x (QueueNode.distance y);
  inv64_stale : ∀ y x, y ∈ pq_items (pq st) →
    QueueNode.airportId y ∈ L →
    distances st !! QueueNode.airportId y = Some x →
    dist_ltb x (QueueNode.distance y) = true;
  inv64_prev_dom : ∀ k, is_Some (previous st !! k) ↔ is_Some (g !! k);
  inv64_prev : prev_ordered L (previous st);
  inv64_prev_inf : ∀ v, distances st !! v = Some Inf →
    previous st !! v = Some "";
  inv64_prev_src : previous st !! s = Some "";
  inv64_L_nodup : NoDup L;
  inv64_links : ∀ v u, previous st !! v = Some u → u ≠ "" →
    ∃ w xu, mkEdge v w ∈ getRoutes g u ∧
      distances st !! u = Some xu ∧
      distances st !! v = Some (dist_add64 frac xu w);
  inv64_root : g !! "" = None →
    ∀ v x, distances st !! v = Some x → x ≠ Inf →
      previous st !! v = Some "" → v = s
}.

(** The state while the routes of [u], popped with distance [x], are
    scanned. *)
Record scanning64 (u : string) (x : dist) (L : list string) (st : state)
    : Prop := mkScanning64 {
  sc64_inv : inv64 L st;
  sc64_cur : distances st !! u = Some x;
  sc64_in : u ∈ L;
  sc64_below : ∀ v, v ∈ L →
    ∃ xv, distances st !! v = Some xv ∧ dist_le xv x
}.

(** Every edge out of a node with a distance other than [+infinity] has
    been relaxed with that distance, or the node is queued with it, or
    the edge is among the routes [pend] of [u] still to be scanned. *)
Definition relaxed64 (pend : list Edge) (u : string) (st : state) : Prop :=
  ∀ x routes e dx,
    g !! x = Some routes → e ∈ routes →
    distances st !! x = Some dx → dx ≠ Inf →
    (∃ dy, distances st !! destination e = Some dy ∧
       dist_le dy (dist_add64 frac dx (distance e))) ∨
    QueueNode.mk x dx ∈ pq_items (pq st) ∨
    (x = u ∧ e ∈ pend).

(** The tentative distance of [t] is at most the rounded weight of every
    walk from the source to it. *)
Definition target_final64 (t : string) (st : state) : Prop :=
  ∀ p, walk g s p t →
    ∃ xt, distances st !! t = Some xt ∧ dist_le xt (path_weight64 frac p).
End invariants64.

(** * Properties *)

(** ** The order on distances *)

Lemma dist_ltb_lt a b : dist_ltb (Fin a) (Fin b) = true ↔ a < b.
Proof. simpl. apply Z.ltb_lt. Qed.

Lemma dist_le_fin a b : dist_le (Fin a) (Fin b) ↔ a ≤ b.
Proof. unfold dist_le. simpl. rewrite Z.ltb_ge. done. Qed.

Lemma dist_le_refl a : dist_le a a.
Proof. destruct a; [apply dist_le_fin; lia | done..]. Qed.

Lemma dist_le_trans a b c : dist_le a b → dist_le b c → dist_le a c.
Proof.
  destruct a, b, c; rewrite ?dist_le_fin; try done; try lia.
Qed.

Lemma dist_le_inf_l a : dist_le Inf a → a = Inf.
Proof. by destruct a. Qed.

Lemma dist_ltb_false_le a b : dist_ltb a b = false ↔ dist_le b a.
Proof. done. Qed.

Lemma dist_ltb_true_le a b : dist_ltb a b = true → dist_le a b.
Proof.
  destruct a, b; simpl; try done.
  rewrite Z.ltb_lt, dist_le_fin. lia.
Qed.

(** ** The list queue implements the interface *)

Lemma list_pop_None q : list_pop q = None ↔ q = [].
Proof.
  destruct q as [|x q]; [done|]. simpl.
  destruct (list_pop q) as [[m r]|]; [|done].
  by destruct (QueueNode.gt x m).
Qed.

Lemma list_pop_Some q x q' :
  list_pop q = Some (x, q') →
  q ≡ₚ x :: q' ∧ Forall (λ y, QueueNode.gt x y = false) q'.
Proof.
  revert x q'. induction q as [|a q IH]; intros x q' Hpop; [done|].
  simpl in Hpop. destruct (list_pop q) as [[m r]|] eqn:Hq.
  - destruct (IH m r eq_refl) as [Hperm Hmin].
    destruct (QueueNode.gt a m) eqn:Ham; simplify_eq.
    + split.
      * rewrite Hperm. apply perm_swap.
      * constructor; [|done].
        unfold QueueNode.gt in *. by apply dist_ltb_true_le in Ham.
    + split; [done|]. rewrite Hperm. constructor; [done|].
      eapply Forall_impl; [exact Hmin|]. intros y Hy.
      unfold QueueNode.gt in *. simpl in *.
      eapply dist_le_trans; [exact Ham | exact Hy].
  - simplify_eq. apply list_pop_None in Hq as ->. by split.
Qed.

#[export] Instance ListPQ : PriorityQueue := {|
  pq_t := list QueueNode.t;
  pq_new := [];
  pq_push x q := x :: q;
  pq_pop := list_pop;
  pq_items q := q;
  pq_new_items := eq_refl;
  pq_push_items x q := reflexivity (x :: q);
  pq_pop_None := list_pop_None;
  pq_pop_Some := list_pop_Some
|}.

(** ** The graph container *)

Lemma hasAirport_true (g : Graph) id : hasAirport g id = true ↔ is_Some (g !! id).
Proof.
  unfold hasAirport. destruct (g !! id); split; intros H; done.
Qed.

Lemma hasAirport_false (g : Graph) id : hasAirport g id = false ↔ g !! id = None.
Proof. unfold hasAirport. by destruct (g !! id). Qed.

Lemma getRoutes_adj_at (g : Graph) id : getRoutes g id = adj_at g id.
Proof. unfold getRoutes, adj_at. by destruct (g !! id). Qed.

Lemma getRoutes_Some (g : Graph) id routes :
  g !! id = Some routes → getRoutes g id = routes.
Proof. unfold getRoutes. by intros ->. Qed.

Lemma elem_of_getRoutes (g : Graph) id e :
  e ∈ getRoutes g id ↔ ∃ routes, g !! id = Some routes ∧ e ∈ routes.
Proof.
  unfold getRoutes. destruct (g !! id) as [routes|]; [naive_solver|].
  split; [by intros ?%elem_of_nil | by intros (? & ? & ?)].
Qed.

Lemma addAirport_lookup (g : Graph) id k :
  addAirport g id !! k =
    if decide (id = k) then Some (adj_at g id) else g !! k.
Proof.
  unfold addAirport, adj_at. destruct (g !! id) eqn:Hid.
  - case_decide; by subst.
  - rewrite lookup_insert. by case_decide.
Qed.

Lemma addRoute_lookup (g : Graph) a b w k :
  addRoute g a b w !! k =
    if decide (b = k) then
      Some (adj_at g b ++ (if decide (a = b) then [mkEdge b w] else [])
              ++ [mkEdge a w])
    else if decide (a = k) then Some (adj_at g a ++ [mkEdge b w])
    else g !! k.
Proof.
  unfold addRoute. rewrite lookup_insert. case_decide as Hbk.
  - f_equal. unfold adj_at at 1. rewrite lookup_insert.
    case_decide; simpl; [subst; by rewrite <-(assoc_L (++))|done].
  - rewrite lookup_insert. by case_decide.
Qed.

Lemma addAirport_is_Some (g : Graph) id k :
  is_Some (addAirport g id !! k) ↔ id = k ∨ is_Some (g !! k).
Proof.
  rewrite addAirport_lookup. case_decide; [|naive_solver].
  split; [auto|]. by eexists.
Qed.

Lemma addRoute_is_Some (g : Graph) a b w k :
  is_Some (addRoute g a b w !! k) ↔ (a = k ∨ b = k) ∨ is_Some (g !! k).
Proof.
  rewrite addRoute_lookup. repeat case_decide; try naive_solver.
Qed.

Lemma apply_op_is_Some (g : Graph) op k :
  is_Some (apply_op g op !! k) ↔ op_adds k op ∨ is_Some (g !! k).
Proof.
  destruct op; simpl; [apply addAirport_is_Some | apply addRoute_is_Some].
Qed.

Lemma build_snoc ops op : build (ops ++ [op]) = apply_op (build ops) op.
Proof. unfold build. by rewrite foldl_snoc. Qed.

Lemma build_is_Some ops k : is_Some (build ops !! k) ↔ was_added ops k.
Proof.
  unfold was_added. induction ops as [|op ops IH] using rev_ind.
  - unfold build. simpl. rewrite lookup_empty, Exists_nil.
    split; [by intros [? ?]|done].
  - rewrite build_snoc, apply_op_is_Some, IH, Exists_app, Exists_cons,
      Exists_nil. tauto.
Qed.

(** Graphs made by the two mutators are closed. *)
Lemma graph_closed_lookup (g : Graph) u routes e :
  graph_closed g → g !! u = Some routes → e ∈ routes →
  is_Some (g !! destination e).
Proof.
  intros Hc Hu He. specialize (Hc u routes Hu). simpl in Hc.
  by eapply Forall_forall in Hc.
Qed.

Lemma graph_nonneg_lookup (g : Graph) u routes e :
  graph_nonneg g → g !! u = Some routes → e ∈ routes → 0 ≤ distance e.
Proof.
  intros Hc Hu He. specialize (Hc u routes Hu). simpl in Hc.
  by eapply Forall_forall in Hc.
Qed.

Lemma apply_op_elem (g : Graph) op k routes e :
  apply_op g op !! k = Some routes → e ∈ routes →
  (∃ routes', g !! k = Some routes' ∧ e ∈ routes') ∨
  (∃ a b w, op = AddRoute a b w ∧
     ((k = a ∧ e = mkEdge b w) ∨ (k = b ∧ e = mkEdge a w))).
Proof.
  destruct op as [a|a b w]; simpl.
  - rewrite addAirport_lookup. unfold adj_at. case_decide; [subst|eauto].
    intros [= <-]. destruct (g !! k); [eauto|by intros ?%elem_of_nil].
  - rewrite addRoute_lookup. unfold adj_at.
    repeat case_decide; subst; intros Heq He; simplify_eq;
      rewrite ?elem_of_app, ?list_elem_of_singleton in He;
      try (destruct (g !! k) eqn:?; simpl in He);
      rewrite ?elem_of_nil in He; naive_solver.
Qed.

Lemma apply_op_closed (g : Graph) op :
  graph_closed g → graph_closed (apply_op g op).
Proof.
  intros Hc k routes Hk. simpl. apply Forall_forall. intros e He.
  apply apply_op_is_Some.
  destruct (apply_op_elem _ _ _ _ _ Hk He)
    as [(r' & Hr' & He')|(a & b & w & -> & [[-> ->]|[-> ->]])].
  - right. by eapply graph_closed_lookup.
  - left. simpl. auto.
  - left. simpl. auto.
Qed.

Lemma apply_op_nonneg (g : Graph) op :
  op_nonneg op → graph_nonneg g → graph_nonneg (apply_op g op).
Proof.
  intros Hop Hc k routes Hk. simpl. apply Forall_forall. intros e He.
  destruct (apply_op_elem _ _ _ _ _ Hk He)
    as [(r' & Hr' & He')|(a & b & w & -> & [[-> ->]|[-> ->]])].
  - by eapply graph_nonneg_lookup.
  - done.
  - done.
Qed.

Lemma build_closed ops : graph_closed (build ops).
Proof.
  induction ops as [|op ops IH] using rev_ind.
  - unfold build. simpl. apply map_Forall_empty.
  - rewrite build_snoc. by apply apply_op_closed.
Qed.

Lemma build_nonneg ops : Forall op_nonneg ops → graph_nonneg (build ops).
Proof.
  induction ops as [|op ops IH] using rev_ind; intros Hops.
  - unfold build. simpl. apply map_Forall_empty.
  - apply Forall_app in Hops as [Hops Hop]. rewrite build_snoc.
    apply apply_op_nonneg; [by inversion Hop | auto].
Qed.

(** ** Walks *)

Lemma walk_app g u p v q w :
  walk g u p v → walk g v q w → walk g u (p ++ q) w.
Proof.
  revert u. induction p as [|e p IH]; simpl; intros u.
  - by intros ->.
  - intros [He Hp] Hq. split; [done|]. by apply IH.
Qed.

Lemma walk_snoc g u p v e :
  walk g u p v → e ∈ getRoutes g v → walk g u (p ++ [e]) (destination e).
Proof. intros Hp He. eapply walk_app; [exact Hp|]. by simpl. Qed.

Lemma walk_snoc_inv g u p e w :
  walk g u (p ++ [e]) w →
  ∃ v, walk g u p v ∧ e ∈ getRoutes g v ∧ destination e = w.
Proof.
  revert u. induction p as [|e' p IH]; simpl; intros u.
  - intros [He Hw]. eauto.
  - intros [He' Hp]. destruct (IH _ Hp) as (v & ? & ? & ?). eauto.
Qed.

Lemma path_weight_app p q : path_weight (p ++ q) = path_weight p + path_weight q.
Proof.
  unfold path_weight. induction p as [|e p IH]; simpl; [done|].
  rewrite IH. lia.
Qed.

Lemma path_weight_snoc p e : path_weight (p ++ [e]) = path_weight p + distance e.
Proof. rewrite path_weight_app. unfold path_weight. simpl. lia. Qed.

Lemma walk_weight_nonneg g u p v :
  graph_nonneg g → walk g u p v → 0 ≤ path_weight p.
Proof.
  intros Hnn. revert u. induction p as [|e p IH]; simpl; intros u; [done|].
  intros [He Hp]. apply elem_of_getRoutes in He as (routes & Hu & He).
  pose proof (graph_nonneg_lookup _ _ _ _ Hnn Hu He).
  specialize (IH _ Hp). unfold path_weight in *. simpl. lia.
Qed.

Lemma walk_edges_nonneg g u p v :
  graph_nonneg g → walk g u p v → Forall (λ e, 0 ≤ distance e) p.
Proof.
  intros Hnn. revert u. induction p as [|e p IH]; simpl; intros u;
    [by constructor|].
  intros [(routes & Hu & He)%elem_of_getRoutes Hp]. constructor; [|eauto].
  by eapply graph_nonneg_lookup.
Qed.

Lemma path_weight_nonneg p :
  Forall (λ e, 0 ≤ distance e) p → 0 ≤ path_weight p.
Proof.
  unfold path_weight. induction 1 as [|e p He Hp IH]; simpl; lia.
Qed.

(** A walk that passes through [u] can start there instead. *)
Lemma walk_split g x q v u :
  walk g x q v → u ∈ x :: map destination q →
  ∃ q1 q2 pre, q = q1 ++ q2 ∧ walk g u q2 v ∧
    x :: map destination q = pre ++ u :: map destination q2.
Proof.
  revert x. induction q as [|e q IH]; simpl; intros x Hq Hu.
  - apply list_elem_of_singleton in Hu as ->. by exists [], [], [].
  - destruct Hq as [He Hq]. apply elem_of_cons in Hu as [->|Hu].
    + exists [], (e :: q), []. by repeat split.
    + destruct (IH _ Hq Hu) as (q1 & q2 & pre & -> & Hq2 & Hnodes).
      exists (e :: q1), q2, (x :: pre). split; [done|]. split; [done|].
      simpl. by rewrite Hnodes.
Qed.

(** Without negative weights, cutting the cycles out of a walk does not
    make it heavier. *)
Lemma walk_simplify g p u v :
  graph_nonneg g → walk g u p v →
  ∃ q, simple_walk g u q v ∧ path_weight q ≤ path_weight p.
Proof.
  intros Hnn. revert u. induction p as [|e p IH]; intros u Hp.
  - exists []. split; [|done]. split; [done|]. apply NoDup_singleton.
  - destruct Hp as [He Hp].
    pose proof He as (routes & Hu & He')%elem_of_getRoutes.
    pose proof (graph_nonneg_lookup _ _ _ _ Hnn Hu He') as Hw.
    destruct (IH _ Hp) as (q & [Hq Hnd] & Hle).
    change (path_weight (e :: p)) with (distance e + path_weight p).
    destruct (decide (u ∈ destination e :: map destination q)) as [Hin|Hout].
    + destruct (walk_split _ _ _ _ _ Hq Hin)
        as (q1 & q2 & pre & -> & Hq2 & Hnodes).
      exists q2. split.
      * split; [done|]. rewrite Hnodes in Hnd.
        by apply NoDup_app in Hnd as (_ & _ & ?).
      * pose proof (walk_edges_nonneg _ _ _ _ Hnn Hq) as Hall.
        apply Forall_app in Hall as [Hq1 _].
        apply path_weight_nonneg in Hq1.
        rewrite path_weight_app in Hle. lia.
    + exists (e :: q). split.
      * split; [by split|]. simpl. by constructor.
      * change (path_weight (e :: q)) with (distance e + path_weight q).
        lia.
Qed.

Lemma min_weight_simple g u v d :
  graph_nonneg g → min_weight g u v d → min_simple_weight g u v d.
Proof.
  intros Hnn [(p & Hp & <-) Hmin]. split.
  - destruct (walk_simplify _ _ _ _ Hnn Hp) as (q & Hq & Hle).
    exists q. split; [done|]. destruct Hq as [Hq _].
    specialize (Hmin _ Hq). lia.
  - intros q [Hq _]. auto.
Qed.

Lemma min_weight_unique g u v d1 d2 :
  min_weight g u v d1 → min_weight g u v d2 → d1 = d2.
Proof.
  intros [(p1 & Hp1 & <-) Hmin1] [(p2 & Hp2 & <-) Hmin2].
  specialize (Hmin1 _ Hp2). specialize (Hmin2 _ Hp1). lia.
Qed.

(** ** Counting adjacency entries *)

Lemma total_edges_delete (m : Graph) k routes :
  m !! k = Some routes →
  total_edges m = (length routes + total_edges (delete k m))%nat.
Proof.
  intros Hk. unfold total_edges.
  rewrite (map_fold_delete_L _ _ k routes m); [done| |done].
  intros. lia.
Qed.

Lemma lookup_foldr_delete (m : Graph) (L : list string) k :
  k ∉ L → foldr delete m L !! k = m !! k.
Proof.
  induction L as [|x L IH]; simpl; [done|].
  rewrite not_elem_of_cons. intros [Hne HL].
  rewrite lookup_delete_ne by done. auto.
Qed.

(** ** Consequences of the queue interface *)

Section queue_facts.
Context `{PQ : PriorityQueue}.

Lemma elem_of_pq_push x y q :
  x ∈ pq_items (pq_push y q) ↔ x = y ∨ x ∈ pq_items q.
Proof. by rewrite pq_push_items, elem_of_cons. Qed.

Lemma NoDup_pq_push y q :
  y ∉ pq_items q → NoDup (pq_items q) → NoDup (pq_items (pq_push y q)).
Proof. intros. rewrite pq_push_items. by constructor. Qed.

Lemma length_pq_push y q :
  length (pq_items (pq_push y q)) = S (length (pq_items q)).
Proof. by rewrite pq_push_items. Qed.

Lemma elem_of_pq_pop q x q' y :
  pq_pop q = Some (x, q') → y ∈ pq_items q ↔ y = x ∨ y ∈ pq_items q'.
Proof.
  intros [Hperm _]%pq_pop_Some. by rewrite Hperm, elem_of_cons.
Qed.

Lemma NoDup_pq_pop q x q' :
  pq_pop q = Some (x, q') → NoDup (pq_items q) →
  x ∉ pq_items q' ∧ NoDup (pq_items q').
Proof.
  intros [Hperm _]%pq_pop_Some. rewrite Hperm. by intros ?%NoDup_cons.
Qed.

Lemma length_pq_pop q x q' :
  pq_pop q = Some (x, q') →
  length (pq_items q) = S (length (pq_items q')).
Proof. intros [Hperm _]%pq_pop_Some. by rewrite Hperm. Qed.

Lemma pq_pop_least q x q' y dx dy :
  pq_pop q = Some (x, q') → y ∈ pq_items q →
  QueueNode.distance x = Fin dx → QueueNode.distance y = Fin dy →
  dx ≤ dy.
Proof.
  intros Hpop Hy Hdx Hdy.
  apply (elem_of_pq_pop _ _ _ y) in Hpop as Hy'. apply Hy' in Hy.
  destruct Hy as [->|Hy]; [rewrite Hdx in Hdy; injection Hdy as ->; lia|].
  apply pq_pop_Some in Hpop as [_ Hmin].
  eapply Forall_forall in Hmin; [|exact Hy].
  unfold QueueNode.gt in Hmin. rewrite Hdx, Hdy in Hmin.
  by apply dist_le_fin in Hmin.
Qed.

(** A queue holding one item hands out that item. *)
Lemma pq_pop_push_empty x q :
  pq_items q = [] →
  ∃ q', pq_pop (pq_push x q) = Some (x, q') ∧ pq_items q' = [].
Proof.
  intros Hq. pose proof (pq_push_items x q) as Hitems.
  rewrite Hq in Hitems. apply Permutation_singleton_r in Hitems.
  destruct (pq_pop (pq_push x q)) as [[y q']|] eqn:Hpop.
  - apply pq_pop_Some in Hpop as [Hperm _]. rewrite Hitems in Hperm.
    symmetry in Hperm. apply Permutation_singleton_r in Hperm.
    injection Hperm as -> Hq'. eauto.
  - apply pq_pop_None in Hpop. congruence.
Qed.

Lemma pq_pop_singleton x :
  ∃ q', pq_pop (pq_push x pq_new) = Some (x, q') ∧ pq_items q' = [].
Proof. apply pq_pop_push_empty, pq_new_items. Qed.
End queue_facts.

(** ** The main loop *)

Section search_correct.
Context `{PQ : PriorityQueue}.
Context (g : Graph) (s t : string).
Hypothesis Hclosed : graph_closed g.
Hypothesis Hnonneg : graph_nonneg g.

Lemma inv_dist_nonneg L st v d :
  inv g s L st → distances st !! v = Some (Fin d) → 0 ≤ d.
Proof.
  intros Hinv Hv. destruct (inv_sound _ _ _ _ Hinv _ _ Hv) as (p & Hp & <-).
  by eapply walk_weight_nonneg.
Qed.

(** A walk of weight [W] from the source ends at a node whose tentative
    distance is at most [W], unless something at most [W] is queued. *)
Lemma walk_covered L st p v :
  inv g s L st → relaxed g [] "" st → walk g s p v →
  (∃ dv, distances st !! v = Some (Fin dv) ∧ dv ≤ path_weight p) ∨
  (∃ y dy, y ∈ pq_items (pq st) ∧ QueueNode.distance y = Fin dy ∧
     dy ≤ path_weight p).
Proof.
  intros Hinv Hrel. revert v.
  induction p as [|e p IH] using rev_ind; intros v Hwalk.
  - simpl in Hwalk. subst v. left. exists 0. split; [|done].
    apply (inv_src _ _ _ _ Hinv).
  - apply walk_snoc_inv in Hwalk as (x & Hp & He & <-).
    rewrite path_weight_snoc.
    apply elem_of_getRoutes in He as (routes & Hx & He).
    pose proof (graph_nonneg_lookup _ _ _ _ Hnonneg Hx He) as Hw.
    destruct (IH _ Hp) as [(dx & Hdx & Hle)|(y & dy & Hy & Hdy & Hle)].
    + destruct (Hrel _ _ _ _ Hx He Hdx)
        as [(dy & Hdy & Hle')|[Hq|[_ []%elem_of_nil]]].
      * left. exists dy. split; [done|lia].
      * right. eexists _, dx. split; [exact Hq|]. simpl. split; [done|lia].
    + right. exists y, dy. repeat split; [done..|lia].
Qed.

Lemma relax_scanning u d L e pend st :
  scanning g s u d L (e :: pend) st → e ∈ getRoutes g u →
  scanning g s u d L pend (relax (QueueNode.mk u (Fin d)) st e).
Proof.
  intros [Hinv Hrel Hcur Hin Hbelow] He.
  apply elem_of_getRoutes in He as (routes & Hu & He).
  pose proof (graph_nonneg_lookup _ _ _ _ Hnonneg Hu He) as Hw.
  pose proof (graph_closed_lookup _ _ _ _ Hclosed Hu He) as Hv.
  pose proof (inv_dist_nonneg _ _ _ _ Hinv Hcur) as Hd0.
  apply (inv_dom _ _ _ _ Hinv) in Hv as Hdv. destruct Hdv as [dv Hdv].
  destruct e as [v w]. simpl in *.
  unfold relax, dist_at. cbn -[dist_ltb]. rewrite Hdv. cbn -[dist_ltb].
  destruct (dist_ltb (Fin (d + w)) dv) eqn:Hlt.
  - assert (Hlt' : ∀ dv', dv = Fin dv' → d + w < dv').
    { intros dv' ->. by apply dist_ltb_lt in Hlt. }
    assert (HvL : v ∉ L).
    { intros HvL. destruct (Hbelow _ HvL) as (dx & Hdx & Hle).
      rewrite Hdv in Hdx. injection Hdx as Hdx.
      specialize (Hlt' _ Hdx). lia. }
    assert (Hvu : v ≠ u) by (by intros ->).
    assert (Hvs : v ≠ s).
    { intros ->. rewrite (inv_src _ _ _ _ Hinv) in Hdv. injection Hdv as Hdv.
      symmetry in Hdv. specialize (Hlt' _ Hdv). lia. }
    assert (Hfresh : QueueNode.mk v (Fin (d + w)) ∉ pq_items (pq st)).
    { intros Hq. destruct (inv_queue _ _ _ _ Hinv _ Hq) as (a & a' & Ha & Ha' & Hle).
      simpl in *. injection Ha as <-. rewrite Hdv in Ha'.
      injection Ha' as Ha'. specialize (Hlt' _ Ha'). lia. }
    split; [split|..]; simpl.
    + intros k. rewrite <-(inv_dom _ _ _ _ Hinv).
      destruct (decide (v = k)) as [<-|];
        [rewrite lookup_insert_eq, Hdv; by split; eauto
        |by rewrite lookup_insert_ne].
    + rewrite lookup_insert_ne by done. apply (inv_src _ _ _ _ Hinv).
    + intros x dx. destruct (decide (v = x)) as [<-|].
      * rewrite lookup_insert_eq. intros [= <-].
        destruct (inv_sound _ _ _ _ Hinv _ _ Hcur) as (p & Hp & <-).
        exists (p ++ [mkEdge v w]). split.
        -- apply (walk_snoc _ _ _ _ (mkEdge v w) Hp).
           apply elem_of_getRoutes. eauto.
        -- by rewrite path_weight_snoc.
      * rewrite lookup_insert_ne by done. apply (inv_sound _ _ _ _ Hinv).
    + intros x [->|Hx]%elem_of_pq_push.
      * simpl. rewrite lookup_insert_eq. exists (d + w), (d + w).
        repeat split; [done..|lia].
      * destruct (inv_queue _ _ _ _ Hinv _ Hx) as (a & a' & Ha & Ha' & Hle).
        destruct (decide (v = QueueNode.airportId x)) as [Heq|].
        -- rewrite <-Heq in *. rewrite lookup_insert_eq.
           rewrite Hdv in Ha'. injection Ha' as Ha'.
           specialize (Hlt' _ Ha'). exists a, (d + w).
           repeat split; [done..|lia].
        -- rewrite lookup_insert_ne by done. eauto.
    + apply NoDup_pq_push; [done|]. apply (inv_nodup _ _ _ _ Hinv).
    + intros x Hx. assert (v ≠ x) by (by intros <-).
      rewrite lookup_insert_ne by done.
      destruct (inv_settled _ _ _ _ Hinv _ Hx) as (dx & Hdx & Hmin).
      exists dx. split; [done|].
      intros y dy [->|Hy]%elem_of_pq_push Hdy; [|by eapply Hmin].
      simpl in Hdy. injection Hdy as <-.
      destruct (Hbelow _ Hx) as (dx' & Hdx' & Hle). simplify_eq. lia.
    + intros y dy dx [->|Hy]%elem_of_pq_push HyL; [done|].
      assert (v ≠ QueueNode.airportId y) by (intros Heq; by rewrite <-Heq in HyL).
      rewrite lookup_insert_ne by done. by apply (inv_stale _ _ _ _ Hinv).
    + intros k. rewrite <-(inv_prev_dom _ _ _ _ Hinv).
      destruct (decide (v = k)) as [<-|];
        [|by rewrite lookup_insert_ne].
      rewrite lookup_insert_eq. split; [intros _|by eauto].
      by apply (inv_prev_dom _ _ _ _ Hinv).
    + intros x z. destruct (decide (v = x)) as [<-|].
      * rewrite lookup_insert_eq. intros [= <-] _. split; [done|].
        intros l1 l2 ->. destruct HvL. set_solver.
      * rewrite lookup_insert_ne by done. apply (inv_prev _ _ _ _ Hinv).
    + intros x. destruct (decide (v = x)) as [<-|].
      * by rewrite lookup_insert_eq.
      * rewrite !lookup_insert_ne by done. apply (inv_prev_inf _ _ _ _ Hinv).
    + apply (inv_L_nodup _ _ _ _ Hinv).
    + intros x. destruct (decide (v = x)) as [<-|].
      * by rewrite lookup_insert_eq.
      * rewrite lookup_insert_ne by done. apply (inv_above _ _ _ _ Hinv).
    + intros x routes' e' dx Hx He'. simpl.
      destruct (decide (v = x)) as [<-|Hvx].
      * rewrite lookup_insert_eq. intros [= <-]. right. left.
        apply elem_of_pq_push. by left.
      * rewrite lookup_insert_ne by done. intros Hdx.
        destruct (Hrel _ _ _ _ Hx He' Hdx)
          as [(dy & Hdy & Hle)|[Hq|[-> [->|Hpend]%elem_of_cons]]].
        -- left. destruct (decide (v = destination e')) as [Heq|].
           ++ rewrite <-Heq in *. rewrite lookup_insert_eq.
              rewrite Hdv in Hdy. injection Hdy as Hdy.
              specialize (Hlt' _ Hdy). exists (d + w). split; [done|lia].
           ++ rewrite lookup_insert_ne by done. eauto.
        -- right. left. apply elem_of_pq_push. by right.
        -- left. simpl. rewrite lookup_insert_eq. exists (d + w).
           split; [done|]. simplify_eq. lia.
        -- right. right. done.
    + by rewrite lookup_insert_ne.
    + done.
    + intros x Hx. assert (v ≠ x) by (by intros <-).
      rewrite lookup_insert_ne by done. auto.
  - apply dist_ltb_false_le in Hlt.
    destruct dv as [dv| |];
      [|by apply dist_le_inf_l in Hlt|by destruct (inv_above _ _ _ _ Hinv v)].
    apply dist_le_fin in Hlt.
    unfold dist_touch, dist_at. rewrite Hdv. simpl.
    rewrite insert_id by done.
    replace (mkState (pq st) (distances st) (previous st)) with st
      by (by destruct st).
    split; [done| |done..].
    intros x routes' e' dx Hx He' Hdx.
    destruct (Hrel _ _ _ _ Hx He' Hdx)
      as [?|[?|[-> [->|Hpend]%elem_of_cons]]]; [by left|by right; left|..].
    + left. simpl. exists dv. split; [done|]. simplify_eq. lia.
    + right. right. done.
Qed.

Lemma relax_fold_scanning u d L pend st :
  scanning g s u d L pend st → (∀ e, e ∈ pend → e ∈ getRoutes g u) →
  scanning g s u d L [] (foldl (relax (QueueNode.mk u (Fin d))) st pend).
Proof.
  revert st. induction pend as [|e pend IH]; intros st Hsc Hpend; [done|].
  simpl. apply IH.
  - apply relax_scanning; [done|]. apply Hpend. by left.
  - intros e' He'. apply Hpend. by right.
Qed.

Lemma relax_fold_length cur pend st :
  (length (pq_items (pq (foldl (relax cur) st pend)))
     ≤ length (pq_items (pq st)) + length pend)%nat.
Proof.
  revert st. induction pend as [|e pend IH]; intros st; simpl; [lia|].
  etrans; [apply IH|]. unfold relax.
  destruct (dist_ltb _ _); simpl; [rewrite length_pq_push|]; lia.
Qed.

Lemma inv_pop L st x rest :
  inv g s L st → pq_pop (pq st) = Some (x, rest) →
  inv g s L (mkState rest (distances st) (previous st)).
Proof.
  intros Hinv Hpop.
  assert (Hsub : ∀ y, y ∈ pq_items rest → y ∈ pq_items (pq st))
    by (intros y Hy; apply (elem_of_pq_pop _ _ _ y Hpop); by right).
  split; simpl.
  - apply (inv_dom _ _ _ _ Hinv).
  - apply (inv_src _ _ _ _ Hinv).
  - apply (inv_sound _ _ _ _ Hinv).
  - intros y Hy. apply (inv_queue _ _ _ _ Hinv). auto.
  - eapply NoDup_pq_pop; [exact Hpop|]. apply (inv_nodup _ _ _ _ Hinv).
  - intros y Hy. destruct (inv_settled _ _ _ _ Hinv _ Hy) as (dy & ? & Hmin).
    exists dy. split; [done|]. intros z dz Hz. apply Hmin. auto.
  - intros y dy dx Hy. apply (inv_stale _ _ _ _ Hinv). auto.
  - apply (inv_prev_dom _ _ _ _ Hinv).
  - apply (inv_prev _ _ _ _ Hinv).
  - apply (inv_prev_inf _ _ _ _ Hinv).
  - apply (inv_L_nodup _ _ _ _ Hinv).
  - apply (inv_above _ _ _ _ Hinv).
Qed.

Lemma relaxed_pop_stale L st u d d' rest :
  inv g s L st → relaxed g [] "" st →
  pq_pop (pq st) = Some (QueueNode.mk u (Fin d), rest) →
  distances st !! u = Some (Fin d') → d' < d →
  relaxed g [] "" (mkState rest (distances st) (previous st)).
Proof.
  intros Hinv Hrel Hpop Hu Hlt x routes e dx Hx He Hdx. simpl in *.
  destruct (Hrel _ _ _ _ Hx He Hdx) as [?|[Hq|[_ []%elem_of_nil]]];
    [by left|].
  right. left. apply (elem_of_pq_pop _ _ _ _ Hpop) in Hq as [Heq|?]; [|done].
  simplify_eq. lia.
Qed.

Lemma scanning_start L st u d rest :
  inv g s L st → relaxed g [] "" st →
  pq_pop (pq st) = Some (QueueNode.mk u (Fin d), rest) →
  distances st !! u = Some (Fin d) →
  u ∉ L ∧
  scanning g s u d (u :: L) (getRoutes g u)
    (mkState rest (distances st) (previous st)).
Proof.
  intros Hinv Hrel Hpop Hu.
  assert (Hhead : QueueNode.mk u (Fin d) ∈ pq_items (pq st))
    by (apply (elem_of_pq_pop _ _ _ _ Hpop); by left).
  assert (HuL : u ∉ L).
  { intros HuL.
    pose proof (inv_stale _ _ _ _ Hinv _ d d Hhead HuL eq_refl Hu). lia. }
  pose proof (inv_pop _ _ _ _ Hinv Hpop) as Hinv'.
  destruct (NoDup_pq_pop _ _ _ Hpop (inv_nodup _ _ _ _ Hinv)) as [Hnotin _].
  split; [done|]. split; [split|..]; simpl.
  - apply (inv_dom _ _ _ _ Hinv).
  - apply (inv_src _ _ _ _ Hinv).
  - apply (inv_sound _ _ _ _ Hinv).
  - apply (inv_queue _ _ _ _ Hinv').
  - apply (inv_nodup _ _ _ _ Hinv').
  - intros x [->|Hx]%elem_of_cons; [|by apply (inv_settled _ _ _ _ Hinv')].
    exists d. split; [done|]. intros y dy Hy Hdy.
    eapply (pq_pop_least _ _ _ y); [exact Hpop| |done..].
    apply (elem_of_pq_pop _ _ _ _ Hpop). by right.
  - intros y dy dx Hy [Heq|HyL]%elem_of_cons Hdy Hdx;
      [|by eapply (inv_stale _ _ _ _ Hinv')].
    destruct (inv_queue _ _ _ _ Hinv' _ Hy) as (a & a' & Ha & Ha' & Hle).
    simpl in *. rewrite Hdx in Ha'. rewrite Hdy in Ha.
    rewrite Heq, Hu in Hdx. simplify_eq.
    assert (a ≠ a'); [|lia]. intros ->. apply Hnotin.
    by destruct y; simpl in *; subst.
  - apply (inv_prev_dom _ _ _ _ Hinv).
  - intros v z Hv Hz. destruct (inv_prev _ _ _ _ Hinv _ _ Hv Hz) as [HzL Hord].
    split; [by right|]. intros [|y l1] l2 Heq; simplify_eq/=; [done|].
    by eapply Hord.
  - apply (inv_prev_inf _ _ _ _ Hinv).
  - constructor; [done|]. apply (inv_L_nodup _ _ _ _ Hinv).
  - apply (inv_above _ _ _ _ Hinv).
  - intros x routes e dx Hx He Hdx. simpl in *.
    destruct (Hrel _ _ _ _ Hx He Hdx) as [?|[Hq|[_ []%elem_of_nil]]];
      [by left|].
    apply (elem_of_pq_pop _ _ _ _ Hpop) in Hq as [Heq|?];
      [|by right; left].
    right. right. simplify_eq. split; [done|].
    apply elem_of_getRoutes. eauto.
  - done.
  - by left.
  - intros x [->|Hx]%elem_of_cons; [exists d; split; [done|lia]|].
    destruct (inv_settled _ _ _ _ Hinv _ Hx) as (dx & Hdx & Hmin).
    exists dx. split; [done|]. by eapply Hmin.
Qed.

Lemma scanning_done u d L st :
  scanning g s u d L [] st → inv g s L st ∧ relaxed g [] "" st.
Proof.
  intros [Hinv Hrel _ _ _]. split; [done|].
  intros x routes e dx Hx He Hdx.
  destruct (Hrel _ _ _ _ Hx He Hdx) as [?|[?|[_ []%elem_of_nil]]]; auto.
Qed.

Lemma measure_settle L u routes :
  u ∉ L → g !! u = Some routes →
  total_edges (foldr delete g L) =
    (length routes + total_edges (foldr delete g (u :: L)))%nat.
Proof.
  intros HuL Hu. simpl. apply total_edges_delete.
  by rewrite lookup_foldr_delete.
Qed.

Lemma dijkstra_loop_ok fuel L st :
  inv g s L st → relaxed g [] "" st → t ∉ L →
  (measure g L st < fuel)%nat →
  ∃ L' st', dijkstra_loop fuel g t st = Some st' ∧ inv g s L' st' ∧
    target_final g s t st' ∧ t ∉ L'.
Proof.
  revert L st.
  induction fuel as [|fuel IH]; intros L st Hinv Hrel HtL Hfuel; [lia|].
  simpl. destruct (pq_pop (pq st)) as [[[u du] rest]|] eqn:Hpop.
  - assert (Hhead : QueueNode.mk u du ∈ pq_items (pq st))
      by (apply (elem_of_pq_pop _ _ _ _ Hpop); by left).
    destruct (inv_queue _ _ _ _ Hinv _ Hhead) as (d & d' & Hd & Hu & Hle).
    simpl in Hd, Hu. subst du. simpl.
    pose proof (length_pq_pop _ _ _ Hpop) as Hlen.
    case_decide as Hut.
    + exists L, (mkState rest (distances st) (previous st)).
      split; [done|]. split; [by eapply inv_pop|]. split; [|done].
      intros p Hp. subst u. simpl.
      destruct (walk_covered _ _ _ _ Hinv Hrel Hp)
        as [?|(y & dy & Hy & Hdy & Hley)]; [done|].
      exists d'. split; [done|].
      pose proof (pq_pop_least _ _ _ _ _ _ Hpop Hy eq_refl Hdy). lia.
    + unfold dist_touch, dist_at. rewrite Hu. cbn -[dist_ltb].
      rewrite insert_id by done.
      destruct (dist_ltb (Fin d') (Fin d)) eqn:Hlt.
      * apply dist_ltb_lt in Hlt. apply (IH L).
        -- by eapply inv_pop.
        -- by eapply relaxed_pop_stale.
        -- done.
        -- unfold measure in *. simpl. lia.
      * apply dist_ltb_false_le, dist_le_fin in Hlt.
        assert (d' = d) as -> by lia.
        destruct (scanning_start _ _ _ _ _ Hinv Hrel Hpop Hu)
          as [HuL Hsc].
        apply relax_fold_scanning in Hsc; [|done].
        apply scanning_done in Hsc as [Hinv' Hrel'].
        apply (IH (u :: L)); [done..|by apply not_elem_of_cons|].
        assert (is_Some (g !! u)) as [routes Hroutes]
          by (apply (inv_dom _ _ _ _ Hinv); eauto).
        unfold measure in *.
        rewrite (measure_settle _ _ _ HuL Hroutes) in Hfuel.
        pose proof (relax_fold_length (QueueNode.mk u (Fin d))
          (getRoutes g u)
          (mkState rest (distances st) (previous st))) as Hpush.
        rewrite (getRoutes_Some _ _ _ Hroutes) in *. simpl in Hpush.
        lia.
  - exists L, st. split; [done|]. split; [done|]. split; [|done].
    apply pq_pop_None in Hpop. intros p Hp.
    destruct (walk_covered _ _ _ _ Hinv Hrel Hp)
      as [?|(y & dy & Hy & _)]; [done|].
    rewrite Hpop in Hy. by apply elem_of_nil in Hy.
Qed.

(** The state before the first iteration. *)
Lemma init_state_inv :
  is_Some (g !! s) → inv g s [] (init_state g s) ∧ relaxed g [] "" (init_state g s).
Proof.
  intros Hs.
  assert (Hq : pq_items (pq_push (QueueNode.mk s (Fin 0)) pq_new)
               = [QueueNode.mk s (Fin 0)]).
  { apply Permutation_singleton_r. rewrite pq_push_items.
    by rewrite pq_new_items. }
  assert (Hfin : ∀ v d,
    (<[s:=Fin 0]> ((λ _, Inf) <$> g) : gmap string dist) !! v
      = Some (Fin d) → v = s ∧ d = 0).
  { intros v d. destruct (decide (s = v)) as [<-|].
    - rewrite lookup_insert_eq. by intros [= <-].
    - rewrite lookup_insert_ne, lookup_fmap by done.
      by destruct (g !! v). }
  split; [split|]; unfold init_state; simpl; rewrite ?Hq.
  - intros k. destruct (decide (s = k)) as [<-|].
    + rewrite lookup_insert_eq. by split; eauto.
    + rewrite lookup_insert_ne, lookup_fmap by done.
      by rewrite fmap_is_Some.
  - by rewrite lookup_insert_eq.
  - intros v d [-> ->]%Hfin. by exists [].
  - intros x ->%list_elem_of_singleton. simpl.
    rewrite lookup_insert_eq. by exists 0, 0.
  - apply NoDup_singleton.
  - by intros x ?%elem_of_nil.
  - by intros y dy dx _ ?%elem_of_nil.
  - intros k. by rewrite lookup_fmap, fmap_is_Some.
  - intros v u. rewrite lookup_fmap. by destruct (g !! v); intros [= <-].
  - intros v. destruct (decide (s = v)) as [<-|].
    + by rewrite lookup_insert_eq.
    + rewrite lookup_insert_ne, !lookup_fmap by done.
      by destruct (g !! v).
  - constructor.
  - intros v. destruct (decide (s = v)) as [<-|].
    + by rewrite lookup_insert_eq.
    + rewrite lookup_insert_ne, lookup_fmap by done. by destruct (g !! v).
  - intros x routes e dx _ _ [-> ->]%Hfin. right. left. simpl.
    rewrite Hq. by apply list_elem_of_singleton.
Qed.

(** *** The reconstruction loop *)

Lemma reconstruct_stop fuel (P : gmap string string) acc :
  reconstruct (S fuel) P "" acc = Some acc.
Proof. cbn [reconstruct]. case_decide as H; [by destruct H|done]. Qed.

Lemma reconstruct_settled L st fuel :
  inv g s L st → ∀ l1 curr l2 acc,
  L = l1 ++ curr :: l2 → (length l2 + 2 ≤ fuel)%nat →
  is_Some (reconstruct fuel (previous st) curr acc).
Proof.
  intros Hinv. induction fuel as [|fuel IH]; intros l1 curr l2 acc HL Hfuel;
    [lia|].
  cbn [reconstruct]. case_decide as Hcurr; [|done].
  destruct Hcurr as [_ [z Hz]]. unfold prev_at. rewrite Hz. cbn [default].
  destruct (decide (z = "")) as [->|Hne].
  - destruct fuel as [|fuel]; [lia|]. by rewrite reconstruct_stop.
  - destruct (inv_prev _ _ _ _ Hinv _ _ Hz Hne) as [_ Hord].
    specialize (Hord _ _ HL).
    apply list_elem_of_split in Hord as (l3 & l4 & ->).
    apply (IH (l1 ++ curr :: l3) z l4).
    + by rewrite HL, <-(assoc_L (++)).
    + rewrite length_app in Hfuel. simpl in Hfuel. lia.
Qed.

Lemma reconstruct_ok L st fuel curr acc :
  inv g s L st → (length L + 2 ≤ fuel)%nat →
  is_Some (reconstruct fuel (previous st) curr acc).
Proof.
  intros Hinv Hfuel. destruct fuel as [|fuel]; [lia|].
  cbn [reconstruct]. case_decide as Hcurr; [|done].
  destruct Hcurr as [_ [z Hz]]. unfold prev_at. rewrite Hz. cbn [default].
  destruct (decide (z = "")) as [->|Hne].
  - destruct fuel as [|fuel]; [lia|]. by rewrite reconstruct_stop.
  - destruct (inv_prev _ _ _ _ Hinv _ _ Hz Hne) as [HzL _].
    apply list_elem_of_split in HzL as (l1 & l2 & HL).
    eapply reconstruct_settled; [done..|].
    rewrite HL, length_app in Hfuel. simpl in Hfuel. lia.
Qed.

Lemma settled_length L st :
  inv g s L st → is_Some (g !! t) → t ∉ L → (S (length L) ≤ size g)%nat.
Proof.
  intros Hinv Ht HtL.
  change (S (length L)) with (length (t :: L)).
  rewrite <-(size_list_to_set (C:=gset string) (t :: L))
    by (constructor; [done|apply (inv_L_nodup _ _ _ _ Hinv)]).
  rewrite <-(size_dom (D:=gset string) g). apply subseteq_size.
  intros x Hx%elem_of_list_to_set. apply elem_of_dom.
  apply elem_of_cons in Hx as [->|Hx]; [done|].
  destruct (inv_settled _ _ _ _ Hinv _ Hx) as (dx & Hdx & _).
  apply (inv_dom _ _ _ _ Hinv). eauto.
Qed.

(** The reconstructed path is no longer than the chain of scanned nodes
    it walks down. *)
Lemma reconstruct_settled_length L st fuel :
  inv g s L st → ∀ l1 curr l2 acc r,
  L = l1 ++ curr :: l2 →
  reconstruct fuel (previous st) curr acc = Some r →
  (length r ≤ length acc + S (length l2))%nat.
Proof.
  intros Hinv.
  induction fuel as [|fuel IH]; intros l1 curr l2 acc r HL Hrun; [done|].
  cbn [reconstruct] in Hrun. case_decide as Hcurr;
    [|injection Hrun as <-; lia].
  destruct Hcurr as [_ [z Hz]]. unfold prev_at in Hrun. rewrite Hz in Hrun.
  cbn [default] in Hrun.
  destruct (decide (z = "")) as [->|Hne].
  - destruct fuel as [|fuel]; [done|]. rewrite reconstruct_stop in Hrun.
    injection Hrun as <-. simpl. lia.
  - destruct (inv_prev _ _ _ _ Hinv _ _ Hz Hne) as [_ Hord].
    specialize (Hord _ _ HL).
    apply list_elem_of_split in Hord as (l3 & l4 & ->).
    specialize (IH (l1 ++ curr :: l3) z l4 (curr :: acc) r).
    rewrite HL, <-(assoc_L (++)) in IH. specialize (IH eq_refl Hrun).
    rewrite length_app. simpl in *. lia.
Qed.

Lemma reconstruct_length L st fuel curr r :
  inv g s L st →
  reconstruct fuel (previous st) curr [] = Some r →
  (length r ≤ S (length L))%nat.
Proof.
  intros Hinv Hrun. destruct fuel as [|fuel]; [done|].
  cbn [reconstruct] in Hrun. case_decide as Hcurr;
    [|injection Hrun as <-; simpl; lia].
  destruct Hcurr as [_ [z Hz]]. unfold prev_at in Hrun. rewrite Hz in Hrun.
  cbn [default] in Hrun.
  destruct (decide (z = "")) as [->|Hne].
  - destruct fuel as [|fuel]; [done|]. rewrite reconstruct_stop in Hrun.
    injection Hrun as <-. simpl. lia.
  - destruct (inv_prev _ _ _ _ Hinv _ _ Hz Hne) as [HzL _].
    apply list_elem_of_split in HzL as (l1 & l2 & HL).
    pose proof (reconstruct_settled_length _ _ _ Hinv _ _ _ _ _ HL Hrun)
      as Hlen.
    rewrite HL, length_app. simpl in *. lia.
Qed.

(** *** Both loops together *)

Lemma findShortestPath_run fuel :
  is_Some (g !! s) → is_Some (g !! t) → (fuel_bound g ≤ fuel)%nat →
  ∃ L st p,
    inv g s L st ∧ target_final g s t st ∧
    dijkstra_loop fuel g t (init_state g s) = Some st ∧
    reconstruct fuel (previous st) t [] = Some p ∧
    (length p ≤ size g)%nat ∧
    findShortestPath fuel g s t =
      Some (mkPathResult p (default (Fin 0) (distances st !! t))).
Proof.
  intros Hs Ht Hfuel. unfold fuel_bound in Hfuel.
  destruct (init_state_inv Hs) as [Hinv0 Hrel0].
  destruct (dijkstra_loop_ok fuel [] (init_state g s) Hinv0 Hrel0)
    as (L & st & Hloop & Hinv & Hfinal & HtL).
  { apply not_elem_of_nil. }
  { unfold measure, init_state. simpl. rewrite length_pq_push, pq_new_items.
    simpl. lia. }
  pose proof (settled_length _ _ Hinv Ht HtL) as HL.
  destruct (reconstruct_ok L st fuel t [] Hinv) as [p Hp]; [lia|].
  pose proof (reconstruct_length _ _ _ _ _ Hinv Hp) as Hlen.
  exists L, st, p. do 4 (split; [done|]). split; [lia|].
  unfold findShortestPath.
  apply hasAirport_true in Hs as ->. apply hasAirport_true in Ht as ->.
  simpl. rewrite Hloop. simpl. rewrite Hp. simpl.
  by destruct (distances st !! t).
Qed.
End search_correct.

(** ** A larger step budget changes nothing *)

Section budget.
Context `{PQ : PriorityQueue}.

Lemma dijkstra_loop_mono n m g t st st' :
  dijkstra_loop n g t st = Some st' → (n ≤ m)%nat →
  dijkstra_loop m g t st = Some st'.
Proof.
  revert m st. induction n as [|n IH]; intros m st Hrun Hle; [done|].
  destruct m as [|m]; [lia|]. simpl in *.
  destruct (pq_pop (pq st)) as [[cur rest]|]; [|done].
  case_decide; [done|].
  destruct (dist_ltb _ _); apply IH; (done || lia).
Qed.

Lemma reconstruct_mono n m (P : gmap string string) curr acc r :
  reconstruct n P curr acc = Some r → (n ≤ m)%nat →
  reconstruct m P curr acc = Some r.
Proof.
  revert m curr acc. induction n as [|n IH]; intros m curr acc Hrun Hle;
    [done|].
  destruct m as [|m]; [lia|]. cbn [reconstruct] in *.
  case_decide; [|done]. apply IH; [done|lia].
Qed.

Lemma findShortestPath_mono n m g s t r :
  findShortestPath n g s t = Some r → (n ≤ m)%nat →
  findShortestPath m g s t = Some r.
Proof.
  unfold findShortestPath. destruct (_ || _); [done|].
  destruct (dijkstra_loop n g t _) as [st|] eqn:Hloop; [|done].
  simpl. destruct (reconstruct n _ _ _) as [p|] eqn:Hrec; [|done].
  simpl. intros [= <-] Hle.
  rewrite (dijkstra_loop_mono _ _ _ _ _ _ Hloop Hle). simpl.
  by rewrite (reconstruct_mono _ _ _ _ _ _ Hrec Hle).
Qed.
(** Two budgets that both suffice give the same result. *)
Lemma findShortestPath_deterministic n m g s t r r' :
  findShortestPath n g s t = Some r → findShortestPath m g s t = Some r' →
  r = r'.
Proof.
  intros Hn Hm.
  apply (findShortestPath_mono _ (n `max` m)%nat) in Hn; [|lia].
  apply (findShortestPath_mono _ (n `max` m)%nat) in Hm; [|lia].
  congruence.
Qed.
End budget.

(** ** What [findShortestPath] returns *)

Section results.
Context `{PQ : PriorityQueue}.

Lemma search_missing fuel (g : Graph) s t :
  g !! s = None ∨ g !! t = None →
  findShortestPath fuel g s t = Some empty_result.
Proof.
  intros Hmiss. unfold findShortestPath.
  destruct Hmiss as [H|H]; apply hasAirport_false in H; rewrite H;
    [done|]. by rewrite orb_true_r.
Qed.

Lemma search_shortest fuel (g : Graph) s t :
  graph_closed g → graph_nonneg g →
  is_Some (g !! s) → is_Some (g !! t) →
  (∃ p, walk g s p t) → (fuel_bound g ≤ fuel)%nat →
  ∃ r d, findShortestPath fuel g s t = Some r ∧
    totalDistance r = Fin d ∧ min_weight g s t d.
Proof.
  intros Hc Hnn Hs Ht [p0 Hp0] Hfuel.
  destruct (findShortestPath_run g s t Hc Hnn fuel Hs Ht Hfuel)
    as (L & st & p & Hinv & Hfinal & _ & _ & _ & Hres).
  destruct (Hfinal _ Hp0) as (d & Hd & _).
  eexists _, d. split; [exact Hres|]. simpl. rewrite Hd. split; [done|].
  split.
  - apply (inv_sound _ _ _ _ Hinv _ _ Hd).
  - intros p' Hp'. destruct (Hfinal _ Hp') as (d' & Hd' & Hle).
    rewrite Hd in Hd'. injection Hd' as <-. done.
Qed.

Lemma search_unreachable fuel (g : Graph) s t :
  graph_closed g → graph_nonneg g →
  is_Some (g !! s) → is_Some (g !! t) →
  (∀ p, ¬ walk g s p t) → (fuel_bound g ≤ fuel)%nat →
  findShortestPath fuel g s t =
    Some (mkPathResult (if decide (t = "") then [] else [t]) Inf).
Proof.
  intros Hc Hnn Hs Ht Hnone Hfuel.
  destruct (findShortestPath_run g s t Hc Hnn fuel Hs Ht Hfuel)
    as (L & st & p & Hinv & _ & _ & Hrec & _ & ->).
  assert (Hdt : distances st !! t = Some Inf).
  { apply (inv_dom _ _ _ _ Hinv) in Ht as [[d| |] Hd];
      [|done|by destruct (inv_above _ _ _ _ Hinv t)].
    destruct (inv_sound _ _ _ _ Hinv _ _ Hd) as (p' & Hp' & _).
    by destruct (Hnone p'). }
  pose proof (inv_prev_inf _ _ _ _ Hinv _ Hdt) as Hprev.
  rewrite Hdt. simpl. do 2 f_equal.
  unfold fuel_bound in Hfuel.
  destruct fuel as [|[|fuel]]; [lia..|].
  cbn [reconstruct] in Hrec. unfold prev_at in Hrec. rewrite Hprev in Hrec.
  simpl in Hrec. repeat case_decide; naive_solver.
Qed.

Lemma search_self fuel (g : Graph) s :
  is_Some (g !! s) → (2 ≤ fuel)%nat →
  findShortestPath fuel g s s =
    Some (mkPathResult (if decide (s = "") then [] else [s]) (Fin 0)).
Proof.
  intros Hs Hfuel. unfold findShortestPath.
  apply hasAirport_true in Hs as Hhas. rewrite Hhas. simpl.
  destruct fuel as [|[|fuel]]; [lia..|].
  unfold init_state. cbn [dijkstra_loop pq].
  destruct (pq_pop_singleton (QueueNode.mk s (Fin 0)))
    as (rest & -> & _).
  cbn -[reconstruct]. rewrite decide_True by done.
  cbn -[reconstruct]. rewrite lookup_insert_eq.
  cbn [reconstruct]. unfold prev_at. rewrite lookup_fmap.
  destruct Hs as [routes ->]. simpl.
  destruct (decide (s = "")) as [->|Hne].
  - by rewrite decide_False by (by intros [? _]).
  - by rewrite decide_True by (split; [done|by eexists]).
Qed.

End results.

(** ** Runs in which the queue never holds two items *)

Section single_item_runs.
Context `{PQ : PriorityQueue}.

Lemma relax_push cur q D P e :
  dist_ltb (dist_add (QueueNode.distance cur) (distance e))
    (dist_at D (destination e)) = true →
  relax cur (mkState q D P) e =
    mkState
      (pq_push (QueueNode.mk (destination e)
                  (dist_add (QueueNode.distance cur) (distance e))) q)
      (<[destination e := dist_add (QueueNode.distance cur) (distance e)]> D)
      (<[destination e := QueueNode.airportId cur]> P).
Proof. unfold relax. cbn -[dist_ltb]. by intros ->. Qed.

Lemma relax_skip cur q D P e :
  dist_ltb (dist_add (QueueNode.distance cur) (distance e))
    (dist_at D (destination e)) = false →
  relax cur (mkState q D P) e = mkState q (dist_touch D (destination e)) P.
Proof. unfold relax. cbn -[dist_ltb]. by intros ->. Qed.

Lemma dijkstra_loop_scan_single n g t x q D P :
  pq_items q = [] → QueueNode.airportId x ≠ t →
  dist_ltb (dist_at D (QueueNode.airportId x)) (QueueNode.distance x) = false →
  ∃ q', pq_items q' = [] ∧
    dijkstra_loop (S n) g t (mkState (pq_push x q) D P) =
    dijkstra_loop n g t
      (foldl (relax x)
         (mkState q' (dist_touch D (QueueNode.airportId x)) P)
         (getRoutes g (QueueNode.airportId x))).
Proof.
  intros Hq Hne Hfresh.
  destruct (pq_pop_push_empty x q Hq) as (q' & Hpop & Hq').
  exists q'. split; [done|]. cbn -[dist_ltb]. rewrite Hpop.
  rewrite decide_False by done. cbn -[dist_ltb]. by rewrite Hfresh.
Qed.

Lemma dijkstra_loop_break_single n g t x q D P :
  pq_items q = [] → QueueNode.airportId x = t →
  ∃ q', dijkstra_loop (S n) g t (mkState (pq_push x q) D P) =
        Some (mkState q' D P).
Proof.
  intros Hq Heq.
  destruct (pq_pop_push_empty x q Hq) as (q' & Hpop & Hq').
  exists q'. cbn -[dist_ltb]. rewrite Hpop. by rewrite decide_True.
Qed.

Lemma sample_JFK_DFW :
  findShortestPath 4 sample_graph "JFK" "DFW" =
    Some (mkPathResult ["JFK"; "ORD"; "DFW"] (Fin 2450)).
Proof.
  unfold findShortestPath.
  replace (hasAirport sample_graph "JFK") with true by (by vm_compute).
  replace (hasAirport sample_graph "DFW") with true by (by vm_compute).
  cbn [negb orb]. unfold init_state.
  destruct (dijkstra_loop_scan_single 3 sample_graph "DFW"
              (QueueNode.mk "JFK" (Fin 0)) pq_new
              (<["JFK" := Fin 0]> ((λ _, Inf) <$> sample_graph))
              ((λ _, "") <$> sample_graph))
    as (q1 & Hq1 & ->); [apply pq_new_items|done|by vm_compute|].
  cbn [QueueNode.airportId QueueNode.distance].
  replace (getRoutes sample_graph "JFK") with [mkEdge "ORD" 800]
    by (by vm_compute).
  cbn [foldl]. rewrite relax_push by (by vm_compute).
  cbn [QueueNode.airportId QueueNode.distance destination distance].
  match goal with
  | |- context [dijkstra_loop 3 _ _ (mkState (pq_push ?x _) ?D ?P)] =>
    destruct (dijkstra_loop_scan_single 2 sample_graph "DFW" x q1 D P)
      as (q2 & Hq2 & ->); [done|done|by vm_compute|]
  end.
  cbn [QueueNode.airportId QueueNode.distance].
  replace (getRoutes sample_graph "ORD")
    with [mkEdge "JFK" 800; mkEdge "DFW" 1650] by (by vm_compute).
  cbn [foldl]. rewrite relax_skip by (by vm_compute).
  rewrite relax_push by (by vm_compute).
  cbn [QueueNode.airportId QueueNode.distance destination distance].
  match goal with
  | |- context [dijkstra_loop 2 _ _ (mkState (pq_push ?x _) ?D ?P)] =>
    destruct (dijkstra_loop_break_single 1 sample_graph "DFW" x q2 D P)
      as (q3 & ->); [done|done|]
  end.
  cbn [mbind option_bind previous distances].
  by vm_compute.
Qed.
End single_item_runs.

(** ** A graph with a single route *)

Lemma addRoute_getRoutes (g : Graph) a b w :
  getRoutes (addRoute g a b w) a =
    getRoutes g a ++ [mkEdge b w]
      ++ (if decide (a = b) then [mkEdge a w] else []) ∧
  getRoutes (addRoute g a b w) b =
    getRoutes g b ++ (if decide (a = b) then [mkEdge b w] else [])
      ++ [mkEdge a w] ∧
  (∀ k, k ≠ a → k ≠ b → addRoute g a b w !! k = g !! k).
Proof.
  split_and!.
  - rewrite !getRoutes_adj_at. unfold adj_at at 1. rewrite addRoute_lookup.
    destruct (decide (a = b)) as [->|]; [by rewrite decide_True|].
    by rewrite decide_False, decide_True by done.
  - rewrite !getRoutes_adj_at. unfold adj_at at 1. rewrite addRoute_lookup.
    by rewrite decide_True.
  - intros k Ha Hb. rewrite addRoute_lookup. by rewrite !decide_False.
Qed.

Lemma single_route_edges (g0 : Graph) a b w k e :
  no_routes g0 → e ∈ getRoutes (addRoute g0 a b w) k →
  (k = a ∧ e = mkEdge b w) ∨ (k = b ∧ e = mkEdge a w).
Proof.
  intros Hno (routes & Hk & He)%elem_of_getRoutes.
  destruct (apply_op_elem g0 (AddRoute a b w) _ _ _ Hk He)
    as [(routes' & Hk' & He')|(a' & b' & w' & Heq & Hcase)].
  - specialize (Hno _ _ Hk'). simpl in Hno. subst routes'.
    by apply elem_of_nil in He'.
  - by simplify_eq.
Qed.

Lemma single_route_closed (g0 : Graph) a b w :
  no_routes g0 → graph_closed (addRoute g0 a b w).
Proof.
  intros Hno k routes Hk. simpl. apply Forall_forall. intros e He.
  apply addRoute_is_Some.
  destruct (single_route_edges g0 a b w k e Hno)
    as [[_ ->]|[_ ->]]; simpl; [|auto..].
  apply elem_of_getRoutes. eauto.
Qed.

Lemma single_route_nonneg (g0 : Graph) a b w :
  no_routes g0 → 0 ≤ w → graph_nonneg (addRoute g0 a b w).
Proof.
  intros Hno Hw k routes Hk. simpl. apply Forall_forall. intros e He.
  destruct (single_route_edges g0 a b w k e Hno)
    as [[_ ->]|[_ ->]]; simpl; [|auto..].
  apply elem_of_getRoutes. eauto.
Qed.

Lemma single_route_min (g0 : Graph) a b w x y :
  no_routes g0 → 0 ≤ w → x ≠ y →
  mkEdge y w ∈ getRoutes (addRoute g0 a b w) x →
  min_weight (addRoute g0 a b w) x y w.
Proof.
  intros Hno Hw Hne Hedge. split.
  - exists [mkEdge y w]. split; [by split|]. unfold path_weight. simpl. lia.
  - intros [|e p]; simpl; [done|]. intros [He Hp].
    pose proof (walk_weight_nonneg _ _ _ _
      (single_route_nonneg g0 a b w Hno Hw) Hp) as Hrest.
    destruct (single_route_edges g0 a b w x e Hno He) as [[_ ->]|[_ ->]];
      unfold path_weight in *; simpl; lia.
Qed.

(** ** Rounded additions *)

Lemma round53_agrees_with_binary64 :
  forallb agrees_with_binary64 binary64_probes = true.
Proof. by vm_compute. Qed.

Lemma nearest53_exact z : Z.abs z ≤ 2 ^ 53 → nearest53 z = z.
Proof.
  intros Hz. unfold nearest53.
  destruct (Z.ltb_spec (Z.abs z) (2 ^ 53)) as [|Hge]; [done|].
  change (2 ^ 53) with 9007199254740992 in Hz, Hge.
  assert (z = 9007199254740992 ∨ z = -9007199254740992) as [->| ->] by lia;
    by vm_compute.
Qed.

Lemma round53_exact frac z : Z.abs z ≤ 2 ^ 53 → round53 frac z = Fin z.
Proof.
  intros Hz. unfold round53. rewrite nearest53_exact by done.
  assert (2 ^ 53 < 2 ^ (1024 + Z.of_nat frac))
    by (apply Z.pow_lt_mono_r; lia).
  destruct (Z.leb_spec (2 ^ (1024 + Z.of_nat frac)) (Z.abs z)); [lia|done].
Qed.

Lemma dist_add64_exact frac x w :
  Z.abs (x + w) ≤ 2 ^ 53 → dist_add64 frac (Fin x) w = dist_add (Fin x) w.
Proof. intros. simpl. by apply round53_exact. Qed.

(** [0.1] and [0.2] are 3602879701896397 and 7205759403792794 units
    [2^-55].  Their sum has 54 digits and rounds up to the even neighbour:
    along the routes A-B of length [0.1] and B-C of length [0.2] the
    search returns 10808639105689192 units, which is
    [0.30000000000000004]. *)
Lemma search64_tenths :
  findShortestPath64 (PQ:=ListPQ) 55 9
    (build [AddRoute "A" "B" 3602879701896397;
            AddRoute "B" "C" 7205759403792794]) "A" "C"
    = Some (mkPathResult ["A"; "B"; "C"] (Fin 10808639105689192)).
Proof. by vm_compute. Qed.

(** ** The weight of the whole graph *)

Lemma total_weight_insert (m : Graph) k routes :
  m !! k = None →
  total_weight (<[k:=routes]> m) = path_weight routes + total_weight m.
Proof.
  intros Hk. unfold total_weight.
  rewrite map_fold_insert_L; [done| |done]. intros. lia.
Qed.

Lemma total_weight_delete (m : Graph) k routes :
  m !! k = Some routes →
  total_weight m = path_weight routes + total_weight (delete k m).
Proof.
  intros Hk. unfold total_weight.
  rewrite (map_fold_delete_L _ _ k routes m); [done| |done].
  intros. lia.
Qed.

Lemma graph_nonneg_delete (m : Graph) k :
  graph_nonneg m → graph_nonneg (delete k m).
Proof. apply map_Forall_delete. Qed.

Lemma total_weight_nonneg (m : Graph) : graph_nonneg m → 0 ≤ total_weight m.
Proof.
  induction m as [|k routes m Hk IH] using map_ind; intros Hnn; [done|].
  rewrite total_weight_insert by done.
  apply map_Forall_insert in Hnn as [Hroutes Hm]; [|done].
  apply path_weight_nonneg in Hroutes. specialize (IH Hm). lia.
Qed.

Lemma path_weight_elem_le routes e :
  Forall (λ e, 0 ≤ distance e) routes → e ∈ routes →
  distance e ≤ path_weight routes.
Proof.
  intros Hall (l1 & l2 & ->)%list_elem_of_split.
  apply Forall_app in Hall as [H1 H2]. apply Forall_cons in H2 as [He H2].
  apply path_weight_nonneg in H1, H2.
  rewrite path_weight_app. change (path_weight (e :: l2))
    with (distance e + path_weight l2). lia.
Qed.

Lemma getRoutes_weight_le (m : Graph) k :
  graph_nonneg m → 0 ≤ path_weight (getRoutes m k) ≤ total_weight m.
Proof.
  intros Hnn. unfold getRoutes. destruct (m !! k) as [routes|] eqn:Hk.
  - rewrite (total_weight_delete m k routes Hk).
    pose proof (total_weight_nonneg _ (graph_nonneg_delete m k Hnn)).
    pose proof (path_weight_nonneg routes (Hnn k routes Hk)). lia.
  - pose proof (total_weight_nonneg m Hnn). by split.
Qed.

Lemma walk_delete (m : Graph) u x p v :
  walk m x p v → u ∉ x :: map destination p → walk (delete u m) x p v.
Proof.
  revert x. induction p as [|e p IH]; intros x; simpl; [done|].
  intros [He Hp] Hu. apply not_elem_of_cons in Hu as [Hux Hu]. split.
  - unfold getRoutes in *. by rewrite lookup_delete_ne.
  - by apply IH.
Qed.

(** A walk that repeats no node, together with all routes stored at its
    end, weighs at most as much as the whole graph. *)
Lemma simple_walk_weight (m : Graph) u p v :
  graph_nonneg m → simple_walk m u p v →
  path_weight p + path_weight (getRoutes m v) ≤ total_weight m.
Proof.
  revert m u. induction p as [|e p IH]; intros m u Hnn [Hp Hnd].
  - pose proof (getRoutes_weight_le m v Hnn). unfold path_weight at 1.
    simpl. lia.
  - destruct Hp as [He Hp]. simpl in Hnd.
    apply NoDup_cons in Hnd as [Hu Hnd].
    apply elem_of_getRoutes in He as (routes & Hroutes & He).
    pose proof (path_weight_elem_le routes e (Hnn u routes Hroutes) He).
    assert (Hvu : v ≠ u).
    { intros ->. apply Hu. clear -Hp. revert Hp. generalize (destination e).
      induction p as [|e' p IH]; simpl; intros x.
      - intros ->. by left.
      - intros [_ Hp]. right. by apply IH. }
    specialize (IH (delete u m) (destination e)
                  (graph_nonneg_delete m u Hnn)).
    rewrite (total_weight_delete m u routes Hroutes).
    change (path_weight (e :: p)) with (distance e + path_weight p).
    assert (getRoutes (delete u m) v = getRoutes m v) as Heq
      by (unfold getRoutes; by rewrite lookup_delete_ne).
    rewrite Heq in IH. cut (path_weight p + path_weight (getRoutes m v)
                            ≤ total_weight (delete u m)); [lia|].
    apply IH. split; [by apply walk_delete|done].
Qed.

(** ** The rounded search on small weights *)

Section search64_exact.
Context `{PQ : PriorityQueue}.
Context (frac : nat) (g : Graph) (s t : string).
Hypothesis Hclosed : graph_closed g.
Hypothesis Hnonneg : graph_nonneg g.
Hypothesis Hsmall : total_weight g ≤ 2 ^ 53.

(** The entry popped from the queue with the current distance of its node
    carries the least weight of any walk to that node. *)
Lemma popped_least L st u d rest p :
  inv g s L st → relaxed g [] "" st →
  pq_pop (pq st) = Some (QueueNode.mk u (Fin d), rest) →
  distances st !! u = Some (Fin d) →
  walk g s p u → d ≤ path_weight p.
Proof.
  intros Hinv Hrel Hpop Hu Hp.
  destruct (walk_covered g s Hnonneg _ _ _ _ Hinv Hrel Hp)
    as [(dv & Hdv & Hle)|(y & dy & Hy & Hdy & Hle)].
  - rewrite Hu in Hdv. injection Hdv as <-. done.
  - pose proof (pq_pop_least _ _ _ _ _ _ Hpop Hy eq_refl Hdy). lia.
Qed.

(** Every sum formed while the routes of a popped node are scanned stays
    within the weight of the graph. *)
Lemma scan_sum_small L st u d rest e :
  inv g s L st → relaxed g [] "" st →
  pq_pop (pq st) = Some (QueueNode.mk u (Fin d), rest) →
  distances st !! u = Some (Fin d) →
  e ∈ getRoutes g u → 0 ≤ d + distance e ≤ total_weight g.
Proof.
  intros Hinv Hrel Hpop Hu He.
  pose proof (inv_dist_nonneg g s Hnonneg _ _ _ _ Hinv Hu) as Hd0.
  pose proof He as (routes & Hroutes & He')%elem_of_getRoutes.
  pose proof (graph_nonneg_lookup _ _ _ _ Hnonneg Hroutes He') as Hw.
  destruct (inv_sound _ _ _ _ Hinv _ _ Hu) as (p & Hp & _).
  destruct (walk_simplify _ _ _ _ Hnonneg Hp) as (q & Hq & _).
  pose proof (popped_least _ _ _ _ _ _ Hinv Hrel Hpop Hu (proj1 Hq)) as Hle.
  pose proof (simple_walk_weight _ _ _ _ Hnonneg Hq) as Hbound.
  rewrite (getRoutes_Some _ _ _ Hroutes) in Hbound.
  pose proof (path_weight_elem_le routes e (Hnonneg u routes Hroutes) He').
  lia.
Qed.

Lemma relax64_exact u d st e :
  Z.abs (d + distance e) ≤ 2 ^ 53 →
  relax64 frac (QueueNode.mk u (Fin d)) st e
    = relax (QueueNode.mk u (Fin d)) st e.
Proof.
  intros Hsum. unfold relax64, relax.
  cbn [QueueNode.distance]. by rewrite dist_add64_exact.
Qed.

Lemma relax64_fold_exact u d pend st :
  (∀ e, e ∈ pend → Z.abs (d + distance e) ≤ 2 ^ 53) →
  foldl (relax64 frac (QueueNode.mk u (Fin d))) st pend
    = foldl (relax (QueueNode.mk u (Fin d))) st pend.
Proof.
  revert st. induction pend as [|e pend IH]; intros st Hpend; [done|].
  simpl. rewrite relax64_exact by (apply Hpend; by left).
  apply IH. intros e' He'. apply Hpend. by right.
Qed.

Lemma dijkstra_loop64_exact fuel L st :
  inv g s L st → relaxed g [] "" st →
  dijkstra_loop64 frac fuel g t st = dijkstra_loop fuel g t st.
Proof.
  revert L st. induction fuel as [|fuel IH]; intros L st Hinv Hrel; [done|].
  simpl. destruct (pq_pop (pq st)) as [[[u du] rest]|] eqn:Hpop; [|done].
  assert (Hhead : QueueNode.mk u du ∈ pq_items (pq st))
    by (apply (elem_of_pq_pop _ _ _ _ Hpop); by left).
  destruct (inv_queue _ _ _ _ Hinv _ Hhead) as (d & d' & Hd & Hu & Hle).
  simpl in Hd, Hu. subst du. simpl.
  case_decide as Hut; [done|].
  unfold dist_touch, dist_at. rewrite Hu. cbn -[dist_ltb].
  rewrite insert_id by done.
  destruct (dist_ltb (Fin d') (Fin d)) eqn:Hlt.
  - apply dist_ltb_lt in Hlt. apply (IH L).
    + by eapply inv_pop.
    + by eapply relaxed_pop_stale.
  - apply dist_ltb_false_le, dist_le_fin in Hlt.
    assert (d' = d) as -> by lia.
    rewrite relax64_fold_exact; cycle 1.
    { intros e He.
      pose proof (scan_sum_small _ _ _ _ _ _ Hinv Hrel Hpop Hu He). lia. }
    destruct (scanning_start g s _ _ _ _ _ Hinv Hrel Hpop Hu) as [HuL Hsc].
    apply relax_fold_scanning in Hsc; [|done..].
    apply scanning_done in Hsc as [Hinv' Hrel'].
    by apply (IH (u :: L)).
Qed.

(** On small weights no addition rounds: both searches return the same. *)
Lemma findShortestPath64_exact fuel :
  findShortestPath64 frac fuel g s t = findShortestPath fuel g s t.
Proof.
  unfold findShortestPath64, findShortestPath.
  destruct (hasAirport g s) eqn:Hs; [|done]. apply hasAirport_true in Hs.
  destruct (negb true || negb (hasAirport g t)); [done|].
  destruct (init_state_inv g s Hs) as [Hinv0 Hrel0].
  by rewrite (dijkstra_loop64_exact fuel [] _ Hinv0 Hrel0).
Qed.
End search64_exact.

(** * The claims *)

(** C1, as the code has it.  On a graph whose weights are non-negative
    whole numbers of units [2^-frac] (integers for [frac = 0]) with a sum
    over all adjacency entries of at most [2^53] units (so that no
    addition of the search rounds), for two existing nodes joined
    by at least one path, [findShortestPath] returns, and its
    [totalDistance] is the least sum of edge weights over all paths from
    the source to the target: over all walks, and likewise over the walks
    that repeat no node. *)
Theorem C1_shortest_distance_when_exact `{PQ : PriorityQueue}
    (frac : nat) (ops : list GraphOp) (s t : string) (fuel : nat) :
  graph_nonneg (build ops) →
  total_weight (build ops) ≤ 2 ^ 53 →
  is_Some (build ops !! s) → is_Some (build ops !! t) →
  (∃ p, walk (build ops) s p t) →
  (fuel_bound (build ops) ≤ fuel)%nat →
  ∃ r d, findShortestPath64 frac fuel (build ops) s t = Some r ∧
    totalDistance r = Fin d ∧
    min_weight (build ops) s t d ∧ min_simple_weight (build ops) s t d.
Proof.
  intros Hnn Hsmall Hs Ht Hp Hfuel.
  rewrite (findShortestPath64_exact frac _ s t (build_closed ops) Hnn Hsmall).
  destruct (search_shortest fuel (build ops) s t)
    as (r & d & Hr & Hd & Hmin); auto using build_closed.
  exists r, d. auto using min_weight_simple.
Qed.

Lemma C1_shortest_distance_when_exact_witness :
  graph_nonneg (build sample_ops) ∧
  total_weight (build sample_ops) ≤ 2 ^ 53 ∧
  is_Some (build sample_ops !! "JFK") ∧
  is_Some (build sample_ops !! "DFW") ∧
  (∃ p, walk (build sample_ops) "JFK" p "DFW") ∧
  (fuel_bound (build sample_ops) ≤ 20)%nat ∧
  ∃ r d, findShortestPath64 (PQ:=ListPQ) 0 20 (build sample_ops) "JFK" "DFW"
           = Some r ∧
    totalDistance r = Fin d ∧
    min_weight (build sample_ops) "JFK" "DFW" d ∧
    min_simple_weight (build sample_ops) "JFK" "DFW" d.
Proof.
  assert (H1 : graph_nonneg (build sample_ops))
    by (apply (bool_decide_unpack _); vm_compute; exact I).
  assert (H2 : total_weight (build sample_ops) ≤ 2 ^ 53)
    by (vm_compute; discriminate).
  assert (H3 : is_Some (build sample_ops !! "JFK"))
    by (vm_compute; eauto).
  assert (H4 : is_Some (build sample_ops !! "DFW"))
    by (vm_compute; eauto).
  assert (H5 : ∃ p, walk (build sample_ops) "JFK" p "DFW").
  { exists [mkEdge "ORD" 800; mkEdge "DFW" 1650].
    vm_compute. repeat constructor. }
  assert (H6 : (fuel_bound (build sample_ops) ≤ 20)%nat)
    by (vm_compute; lia).
  split_and!; [done..|].
  exact (C1_shortest_distance_when_exact (PQ:=ListPQ) 0 sample_ops
           "JFK" "DFW" 20 H1 H2 H3 H4 H5 H6).
Defined.

(** C1 as stated fails where an addition rounds.  With the routes A-B of
    weight [2^53] and B-C of weight 1, the least sum of weights from A to
    C is [2^53 + 1], and the search returns [2^53]: line 54 adds 1 to
    [2^53] in binary64, which gives [2^53] again. *)
Lemma C1_counterexample :
  graph_nonneg
    (build [AddRoute "A" "B" 9007199254740992; AddRoute "B" "C" 1]) ∧
  hasAirport
    (build [AddRoute "A" "B" 9007199254740992; AddRoute "B" "C" 1]) "A"
    = true ∧
  hasAirport
    (build [AddRoute "A" "B" 9007199254740992; AddRoute "B" "C" 1]) "C"
    = true ∧
  findShortestPath64 (PQ:=ListPQ) 0 9
    (build [AddRoute "A" "B" 9007199254740992; AddRoute "B" "C" 1]) "A" "C"
    = Some (mkPathResult ["A"; "B"; "C"] (Fin 9007199254740992)) ∧
  min_weight
    (build [AddRoute "A" "B" 9007199254740992; AddRoute "B" "C" 1]) "A" "C"
    9007199254740993.
Proof.
  assert (Hnn : graph_nonneg
    (build [AddRoute "A" "B" 9007199254740992; AddRoute "B" "C" 1]))
    by (apply (bool_decide_unpack _); vm_compute; exact I).
  split_and!; [done|by vm_compute..|].
  destruct (search_shortest (PQ:=ListPQ) 9
    (build [AddRoute "A" "B" 9007199254740992; AddRoute "B" "C" 1])
    "A" "C") as (r & d & Hr & Hd & Hmin);
    [apply build_closed|done|by vm_compute; eauto..| |by vm_compute; lia|].
  { exists [mkEdge "B" 9007199254740992; mkEdge "C" 1].
    vm_compute. repeat constructor. }
  vm_compute in Hr. injection Hr as <-. simpl in Hd. by injection Hd as <-.
Qed.

(** C2.  What the code does where C2 expects an empty path and distance 0:
    for two existing nodes with no path between them, on a graph without
    negative weights, [findShortestPath] returns the one-element path
    [[t]] (the empty path only if [t] is the empty string) and
    [totalDistance] [+infinity]. *)
Theorem C2_unreachable_returns_target_inf `{PQ : PriorityQueue}
    (ops : list GraphOp) (s t : string) (fuel : nat) :
  graph_nonneg (build ops) →
  is_Some (build ops !! s) → is_Some (build ops !! t) →
  (∀ p, ¬ walk (build ops) s p t) →
  (fuel_bound (build ops) ≤ fuel)%nat →
  findShortestPath fuel (build ops) s t =
    Some (mkPathResult (if decide (t = "") then [] else [t]) Inf).
Proof. intros. apply search_unreachable; auto using build_closed. Qed.

Lemma C2_unreachable_returns_target_inf_witness :
  graph_nonneg (build [AddAirport "A"; AddAirport "B"]) ∧
  is_Some (build [AddAirport "A"; AddAirport "B"] !! "A") ∧
  is_Some (build [AddAirport "A"; AddAirport "B"] !! "B") ∧
  (∀ p, ¬ walk (build [AddAirport "A"; AddAirport "B"]) "A" p "B") ∧
  (fuel_bound (build [AddAirport "A"; AddAirport "B"]) ≤ 4)%nat ∧
  findShortestPath (PQ:=ListPQ) 4 (build [AddAirport "A"; AddAirport "B"])
    "A" "B" = Some (mkPathResult ["B"] Inf).
Proof.
  assert (H1 : graph_nonneg (build [AddAirport "A"; AddAirport "B"]))
    by (apply (bool_decide_unpack _); vm_compute; exact I).
  assert (H2 : is_Some (build [AddAirport "A"; AddAirport "B"] !! "A"))
    by (vm_compute; eauto).
  assert (H3 : is_Some (build [AddAirport "A"; AddAirport "B"] !! "B"))
    by (vm_compute; eauto).
  assert (H4 : ∀ p, ¬ walk (build [AddAirport "A"; AddAirport "B"]) "A" p "B").
  { intros [|e p]; [discriminate|]. intros [He _]. vm_compute in He.
    inversion He. }
  assert (H5 : (fuel_bound (build [AddAirport "A"; AddAirport "B"]) ≤ 4)%nat)
    by (vm_compute; lia).
  split_and!; [done..|].
  exact (C2_unreachable_returns_target_inf (PQ:=ListPQ)
           [AddAirport "A"; AddAirport "B"] "A" "B" 4 H1 H2 H3 H4 H5).
Defined.

(** C3.  If the source or the target is not a node of the graph,
    [findShortestPath] returns the empty path with distance 0, whatever the
    step budget: no loop is entered and nothing is raised. *)
Theorem C3_missing_endpoint `{PQ : PriorityQueue}
    (g : Graph) (sourceId targetId : string) (fuel : nat) :
  g !! sourceId = None ∨ g !! targetId = None →
  findShortestPath fuel g sourceId targetId = Some (mkPathResult [] (Fin 0)).
Proof. apply search_missing. Qed.

Lemma C3_missing_endpoint_witness :
  (sample_graph !! "JFK" = None ∨ sample_graph !! "LAX" = None) ∧
  findShortestPath (PQ:=ListPQ) 0 sample_graph "JFK" "LAX"
    = Some (mkPathResult [] (Fin 0)).
Proof.
  assert (H : sample_graph !! "JFK" = None ∨ sample_graph !! "LAX" = None)
    by (right; reflexivity).
  split; [exact H|].
  exact (C3_missing_endpoint (PQ:=ListPQ) sample_graph "JFK" "LAX" 0 H).
Defined.

(** C4, as the code has it.  For every existing node [s] other than the
    empty string, [findShortestPath g s s] returns the path [[s]] and
    distance 0. *)
Theorem C4_self_path `{PQ : PriorityQueue} (g : Graph) (s : string)
    (fuel : nat) :
  is_Some (g !! s) → s ≠ "" → (2 ≤ fuel)%nat →
  findShortestPath fuel g s s = Some (mkPathResult [s] (Fin 0)).
Proof.
  intros Hs Hne Hfuel. rewrite search_self by done.
  by rewrite decide_False.
Qed.

Lemma C4_self_path_witness :
  is_Some (sample_graph !! "JFK") ∧ "JFK" ≠ "" ∧ (2 ≤ 2)%nat ∧
  findShortestPath (PQ:=ListPQ) 2 sample_graph "JFK" "JFK"
    = Some (mkPathResult ["JFK"] (Fin 0)).
Proof.
  assert (H1 : is_Some (sample_graph !! "JFK")) by (vm_compute; eauto).
  assert (H2 : "JFK" ≠ "") by discriminate.
  assert (H3 : (2 ≤ 2)%nat) by lia.
  split_and!; [done..|].
  exact (C4_self_path (PQ:=ListPQ) sample_graph "JFK" 2 H1 H2 H3).
Defined.

(** C4 as stated fails for the airport whose identifier is the empty
    string: the returned path is empty, not the one-element path. *)
Lemma C4_counterexample :
  hasAirport (build [AddAirport ""]) "" = true ∧
  findShortestPath (PQ:=ListPQ) 4 (build [AddAirport ""]) "" ""
    = Some (mkPathResult [] (Fin 0)) ∧
  findShortestPath (PQ:=ListPQ) 4 (build [AddAirport ""]) "" ""
    ≠ Some (mkPathResult [""] (Fin 0)).
Proof. split_and!; [by vm_compute..|]. vm_compute. discriminate. Qed.

(** C5.  On the sample graph of [main] (JFK, DFW, ORD; JFK-ORD 800,
    ORD-DFW 1650) the three queries return [JFK, ORD, DFW] with 2450,
    [JFK] with 0, and the empty path with 0. *)
Theorem C5_sample_scenario `{PQ : PriorityQueue} (fuel : nat) :
  (4 ≤ fuel)%nat →
  findShortestPath fuel sample_graph "JFK" "DFW"
    = Some (mkPathResult ["JFK"; "ORD"; "DFW"] (Fin 2450)) ∧
  findShortestPath fuel sample_graph "JFK" "JFK"
    = Some (mkPathResult ["JFK"] (Fin 0)) ∧
  findShortestPath fuel sample_graph "JFK" "LAX"
    = Some (mkPathResult [] (Fin 0)).
Proof.
  intros Hfuel. split_and!.
  - apply (findShortestPath_mono 4); [apply sample_JFK_DFW | done].
  - rewrite search_self; [done| |lia]. by vm_compute; eauto.
  - apply search_missing. by right.
Qed.

Lemma C5_sample_scenario_witness :
  (4 ≤ 9)%nat ∧
  findShortestPath (PQ:=ListPQ) 9 sample_graph "JFK" "DFW"
    = Some (mkPathResult ["JFK"; "ORD"; "DFW"] (Fin 2450)) ∧
  findShortestPath (PQ:=ListPQ) 9 sample_graph "JFK" "JFK"
    = Some (mkPathResult ["JFK"] (Fin 0)) ∧
  findShortestPath (PQ:=ListPQ) 9 sample_graph "JFK" "LAX"
    = Some (mkPathResult [] (Fin 0)).
Proof.
  assert (H : (4 ≤ 9)%nat) by lia.
  split; [exact H|].
  exact (C5_sample_scenario (PQ:=ListPQ) 9 H).
Defined.

(** C6, as the code has it.  [addRoute g a b w] appends one edge to [b]
    with weight [w] to the entry of [a] and one edge to [a] with weight [w]
    to the entry of [b], and touches no other entry; and if [a] and [b]
    differ, [w] is not negative and the graph had no route before, the
    search returns distance [w] from [a] to [b] and from [b] to [a]. *)
Theorem C6_route_both_ways `{PQ : PriorityQueue}
    (g : Graph) (a b : string) (w : Z) (fuel : nat) :
  (getRoutes (addRoute g a b w) a =
     getRoutes g a ++ [mkEdge b w]
       ++ (if decide (a = b) then [mkEdge a w] else []) ∧
   getRoutes (addRoute g a b w) b =
     getRoutes g b ++ (if decide (a = b) then [mkEdge b w] else [])
       ++ [mkEdge a w] ∧
   (∀ k, k ≠ a → k ≠ b → addRoute g a b w !! k = g !! k)) ∧
  (no_routes g → a ≠ b → 0 ≤ w →
   (fuel_bound (addRoute g a b w) ≤ fuel)%nat →
   ∃ r r',
     findShortestPath fuel (addRoute g a b w) a b = Some r ∧
     totalDistance r = Fin w ∧
     findShortestPath fuel (addRoute g a b w) b a = Some r' ∧
     totalDistance r' = Fin w).
Proof.
  pose proof (addRoute_getRoutes g a b w) as Hadd. split; [exact Hadd|].
  destruct Hadd as (Ha & Hb & _).
  intros Hno Hne Hw Hfuel.
  pose proof (single_route_closed g a b w Hno) as Hc.
  pose proof (single_route_nonneg g a b w Hno Hw) as Hnn.
  assert (Hab : mkEdge b w ∈ getRoutes (addRoute g a b w) a).
  { rewrite Ha. set_solver. }
  assert (Hba : mkEdge a w ∈ getRoutes (addRoute g a b w) b).
  { rewrite Hb. set_solver. }
  assert (Hsa : is_Some (addRoute g a b w !! a))
    by (apply addRoute_is_Some; auto).
  assert (Hsb : is_Some (addRoute g a b w !! b))
    by (apply addRoute_is_Some; auto).
  destruct (search_shortest fuel (addRoute g a b w) a b)
    as (r & d & Hr & Hd & Hmin); [done..| |done|].
  { exists [mkEdge b w]. by split. }
  destruct (search_shortest fuel (addRoute g a b w) b a)
    as (r' & d' & Hr' & Hd' & Hmin'); [done..| |done|].
  { exists [mkEdge a w]. by split. }
  exists r, r'.
  rewrite (min_weight_unique _ _ _ _ _ Hmin
             (single_route_min g a b w a b Hno Hw Hne Hab)) in Hd.
  rewrite (min_weight_unique _ _ _ _ _ Hmin'
             (single_route_min g a b w b a Hno Hw (not_eq_sym Hne) Hba))
    in Hd'.
  done.
Qed.

Lemma C6_route_both_ways_witness :
  no_routes ∅ ∧ "A" ≠ "B" ∧ 0 ≤ 5 ∧
  (fuel_bound (addRoute ∅ "A" "B" 5) ≤ 6)%nat ∧
  ∃ r r',
    findShortestPath (PQ:=ListPQ) 6 (addRoute ∅ "A" "B" 5) "A" "B" = Some r ∧
    totalDistance r = Fin 5 ∧
    findShortestPath (PQ:=ListPQ) 6 (addRoute ∅ "A" "B" 5) "B" "A" = Some r' ∧
    totalDistance r' = Fin 5.
Proof.
  assert (H1 : no_routes ∅) by apply map_Forall_empty.
  assert (H2 : "A" ≠ "B") by discriminate.
  assert (H3 : 0 ≤ 5) by lia.
  assert (H4 : (fuel_bound (addRoute ∅ "A" "B" 5) ≤ 6)%nat)
    by (vm_compute; lia).
  split_and!; [done..|].
  exact (proj2 (C6_route_both_ways (PQ:=ListPQ) ∅ "A" "B" 5 6) H1 H2 H3 H4).
Defined.

(** C6 as stated fails for a route from an airport to itself: the graph
    holds only the route (A, A, 5), and the distance from A to A is 0. *)
Lemma C6_counterexample :
  findShortestPath (PQ:=ListPQ) 6 (addRoute ∅ "A" "A" 5) "A" "A"
    = Some (mkPathResult ["A"] (Fin 0)) ∧
  totalDistance (mkPathResult ["A"] (Fin 0)) ≠ Fin 5.
Proof. split; [by vm_compute|discriminate]. Qed.

(** C7.  On a graph made by any sequence of [addAirport] and [addRoute]
    calls, [hasAirport id] is true exactly when [id] was the argument of
    an [addAirport] call or an endpoint of an [addRoute] call. *)
Theorem C7_hasAirport_iff_added (ops : list GraphOp) (id : string) :
  hasAirport (build ops) id = true ↔ was_added ops id.
Proof. by rewrite hasAirport_true, build_is_Some. Qed.

(** C8.  [addAirport] leaves the whole map unchanged when the airport
    exists, creates an entry with no routes when it does not, and a second
    call in a row changes nothing. *)
Theorem C8_addAirport_idempotent (g : Graph) (id : string) :
  (is_Some (g !! id) → addAirport g id = g) ∧
  (g !! id = None →
     addAirport g id !! id = Some [] ∧
     (∀ k, k ≠ id → addAirport g id !! k = g !! k)) ∧
  addAirport (addAirport g id) id = addAirport g id.
Proof.
  split_and!.
  - intros [routes Hid]. unfold addAirport. by rewrite Hid.
  - intros Hid. unfold addAirport. rewrite Hid. split.
    + apply lookup_insert_eq.
    + intros k Hk. by rewrite lookup_insert_ne.
  - unfold addAirport. destruct (g !! id) eqn:Hid; [by rewrite Hid|].
    by rewrite lookup_insert_eq.
Qed.

Lemma C8_addAirport_idempotent_witness :
  (is_Some (sample_graph !! "JFK") ∧ addAirport sample_graph "JFK" = sample_graph) ∧
  ((∅ : Graph) !! "JFK" = None ∧ addAirport ∅ "JFK" !! "JFK" = Some []).
Proof.
  assert (H1 : is_Some (sample_graph !! "JFK")) by (vm_compute; eauto).
  assert (H2 : (∅ : Graph) !! "JFK" = None) by reflexivity.
  split; (split; [done|]).
  - exact (proj1 (C8_addAirport_idempotent sample_graph "JFK") H1).
  - exact (proj1 (proj1 (proj2 (C8_addAirport_idempotent ∅ "JFK")) H2)).
Defined.

(** C9.  [getRoutes] returns the stored routes of an existing airport and
    the empty sequence for an absent one; it is a total function. *)
Theorem C9_getRoutes_total (g : Graph) (id : string) :
  (∀ routes, g !! id = Some routes → getRoutes g id = routes) ∧
  (g !! id = None → getRoutes g id = []).
Proof. unfold getRoutes. split; [intros routes|]; by intros ->. Qed.

Lemma C9_getRoutes_total_witness :
  (sample_graph !! "ORD" = Some [mkEdge "JFK" 800; mkEdge "DFW" 1650] ∧
   getRoutes sample_graph "ORD" = [mkEdge "JFK" 800; mkEdge "DFW" 1650]) ∧
  (sample_graph !! "LAX" = None ∧ getRoutes sample_graph "LAX" = []).
Proof.
  assert (H1 : sample_graph !! "ORD"
               = Some [mkEdge "JFK" 800; mkEdge "DFW" 1650]) by reflexivity.
  assert (H2 : sample_graph !! "LAX" = None) by reflexivity.
  split; (split; [done|]).
  - exact (proj1 (C9_getRoutes_total sample_graph "ORD") _ H1).
  - exact (proj2 (C9_getRoutes_total sample_graph "LAX") H2).
Defined.



(** * Further properties *)

(** ** What a sequence of calls leaves in the graph *)

Lemma apply_op_getRoutes (g : Graph) op k :
  getRoutes (apply_op g op) k = getRoutes g k ++ op_routes k op.
Proof.
  rewrite !getRoutes_adj_at. unfold adj_at at 1. destruct op as [a|a b w]; simpl.
  - rewrite addAirport_lookup, app_nil_r. by case_decide; subst.
  - rewrite addRoute_lookup.
    repeat case_decide; subst; simpl;
      rewrite ?getRoutes_adj_at, ?app_nil_r; done.
Qed.

Lemma build_getRoutes ops k : getRoutes (build ops) k = ops ≫= op_routes k.
Proof.
  induction ops as [|op ops IH] using rev_ind; [done|].
  rewrite build_snoc, apply_op_getRoutes, IH, bind_app. simpl.
  by rewrite app_nil_r.
Qed.

Lemma op_routes_symmetric op a b w :
  mkEdge b w ∈ op_routes a op → mkEdge a w ∈ op_routes b op.
Proof.
  destruct op as [|x y v]; simpl; [by intros ?%elem_of_nil|].
  rewrite !elem_of_app. repeat case_decide; subst;
    rewrite ?list_elem_of_singleton, ?elem_of_nil; naive_solver.
Qed.

Lemma build_symmetric ops : graph_symmetric (build ops).
Proof.
  intros a b w. rewrite !build_getRoutes, !list_elem_of_bind.
  intros (op & Hin & Hop). exists op. split; [|done].
  by apply op_routes_symmetric.
Qed.

Lemma total_edges_insert (m : Graph) k routes :
  (total_edges (<[k:=routes]> m) + length (adj_at m k)
     = total_edges m + length routes)%nat.
Proof.
  assert (Hfresh : ∀ m' : Graph, m' !! k = None →
    total_edges (<[k:=routes]> m') = (length routes + total_edges m')%nat).
  { intros m' Hk. unfold total_edges.
    rewrite map_fold_insert_L; [done| |done]. intros. lia. }
  unfold adj_at. destruct (m !! k) as [old|] eqn:Hk; simpl.
  - rewrite (total_edges_delete m k old Hk), <-(insert_delete_eq m).
    rewrite Hfresh by apply lookup_delete_eq. lia.
  - rewrite Hfresh by done. lia.
Qed.

Lemma apply_op_total_edges (g : Graph) op :
  total_edges (apply_op g op)
    = (total_edges g + 2 * route_calls [op])%nat.
Proof.
  destruct op as [a|a b w]; simpl.
  - unfold addAirport. destruct (g !! a) eqn:Ha; [lia|].
    pose proof (total_edges_insert g a []) as H. unfold adj_at in H.
    rewrite Ha in H. simpl in H. lia.
  - unfold addRoute.
    pose proof (total_edges_insert g a (adj_at g a ++ [mkEdge b w])) as H1.
    pose proof (total_edges_insert
      (<[a:=adj_at g a ++ [mkEdge b w]]> g) b
      (adj_at (<[a:=adj_at g a ++ [mkEdge b w]]> g) b ++ [mkEdge a w]))
      as H2.
    rewrite length_app in H1, H2. simpl in H1, H2. lia.
Qed.

(** ** More about the state of the search *)

Section search_further.
Context `{PQ : PriorityQueue}.
Context (g : Graph) (s t : string).
Hypothesis Hclosed : graph_closed g.
Hypothesis Hnonneg : graph_nonneg g.

Lemma relax_fold_preserves Q u d L pend st :
  relax_stable g s Q →
  scanning g s u d L pend st → (∀ e, e ∈ pend → e ∈ getRoutes g u) →
  Q (distances st) (previous st) →
  Q (distances (foldl (relax (QueueNode.mk u (Fin d))) st pend))
    (previous (foldl (relax (QueueNode.mk u (Fin d))) st pend)).
Proof.
  intros HQ. revert st.
  induction pend as [|e pend IH]; intros st Hsc Hpend Hst; [done|].
  simpl. apply IH.
  - apply relax_scanning; [done..|]. apply Hpend. by left.
  - intros e' He'. apply Hpend. by right.
  - eapply HQ; [exact Hsc| |done]. apply Hpend. by left.
Qed.

Lemma dijkstra_loop_preserves Q fuel L st st' :
  relax_stable g s Q →
  inv g s L st → relaxed g [] "" st →
  Q (distances st) (previous st) →
  dijkstra_loop fuel g t st = Some st' →
  Q (distances st') (previous st').
Proof.
  intros HQ. revert L st.
  induction fuel as [|fuel IH]; intros L st Hinv Hrel Hst Hrun; [done|].
  simpl in Hrun. destruct (pq_pop (pq st)) as [[[u du] rest]|] eqn:Hpop;
    [|by injection Hrun as <-].
  assert (Hhead : QueueNode.mk u du ∈ pq_items (pq st))
    by (apply (elem_of_pq_pop _ _ _ _ Hpop); by left).
  destruct (inv_queue _ _ _ _ Hinv _ Hhead) as (d & d' & Hd & Hu & Hle).
  simpl in Hd, Hu. subst du. simpl in Hrun.
  case_decide as Hut; [by injection Hrun as <-|].
  unfold dist_touch, dist_at in Hrun. rewrite Hu in Hrun.
  cbn -[dist_ltb] in Hrun. rewrite insert_id in Hrun by done.
  destruct (dist_ltb (Fin d') (Fin d)) eqn:Hlt.
  - apply dist_ltb_lt in Hlt.
    apply (IH L (mkState rest (distances st) (previous st)));
      [| |done|exact Hrun].
    + by eapply inv_pop.
    + by eapply relaxed_pop_stale.
  - apply dist_ltb_false_le, dist_le_fin in Hlt.
    assert (d' = d) as -> by lia.
    destruct (scanning_start g s _ _ _ _ _ Hinv Hrel Hpop Hu)
      as [HuL Hsc].
    pose proof (relax_fold_preserves Q _ _ _ _ _ HQ Hsc (λ e He, He) Hst)
      as Hst'.
    apply relax_fold_scanning in Hsc; [|done..].
    apply scanning_done in Hsc as [Hinv' Hrel'].
    by eapply (IH (u :: L)).
Qed.

Lemma route_links_stable : g !! "" = None → relax_stable g s (route_links g s).
Proof.
  intros Hempty u d L e pend st [Hinv _ Hcur Hin Hbelow] He
    (Hsrc & Hedge & Hroot).
  pose proof He as (routes & Hu & He')%elem_of_getRoutes.
  pose proof (graph_nonneg_lookup _ _ _ _ Hnonneg Hu He') as Hw.
  pose proof (graph_closed_lookup _ _ _ _ Hclosed Hu He') as Hv.
  pose proof (inv_dist_nonneg _ _ Hnonneg _ _ _ _ Hinv Hcur) as Hd0.
  apply (inv_dom _ _ _ _ Hinv) in Hv as [dv Hdv].
  destruct e as [v w]. simpl in *.
  unfold relax, dist_at. cbn -[dist_ltb]. rewrite Hdv. cbn -[dist_ltb].
  destruct (dist_ltb (Fin (d + w)) dv) eqn:Hlt; simpl.
  - assert (Hlt' : ∀ dv', dv = Fin dv' → d + w < dv').
    { intros dv' ->. by apply dist_ltb_lt in Hlt. }
    assert (HvL : v ∉ L).
    { intros HvL. destruct (Hbelow _ HvL) as (dx & Hdx & Hle).
      rewrite Hdv in Hdx. injection Hdx as Hdx.
      specialize (Hlt' _ Hdx). lia. }
    assert (Hvu : v ≠ u) by (by intros ->).
    assert (Hvs : v ≠ s).
    { intros ->. rewrite (inv_src _ _ _ _ Hinv) in Hdv. injection Hdv as Hdv.
      symmetry in Hdv. specialize (Hlt' _ Hdv). lia. }
    split_and!.
    + by rewrite lookup_insert_ne.
    + intros x z. destruct (decide (v = x)) as [<-|Hvx].
      * rewrite lookup_insert_eq. intros [= <-] _. exists w, d.
        rewrite lookup_insert_ne, lookup_insert_eq by done. done.
      * rewrite lookup_insert_ne by done. intros Hx Hz.
        destruct (Hedge _ _ Hx Hz) as (w' & du & Hin' & Hdz & Hdx).
        destruct (inv_prev _ _ _ _ Hinv _ _ Hx Hz) as [HzL _].
        assert (v ≠ z) by (by intros <-).
        exists w', du. by rewrite !lookup_insert_ne.
    + intros x d'. destruct (decide (v = x)) as [<-|Hvx].
      * rewrite !lookup_insert_eq. intros _ [= ->]. congruence.
      * rewrite !lookup_insert_ne by done. apply Hroot.
  - unfold dist_touch, dist_at. rewrite Hdv. simpl.
    by rewrite insert_id.
Qed.

Lemma init_route_links :
  is_Some (g !! s) →
  route_links g s (distances (init_state g s)) (previous (init_state g s)).
Proof.
  intros [routes Hs]. unfold init_state. simpl. split_and!.
  - by rewrite lookup_fmap, Hs.
  - intros v u. rewrite lookup_fmap. by destruct (g !! v); intros [= <-].
  - intros v d. destruct (decide (s = v)) as [<-|]; [done|].
    rewrite lookup_insert_ne, lookup_fmap by done. by destruct (g !! v).
Qed.

(** The run of both loops, with everything known about the final state. *)
Lemma findShortestPath_run_full fuel :
  is_Some (g !! s) → is_Some (g !! t) → (fuel_bound g ≤ fuel)%nat →
  ∃ L st p,
    inv g s L st ∧ target_final g s t st ∧ t ∉ L ∧
    dijkstra_loop fuel g t (init_state g s) = Some st ∧
    reconstruct fuel (previous st) t [] = Some p ∧
    findShortestPath fuel g s t =
      Some (mkPathResult p (default (Fin 0) (distances st !! t))).
Proof.
  intros Hs Ht Hfuel. unfold fuel_bound in Hfuel.
  destruct (init_state_inv g s Hs) as [Hinv0 Hrel0].
  destruct (dijkstra_loop_ok g s t Hclosed Hnonneg fuel []
              (init_state g s) Hinv0 Hrel0)
    as (L & st & Hloop & Hinv & Hfinal & HtL).
  { apply not_elem_of_nil. }
  { unfold measure, init_state. simpl. rewrite length_pq_push, pq_new_items.
    simpl. lia. }
  pose proof (settled_length g s t L st Hinv Ht HtL) as HL.
  destruct (reconstruct_ok g s L st fuel t [] Hinv) as [p Hp]; [lia|].
  exists L, st, p. do 5 (split; [done|]).
  unfold findShortestPath.
  apply hasAirport_true in Hs as ->. apply hasAirport_true in Ht as ->.
  simpl. rewrite Hloop. simpl. rewrite Hp. simpl.
  by destruct (distances st !! t).
Qed.

(** Walking the predecessor links back from a node with a finite distance
    spells out a walk from the source of exactly that weight. *)
Lemma reconstruct_route L st fuel :
  g !! "" = None → inv g s L st →
  route_links g s (distances st) (previous st) →
  ∀ curr acc r dc,
  distances st !! curr = Some (Fin dc) →
  reconstruct fuel (previous st) curr acc = Some r →
  ∃ p, walk g s p curr ∧ r = (s :: map destination p) ++ acc ∧
    path_weight p = dc.
Proof.
  intros Hempty Hinv (Hsrc & Hedge & Hroot).
  induction fuel as [|fuel IH]; intros curr acc r dc Hdc Hrun; [done|].
  assert (Hg : is_Some (g !! curr))
    by (apply (inv_dom _ _ _ _ Hinv); eauto).
  assert (Hne : curr ≠ "") by (intros ->; rewrite Hempty in Hg; by destruct Hg).
  pose proof Hg as [z Hz]%(inv_prev_dom _ _ _ _ Hinv).
  cbn [reconstruct] in Hrun. rewrite decide_True in Hrun by eauto.
  unfold prev_at in Hrun. rewrite Hz in Hrun. cbn [default] in Hrun.
  destruct (decide (z = "")) as [->|Hzne].
  - destruct fuel as [|fuel]; [done|]. rewrite reconstruct_stop in Hrun.
    injection Hrun as <-. pose proof (Hroot _ _ Hdc Hz) as ->.
    rewrite (inv_src _ _ _ _ Hinv) in Hdc. injection Hdc as <-.
    by exists [].
  - destruct (Hedge _ _ Hz Hzne) as (w & du & Hin & Hdz & Hdcurr).
    rewrite Hdc in Hdcurr. injection Hdcurr as ->.
    destruct (IH _ _ _ _ Hdz Hrun) as (p & Hp & -> & Hw).
    exists (p ++ [mkEdge curr w]). split_and!.
    + by apply (walk_snoc _ _ _ _ (mkEdge curr w) Hp).
    + rewrite map_app. simpl. by rewrite <-(assoc_L (++)).
    + rewrite path_weight_snoc. simpl. lia.
Qed.


End search_further.

(** ** The search on weights of any sign *)

Section search_any_weights.
Context `{PQ : PriorityQueue}.
Context (g : Graph) (s t : string).
Hypothesis Hclosed : graph_closed g.






End search_any_weights.

(** ** Walking a route backwards *)

Lemma walk_reverse g u p v :
  graph_symmetric g → walk g u p v →
  ∃ q, walk g v q u ∧ path_weight q = path_weight p.
Proof.
  intros Hsym. revert u. induction p as [|[x w] p IH]; intros u Hp.
  - simpl in Hp. subst v. by exists [].
  - destruct Hp as [He Hp]. simpl in Hp.
    destruct (IH _ Hp) as (q & Hq & Hw).
    exists (q ++ [mkEdge u w]). split.
    + apply (walk_snoc _ _ _ _ (mkEdge u w) Hq). by apply Hsym.
    + rewrite path_weight_snoc. unfold path_weight in *. simpl. lia.
Qed.

Section results_further.
Context `{PQ : PriorityQueue}.

Lemma search_route fuel (g : Graph) s t :
  graph_closed g → graph_nonneg g →
  is_Some (g !! s) → is_Some (g !! t) → g !! "" = None →
  (∃ p, walk g s p t) → (fuel_bound g ≤ fuel)%nat →
  ∃ r p d, findShortestPath fuel g s t = Some r ∧
    walk g s p t ∧ path r = s :: map destination p ∧
    totalDistance r = Fin d ∧ path_weight p = d ∧ min_weight g s t d.
Proof.
  intros Hc Hnn Hs Ht Hempty [p0 Hp0] Hfuel.
  destruct (findShortestPath_run_full g s t Hc Hnn fuel Hs Ht Hfuel)
    as (L & st & pth & Hinv & Hfinal & _ & Hloop & Hrec & Hres).
  destruct (init_state_inv g s Hs) as [Hinv0 Hrel0].
  pose proof (dijkstra_loop_preserves g s t Hc Hnn _ _ _ _ _
    (route_links_stable g s Hc Hnn Hempty) Hinv0 Hrel0
    (init_route_links g s Hs) Hloop) as Hlinks.
  destruct (Hfinal _ Hp0) as (d & Hd & _).
  destruct (reconstruct_route g s L st fuel Hempty Hinv Hlinks _ _ _ _ Hd Hrec)
    as (p & Hp & -> & Hw).
  exists (mkPathResult ((s :: map destination p) ++ []) (Fin d)), p, d.
  rewrite Hres, Hd. simpl. rewrite app_nil_r. split_and!; try done.
  split; [by exists p|].
  intros p' Hp'. destruct (Hfinal _ Hp') as (d' & Hd' & Hle).
  rewrite Hd in Hd'. by injection Hd' as <-.
Qed.


Lemma search_finite_iff fuel (g : Graph) s t :
  graph_closed g → graph_nonneg g →
  is_Some (g !! s) → is_Some (g !! t) → (fuel_bound g ≤ fuel)%nat →
  ∃ r, findShortestPath fuel g s t = Some r ∧
    (totalDistance r = Inf ↔ ∀ p, ¬ walk g s p t).
Proof.
  intros Hc Hnn Hs Ht Hfuel.
  destruct (findShortestPath_run_full g s t Hc Hnn fuel Hs Ht Hfuel)
    as (L & st & pth & Hinv & Hfinal & _ & _ & _ & ->).
  eexists. split; [done|]. simpl.
  apply (inv_dom _ _ _ _ Hinv) in Ht as [dt Hdt]. rewrite Hdt. simpl.
  split.
  - intros -> p Hp. destruct (Hfinal _ Hp) as (d & Hd & _). congruence.
  - intros Hnone.
    destruct dt as [d| |]; [|done|by destruct (inv_above _ _ _ _ Hinv t)].
    destruct (inv_sound _ _ _ _ Hinv _ _ Hdt) as (p & Hp & _).
    by destruct (Hnone p).
Qed.

Lemma search_symmetric fuel (g : Graph) s t :
  graph_closed g → graph_nonneg g → graph_symmetric g →
  is_Some (g !! s) → is_Some (g !! t) → (fuel_bound g ≤ fuel)%nat →
  ∃ r r', findShortestPath fuel g s t = Some r ∧
    findShortestPath fuel g t s = Some r' ∧
    totalDistance r = totalDistance r'.
Proof.
  intros Hc Hnn Hsym Hs Ht Hfuel.
  destruct (findShortestPath_run_full g s t Hc Hnn fuel Hs Ht Hfuel)
    as (L1 & st1 & p1 & Hinv1 & Hfinal1 & _ & _ & _ & ->).
  destruct (findShortestPath_run_full g t s Hc Hnn fuel Ht Hs Hfuel)
    as (L2 & st2 & p2 & Hinv2 & Hfinal2 & _ & _ & _ & ->).
  eexists _, _. split; [done|]. split; [done|]. simpl.
  assert (Hback : ∀ a b La Lb (sa sb : state) d,
    inv g a La sa → inv g b Lb sb → target_final g b a sb →
    distances sa !! b = Some (Fin d) →
    ∃ d', distances sb !! a = Some (Fin d') ∧ d' ≤ d).
  { intros a b La Lb sa sb d Ha Hb Hfin Hd.
    destruct (inv_sound _ _ _ _ Ha _ _ Hd) as (p & Hp & <-).
    destruct (walk_reverse _ _ _ _ Hsym Hp) as (q & Hq & <-). auto. }
  apply (inv_dom _ _ _ _ Hinv1) in Ht as [d1 Hd1].
  apply (inv_dom _ _ _ _ Hinv2) in Hs as [d2 Hd2].
  rewrite Hd1, Hd2. simpl.
  destruct d1 as [d1| |]; [| |by destruct (inv_above _ _ _ _ Hinv1 t)].
  - destruct (Hback _ _ _ _ _ _ _ Hinv1 Hinv2 Hfinal2 Hd1) as (d2' & Hd2' & Hle).
    rewrite Hd2 in Hd2'. injection Hd2' as ->.
    destruct (Hback _ _ _ _ _ _ _ Hinv2 Hinv1 Hfinal1 Hd2) as (d1' & Hd1' & Hle').
    rewrite Hd1 in Hd1'. injection Hd1' as <-. f_equal. lia.
  - destruct d2 as [d2| |]; [|done|by destruct (inv_above _ _ _ _ Hinv2 s)].
    destruct (Hback _ _ _ _ _ _ _ Hinv2 Hinv1 Hfinal1 Hd2) as (d1' & Hd1' & _).
    congruence.
Qed.


End results_further.

(** ** The rounded search on weights of any size and sign *)

Lemma path_weight64_snoc frac p e :
  path_weight64 frac (p ++ [e])
    = dist_add64 frac (path_weight64 frac p) (distance e).
Proof. unfold path_weight64. by rewrite foldl_snoc. Qed.

Section search64_any_weights.
Context `{PQ : PriorityQueue}.
Context (frac : nat) (g : Graph) (s t : string).
Hypothesis Hclosed : graph_closed g.

Lemma init_weak_inv64 :
  is_Some (g !! s) → weak_inv64 g s frac (init_state g s).
Proof.
  intros Hs.
  assert (Hq : pq_items (pq_push (QueueNode.mk s (Fin 0)) pq_new)
               = [QueueNode.mk s (Fin 0)]).
  { apply Permutation_singleton_r. rewrite pq_push_items.
    by rewrite pq_new_items. }
  unfold init_state. split_and!; simpl.
  - intros k Hk. destruct (decide (s = k)) as [<-|].
    + rewrite lookup_insert_eq. by eexists.
    + rewrite lookup_insert_ne, lookup_fmap by done. by apply fmap_is_Some.
  - intros v x. destruct (decide (s = v)) as [<-|].
    + rewrite lookup_insert_eq. intros [= <-]. right. by exists [].
    + rewrite lookup_insert_ne, lookup_fmap by done.
      destruct (g !! v); intros [= <-]. by left.
  - rewrite Hq. intros y ->%list_elem_of_singleton. simpl.
    split; [done|]. by exists [].
Qed.

Lemma relax64_weak_inv u x p st e :
  weak_inv64 g s frac st → walk g s p u → path_weight64 frac p = x →
  e ∈ getRoutes g u →
  weak_inv64 g s frac (relax64 frac (QueueNode.mk u x) st e).
Proof.
  intros (HD & Hsound & Hqueue) Hp Hx He.
  pose proof He as (routes & Hu & He')%elem_of_getRoutes.
  pose proof (graph_closed_lookup _ _ _ _ Hclosed Hu He') as Hv.
  destruct (HD _ Hv) as [dv Hdv].
  assert (Hwalk : walk g s (p ++ [e]) (destination e))
    by (by apply (walk_snoc _ _ _ u)).
  assert (Hweight : path_weight64 frac (p ++ [e])
                    = dist_add64 frac x (distance e))
    by (by rewrite path_weight64_snoc, Hx).
  unfold relax64, dist_at. cbn -[dist_ltb dist_add64].
  rewrite Hdv. cbn -[dist_ltb dist_add64].
  destruct (dist_ltb (dist_add64 frac x (distance e)) dv); split_and!;
    cbn -[dist_add64].
  - intros k Hk. destruct (decide (destination e = k)) as [<-|];
      [rewrite lookup_insert_eq; by eexists|].
    rewrite lookup_insert_ne by done. auto.
  - intros v y. destruct (decide (destination e = v)) as [<-|].
    + rewrite lookup_insert_eq. intros [= <-]. eauto.
    + rewrite lookup_insert_ne by done. apply Hsound.
  - intros y [->|Hy]%elem_of_pq_push; [|auto]. cbn -[dist_add64].
    split; [done|]. eauto.
  - intros k Hk. unfold dist_touch. destruct (decide (destination e = k))
      as [<-|]; [rewrite lookup_insert_eq; by eexists|].
    rewrite lookup_insert_ne by done. auto.
  - unfold dist_touch, dist_at. rewrite Hdv. simpl.
    by rewrite insert_id.
  - done.
Qed.

Lemma relax64_fold_weak_inv u x p pend st :
  weak_inv64 g s frac st → walk g s p u → path_weight64 frac p = x →
  (∀ e, e ∈ pend → e ∈ getRoutes g u) →
  weak_inv64 g s frac (foldl (relax64 frac (QueueNode.mk u x)) st pend).
Proof.
  intros Hst Hp Hx. revert st Hst.
  induction pend as [|e pend IH]; intros st Hst Hpend; [done|].
  simpl. apply IH.
  - eapply relax64_weak_inv; [done..|]. apply Hpend. by left.
  - intros e' He'. apply Hpend. by right.
Qed.

Lemma dijkstra_loop64_weak_inv fuel st st' :
  weak_inv64 g s frac st → dijkstra_loop64 frac fuel g t st = Some st' →
  weak_inv64 g s frac st'.
Proof.
  revert st. induction fuel as [|fuel IH]; intros st Hst Hrun; [done|].
  simpl in Hrun. destruct (pq_pop (pq st)) as [[[u x] rest]|] eqn:Hpop;
    [|by injection Hrun as <-].
  destruct Hst as (HD & Hsound & Hqueue).
  assert (Hrest : weak_inv64 g s frac
                    (mkState rest (distances st) (previous st))).
  { split_and!; simpl; [done..|]. intros y Hy. apply Hqueue.
    apply (elem_of_pq_pop _ _ _ _ Hpop). by right. }
  destruct (Hqueue (QueueNode.mk u x)) as (Hu & p & Hp & Hw).
  { apply (elem_of_pq_pop _ _ _ _ Hpop). by left. }
  simpl in Hu, Hp, Hw. simpl in Hrun.
  case_decide as Hut; [by injection Hrun as <-|].
  destruct (HD _ Hu) as [du Hdu].
  unfold dist_touch, dist_at in Hrun. rewrite Hdu in Hrun.
  cbn -[dist_ltb] in Hrun. rewrite insert_id in Hrun by done.
  destruct (dist_ltb du x); [by eapply IH|].
  eapply IH; [|exact Hrun]. by eapply relax64_fold_weak_inv.
Qed.

Lemma search64_sound fuel r :
  is_Some (g !! s) → is_Some (g !! t) →
  findShortestPath64 frac fuel g s t = Some r → totalDistance r ≠ Inf →
  ∃ p, walk g s p t ∧ path_weight64 frac p = totalDistance r.
Proof.
  intros Hs Ht. unfold findShortestPath64.
  apply hasAirport_true in Hs as Hs'. apply hasAirport_true in Ht as Ht'.
  rewrite Hs', Ht'. simpl.
  destruct (dijkstra_loop64 frac fuel g t (init_state g s)) as [st|] eqn:Hloop;
    [|done].
  simpl. destruct (reconstruct fuel (previous st) t []) as [pth|]; [|done].
  simpl. intros [= <-]. simpl.
  pose proof (dijkstra_loop64_weak_inv _ _ _ (init_weak_inv64 Hs) Hloop)
    as (HD & Hsound & _).
  destruct (HD _ Ht) as [dt Hdt]. rewrite Hdt.
  intros Hfin. by destruct (Hsound _ _ Hdt).
Qed.
End search64_any_weights.

(** ** Rounding keeps the order *)

Lemma nearest53_small z : Z.abs z < 2 ^ 53 → nearest53 z = z.
Proof.
  intros Hz. unfold nearest53.
  by destruct (Z.ltb_spec (Z.abs z) (2 ^ 53)); [|lia].
Qed.

(** Above [2^53] the result is one of the two neighbours of [z] among the
    multiples of [2^e], where [e] is the number of digits dropped. *)
Lemma nearest53_large z :
  2 ^ 53 ≤ z →
  ∃ q', nearest53 z = q' * 2 ^ (Z.log2 z - 52) ∧
    z / 2 ^ (Z.log2 z - 52) ≤ q' ≤ z / 2 ^ (Z.log2 z - 52) + 1.
Proof.
  intros Hz. assert (0 < z) by lia.
  unfold nearest53. rewrite Z.abs_eq by lia.
  destruct (Z.ltb_spec z (2 ^ 53)); [lia|]. cbv zeta.
  rewrite Z.sgn_pos, Z.mul_1_l by done.
  set (e := Z.log2 z - 52). set (q := z / 2 ^ e).
  destruct (z mod 2 ^ e <? 2 ^ (e - 1)); [exists q; lia|].
  destruct (2 ^ (e - 1) <? z mod 2 ^ e); [exists (q + 1); lia|].
  destruct (Z.even q); [exists q|exists (q + 1)]; lia.
Qed.

Lemma log2_large z : 2 ^ 53 ≤ z → 53 ≤ Z.log2 z.
Proof. intros Hz. by apply Z.log2_le_pow2; [lia|]. Qed.

Lemma quotient_large z :
  2 ^ 53 ≤ z → 2 ^ 52 ≤ z / 2 ^ (Z.log2 z - 52) < 2 ^ 53.
Proof.
  intros Hz. pose proof (log2_large z Hz) as Hlog.
  destruct (Z.log2_spec z) as [Hlo Hhi]; [lia|].
  set (e := Z.log2 z - 52) in *.
  assert (He : 0 < 2 ^ e) by (apply Z.pow_pos_nonneg; lia).
  replace (Z.log2 z) with (52 + e) in Hlo by lia.
  replace (Z.succ (Z.log2 z)) with (53 + e) in Hhi by lia.
  rewrite Z.pow_add_r in Hlo, Hhi by lia. split.
  - apply Z.div_le_lower_bound; lia.
  - apply Z.div_lt_upper_bound; lia.
Qed.

Lemma nearest53_nonneg z : 0 ≤ z → 0 ≤ nearest53 z.
Proof.
  intros Hz. destruct (Z.lt_ge_cases z (2 ^ 53)) as [Hlt|Hge].
  - rewrite nearest53_small; lia.
  - destruct (nearest53_large z Hge) as (q' & -> & Hq').
    pose proof (quotient_large z Hge).
    pose proof (log2_large z Hge).
    assert (0 < 2 ^ (Z.log2 z - 52)) by (apply Z.pow_pos_nonneg; lia). nia.
Qed.

(** A number that rounding keeps is a multiple of the weight of its last
    digit, and conversely. *)
Lemma nearest53_fixed_multiple d :
  2 ^ 53 ≤ d → nearest53 d = d → d mod 2 ^ (Z.log2 d - 52) = 0.
Proof.
  intros Hd Hfix. destruct (nearest53_large d Hd) as (q' & Heq & _).
  rewrite Hfix in Heq. rewrite Heq at 1. apply Z.mod_mul.
  pose proof (log2_large d Hd).
  assert (0 < 2 ^ (Z.log2 d - 52)) by (apply Z.pow_pos_nonneg; lia). lia.
Qed.

Lemma nearest53_multiple_fixed d :
  2 ^ 53 ≤ d → d mod 2 ^ (Z.log2 d - 52) = 0 → nearest53 d = d.
Proof.
  intros Hd Hmod. pose proof (log2_large d Hd).
  unfold nearest53. rewrite Z.abs_eq by lia.
  destruct (Z.ltb_spec d (2 ^ 53)); [lia|]. cbv zeta.
  rewrite Z.sgn_pos, Z.mul_1_l by lia. rewrite Hmod.
  assert (0 < 2 ^ (Z.log2 d - 52 - 1)) by (apply Z.pow_pos_nonneg; lia).
  destruct (Z.ltb_spec 0 (2 ^ (Z.log2 d - 52 - 1))); [|lia].
  assert (0 < 2 ^ (Z.log2 d - 52)) by (apply Z.pow_pos_nonneg; lia).
  rewrite Z.mul_comm. symmetry. apply Z.div_exact; lia.
Qed.

Lemma nearest53_idem z : 0 ≤ z → nearest53 (nearest53 z) = nearest53 z.
Proof.
  intros Hz. destruct (Z.lt_ge_cases z (2 ^ 53)) as [Hlt|Hge].
  - by do 2 rewrite (nearest53_small z) by lia.
  - destruct (nearest53_large z Hge) as (q' & Heq & Hq').
    pose proof (quotient_large z Hge) as Hq.
    pose proof (log2_large z Hge) as Hlog.
    set (e := Z.log2 z - 52) in *.
    assert (He : 0 < 2 ^ e) by (apply Z.pow_pos_nonneg; lia).
    rewrite Heq.
    assert (Hm : 2 ^ 53 ≤ q' * 2 ^ e).
    { replace 53 with (52 + 1) by done. rewrite Z.pow_add_r by lia.
      assert (2 ^ 1 ≤ 2 ^ e) by (apply Z.pow_le_mono_r; lia). nia. }
    apply nearest53_multiple_fixed; [done|].
    rewrite Z.log2_mul_pow2 by lia.
    destruct (decide (q' = 2 ^ 53)) as [->|Hne].
    + rewrite Z.log2_pow2 by lia.
      replace (e + 53 - 52) with (e + 1) by lia.
      replace 53 with (52 + 1) by done.
      rewrite <-Z.pow_add_r by lia.
      replace (52 + 1 + e) with (52 + (e + 1)) by lia.
      rewrite Z.pow_add_r by lia. apply Z.mod_mul.
      assert (0 < 2 ^ (e + 1)) by (apply Z.pow_pos_nonneg; lia). lia.
    + assert (Z.log2 q' = 52) as ->.
      { apply Z.log2_unique; [lia|]. change (Z.succ 52) with 53. lia. }
      replace (e + 52 - 52) with e by lia. apply Z.mod_mul. lia.
Qed.

(** Adding a non-negative number to a [double] and rounding does not go
    below it. *)
Lemma nearest53_add_le d w :
  0 ≤ d → nearest53 d = d → 0 ≤ w → d ≤ nearest53 (d + w).
Proof.
  intros Hd Hfix Hw.
  destruct (Z.lt_ge_cases (d + w) (2 ^ 53)) as [Hlt|Hge].
  { rewrite nearest53_small; lia. }
  destruct (nearest53_large _ Hge) as (q' & -> & Hq').
  pose proof (quotient_large _ Hge) as Hq.
  pose proof (log2_large _ Hge) as Hlog.
  set (z := d + w) in *. set (e := Z.log2 z - 52) in *.
  assert (He : 0 < 2 ^ e) by (apply Z.pow_pos_nonneg; lia).
  cut (d ≤ z / 2 ^ e * 2 ^ e); [nia|].
  assert (Hbig : 2 ^ (52 + e) ≤ z / 2 ^ e * 2 ^ e)
    by (rewrite Z.pow_add_r by lia; nia).
  destruct (Z.lt_ge_cases d (2 ^ 53)) as [Hdlt|Hdge].
  { assert (2 ^ 53 ≤ 2 ^ (52 + e)) by (apply Z.pow_le_mono_r; lia). lia. }
  pose proof (nearest53_fixed_multiple d Hdge Hfix) as Hmod.
  pose proof (log2_large d Hdge) as Hdlog.
  assert (Hmono : Z.log2 d ≤ Z.log2 z) by (apply Z.log2_le_mono; lia).
  destruct (decide (Z.log2 d = Z.log2 z)) as [Heq|Hne].
  - rewrite Heq in Hmod. fold e in Hmod.
    apply Z.mod_divide in Hmod as [c Hc]; [|lia].
    assert (c ≤ z / 2 ^ e) by (apply Z.div_le_lower_bound; lia). nia.
  - destruct (Z.log2_spec d) as [_ Hhi]; [lia|].
    assert (2 ^ Z.succ (Z.log2 d) ≤ 2 ^ (52 + e))
      by (apply Z.pow_le_mono_r; lia).
    lia.
Qed.

Lemma nearest53_upper z :
  2 ^ 53 ≤ z → nearest53 z ≤ 2 ^ (Z.log2 z + 1).
Proof.
  intros Hz. destruct (nearest53_large z Hz) as (q' & -> & Hq').
  pose proof (quotient_large z Hz) as Hq.
  pose proof (log2_large z Hz) as Hlog.
  assert (He : 0 < 2 ^ (Z.log2 z - 52)) by (apply Z.pow_pos_nonneg; lia).
  replace (Z.log2 z + 1) with (53 + (Z.log2 z - 52)) by lia.
  rewrite Z.pow_add_r by lia. nia.
Qed.

Lemma nearest53_lower z :
  2 ^ 53 ≤ z → 2 ^ Z.log2 z ≤ nearest53 z.
Proof.
  intros Hz. destruct (nearest53_large z Hz) as (q' & -> & Hq').
  pose proof (quotient_large z Hz) as Hq.
  pose proof (log2_large z Hz) as Hlog.
  assert (He : 0 < 2 ^ (Z.log2 z - 52)) by (apply Z.pow_pos_nonneg; lia).
  replace (Z.log2 z) with (52 + (Z.log2 z - 52)) at 1 by lia.
  rewrite Z.pow_add_r by lia. nia.
Qed.

(** Rounding keeps the order of numbers that are not negative. *)
Lemma nearest53_mono a b : 0 ≤ a ≤ b → nearest53 a ≤ nearest53 b.
Proof.
  intros [Ha Hab].
  destruct (Z.lt_ge_cases b (2 ^ 53)) as [Hb|Hb].
  { rewrite !nearest53_small by lia. done. }
  pose proof (nearest53_lower b Hb) as Hlow.
  pose proof (log2_large b Hb) as Hlogb.
  destruct (Z.lt_ge_cases a (2 ^ 53)) as [Ha53|Ha53].
  { rewrite (nearest53_small a) by lia.
    assert (2 ^ 53 ≤ 2 ^ Z.log2 b) by (apply Z.pow_le_mono_r; lia). lia. }
  pose proof (log2_large a Ha53) as Hloga.
  assert (Hmono : Z.log2 a ≤ Z.log2 b) by (apply Z.log2_le_mono; lia).
  destruct (decide (Z.log2 a = Z.log2 b)) as [Heq|Hne]; cycle 1.
  { pose proof (nearest53_upper a Ha53).
    assert (2 ^ (Z.log2 a + 1) ≤ 2 ^ Z.log2 b)
      by (apply Z.pow_le_mono_r; lia).
    lia. }
  unfold nearest53. rewrite !Z.abs_eq by lia.
  destruct (Z.ltb_spec a (2 ^ 53)); [lia|].
  destruct (Z.ltb_spec b (2 ^ 53)); [lia|]. cbv zeta.
  rewrite !Z.sgn_pos, !Z.mul_1_l by lia. rewrite Heq.
  set (e := Z.log2 b - 52).
  assert (He : 0 < 2 ^ e) by (apply Z.pow_pos_nonneg; lia).
  pose proof (Z.div_mod a (2 ^ e) ltac:(lia)) as Hdiva.
  pose proof (Z.div_mod b (2 ^ e) ltac:(lia)) as Hdivb.
  pose proof (Z.mod_pos_bound a (2 ^ e) He) as Hra.
  pose proof (Z.mod_pos_bound b (2 ^ e) He) as Hrb.
  assert (Hq : a / 2 ^ e ≤ b / 2 ^ e) by (apply Z.div_le_mono; lia).
  set (qa := a / 2 ^ e) in *. set (qb := b / 2 ^ e) in *.
  set (ra := a mod 2 ^ e) in *. set (rb := b mod 2 ^ e) in *.
  set (half := 2 ^ (e - 1)).
  apply Z.mul_le_mono_nonneg_r; [lia|].
  destruct (decide (qa = qb)) as [Hqq|Hqq].
  - assert (ra ≤ rb) by nia. rewrite Hqq.
    destruct (Z.ltb_spec ra half), (Z.ltb_spec rb half),
      (Z.ltb_spec half ra), (Z.ltb_spec half rb), (Z.even qb); lia.
  - assert (qa + 1 ≤ qb) by lia.
    destruct (ra <? half), (rb <? half), (half <? ra), (half <? rb),
      (Z.even qa), (Z.even qb); lia.
Qed.

(** ** The order on rounded distances *)

Lemma dist_le_antisym a b : dist_le a b → dist_le b a → a = b.
Proof.
  destruct a, b; rewrite ?dist_le_fin; try done. intros. f_equal. lia.
Qed.

Lemma dist_le_ne_lt a b : dist_le a b → a ≠ b → dist_ltb a b = true.
Proof.
  destruct a as [x| |], b as [y| |]; rewrite ?dist_le_fin; try done.
  intros Hle Hne. apply dist_ltb_lt.
  assert (x ≠ y) by congruence. lia.
Qed.

Lemma dist_lt_le_trans a b c :
  dist_ltb a b = true → dist_le b c → dist_ltb a c = true.
Proof.
  destruct a, b, c; rewrite ?dist_le_fin, ?dist_ltb_lt; try done; lia.
Qed.

Lemma dist_lt_not_le a b : dist_ltb a b = true → ¬ dist_le b a.
Proof. unfold dist_le. congruence. Qed.

Lemma dist_ok_not_below_zero x : dist_ok x → dist_ltb x (Fin 0) = false.
Proof. destruct x; simpl; [|done..]. intros [? _]. apply Z.ltb_ge. lia. Qed.

Lemma dist_add64_ok frac x w :
  dist_ok x → 0 ≤ w →
  dist_ok (dist_add64 frac x w) ∧ dist_le x (dist_add64 frac x w).
Proof.
  destruct x as [d| |]; [|done..]. intros [Hd Hfix] Hw. simpl.
  unfold round53.
  pose proof (nearest53_add_le d w Hd Hfix Hw) as Hle.
  destruct (Z.leb_spec (2 ^ (1024 + Z.of_nat frac))
              (Z.abs (nearest53 (d + w)))) as [Hover|_].
  - destruct (Z.ltb_spec 0 (d + w)) as [|Hzero]; [done|].
    assert (d + w = 0) as Heq by lia. rewrite Heq in Hover.
    assert (0 < 2 ^ (1024 + Z.of_nat frac))
      by (apply Z.pow_pos_nonneg; lia).
    change (Z.abs (nearest53 0)) with 0 in Hover. lia.
  - split; [split; [lia|apply nearest53_idem; lia]|].
    by apply dist_le_fin.
Qed.

Lemma dist_le_inf_r a : dist_le a Inf.
Proof. done. Qed.

Lemma dist_add64_mono frac a b w :
  dist_ok a → dist_ok b → 0 ≤ w → dist_le a b →
  dist_le (dist_add64 frac a w) (dist_add64 frac b w).
Proof.
  destruct a as [x| |], b as [y| |]; try done.
  intros [Hx _] [Hy _] Hw Hle%dist_le_fin. simpl. unfold round53.
  pose proof (nearest53_mono (x + w) (y + w) ltac:(lia)) as Hmono.
  pose proof (nearest53_nonneg (x + w) ltac:(lia)) as H0.
  assert (Htop : 0 < 2 ^ (1024 + Z.of_nat frac))
    by (apply Z.pow_pos_nonneg; lia).
  assert (Hzero : nearest53 0 = 0) by done.
  rewrite !Z.abs_eq by lia.
  destruct (Z.leb_spec (2 ^ (1024 + Z.of_nat frac)) (nearest53 (x + w))),
    (Z.leb_spec (2 ^ (1024 + Z.of_nat frac)) (nearest53 (y + w)));
    try lia.
  - destruct (Z.ltb_spec 0 (x + w)), (Z.ltb_spec 0 (y + w)); done || lia.
  - destruct (Z.ltb_spec 0 (y + w)); [done|].
    assert (y + w = 0) as Heq by lia. rewrite Heq in *. lia.
  - by apply dist_le_fin.
Qed.

Lemma path_weight64_ok frac g u p v :
  graph_nonneg g → walk g u p v → dist_ok (path_weight64 frac p).
Proof.
  intros Hnn Hp. apply (walk_edges_nonneg _ _ _ _ Hnn) in Hp. clear u v.
  induction p as [|e p IH] using rev_ind; [by split|].
  apply Forall_app in Hp as [Hp He]. apply Forall_inv in He.
  rewrite path_weight64_snoc.
  by destruct (dist_add64_ok frac _ _ (IH Hp) He).
Qed.

Lemma dist_add64_inf frac x w : dist_add64 frac x w ≠ Inf → x ≠ Inf.
Proof. by intros H ->. Qed.

(** ** The rounded search on weights of any size *)

Section search64_correct.
Context `{PQ : PriorityQueue}.
Context (frac : nat) (g : Graph) (s t : string).
Hypothesis Hclosed : graph_closed g.
Hypothesis Hnonneg : graph_nonneg g.

Lemma pq_pop_least64 q x q' y :
  pq_pop q = Some (x, q') → y ∈ pq_items q' →
  dist_le (QueueNode.distance x) (QueueNode.distance y).
Proof.
  intros [_ Hmin]%pq_pop_Some Hy.
  eapply Forall_forall in Hmin; [|exact Hy]. exact Hmin.
Qed.

Lemma relax64_scanning u x L e st :
  scanning64 frac g s u x L st → e ∈ getRoutes g u →
  scanning64 frac g s u x L (relax64 frac (QueueNode.mk u x) st e).
Proof.
  intros [Hinv Hcur Hin Hbelow] He.
  pose proof He as (routes & Hu & He')%elem_of_getRoutes.
  pose proof (graph_nonneg_lookup _ _ _ _ Hnonneg Hu He') as Hw.
  pose proof (graph_closed_lookup _ _ _ _ Hclosed Hu He') as Hv.
  destruct (dist_add64_ok frac x (distance e)
              (inv64_ok _ _ _ _ _ Hinv _ _ Hcur) Hw) as [Hok Hle].
  apply (inv64_dom _ _ _ _ _ Hinv) in Hv as Hdv. destruct Hdv as [dv Hdv].
  destruct e as [v w]. simpl in *.
  unfold relax64, dist_at. cbn -[dist_ltb dist_add64]. rewrite Hdv.
  cbn -[dist_ltb dist_add64].
  set (new := dist_add64 frac x w) in *.
  destruct (dist_ltb new dv) eqn:Hlt.
  - assert (HvL : v ∉ L).
    { intros HvL. destruct (Hbelow _ HvL) as (xv & Hxv & Hlev).
      rewrite Hdv in Hxv. injection Hxv as <-.
      apply (dist_lt_not_le _ _ Hlt). by eapply dist_le_trans. }
    assert (Hvu : v ≠ u) by (by intros ->).
    assert (Hvs : v ≠ s).
    { intros ->. rewrite (inv64_src _ _ _ _ _ Hinv) in Hdv.
      injection Hdv as <-. by rewrite dist_ok_not_below_zero in Hlt. }
    assert (Hnew : new ≠ Inf) by (intros Heq; rewrite Heq in Hlt; done).
    assert (Hx : x ≠ Inf) by (by eapply dist_add64_inf).
    assert (Hfresh : QueueNode.mk v new ∉ pq_items (pq st)).
    { intros Hq. destruct (inv64_queue _ _ _ _ _ Hinv _ Hq)
        as (_ & a & Ha & Hlea). simpl in *.
      rewrite Hdv in Ha. injection Ha as <-.
      by apply (dist_lt_not_le _ _ Hlt). }
    split; [split|..]; cbn -[dist_add64].
    + intros k. rewrite <-(inv64_dom _ _ _ _ _ Hinv).
      destruct (decide (v = k)) as [<-|];
        [rewrite lookup_insert_eq, Hdv; by split; eauto
        |by rewrite lookup_insert_ne].
    + rewrite lookup_insert_ne by done. apply (inv64_src _ _ _ _ _ Hinv).
    + intros k y. destruct (decide (v = k)) as [<-|].
      * rewrite lookup_insert_eq. by intros [= <-].
      * rewrite lookup_insert_ne by done. apply (inv64_ok _ _ _ _ _ Hinv).
    + intros k y. destruct (decide (v = k)) as [<-|].
      * rewrite lookup_insert_eq. intros [= <-] _.
        destruct (inv64_walk _ _ _ _ _ Hinv _ _ Hcur Hx) as (p & Hp & Hwp).
        exists (p ++ [mkEdge v w]). split.
        -- by apply (walk_snoc _ _ _ _ (mkEdge v w) Hp).
        -- by rewrite path_weight64_snoc, Hwp.
      * rewrite lookup_insert_ne by done. apply (inv64_walk _ _ _ _ _ Hinv).
    + intros y [->|Hy]%elem_of_pq_push.
      * cbn -[dist_add64]. split; [done|]. rewrite lookup_insert_eq.
        eexists. split; [done|]. apply dist_le_refl.
      * destruct (inv64_queue _ _ _ _ _ Hinv _ Hy) as (Hoky & a & Ha & Hlea).
        split; [done|].
        destruct (decide (v = QueueNode.airportId y)) as [Heq|].
        -- rewrite <-Heq in *. rewrite lookup_insert_eq.
           rewrite Hdv in Ha. injection Ha as <-.
           eexists. split; [done|].
           eapply dist_le_trans; [|exact Hlea]. by apply dist_ltb_true_le.
        -- rewrite lookup_insert_ne by done. eauto.
    + apply NoDup_pq_push; [done|]. apply (inv64_nodup _ _ _ _ _ Hinv).
    + intros k Hk. assert (v ≠ k) by (by intros <-).
      rewrite lookup_insert_ne by done.
      destruct (inv64_settled _ _ _ _ _ Hinv _ Hk) as (xk & Hxk & Hmin).
      exists xk. split; [done|].
      intros y [->|Hy]%elem_of_pq_push; [|by apply Hmin].
      cbn -[dist_add64].
      destruct (Hbelow _ Hk) as (xk' & Hxk' & Hlek). simplify_eq.
      by eapply dist_le_trans.
    + intros y a [->|Hy]%elem_of_pq_push HyL; [done|].
      assert (v ≠ QueueNode.airportId y)
        by (intros Heq; by rewrite <-Heq in HyL).
      rewrite lookup_insert_ne by done. by apply (inv64_stale _ _ _ _ _ Hinv).
    + intros k. rewrite <-(inv64_prev_dom _ _ _ _ _ Hinv).
      destruct (decide (v = k)) as [<-|];
        [|by rewrite lookup_insert_ne].
      rewrite lookup_insert_eq. split; [intros _|by eauto].
      by apply (inv64_prev_dom _ _ _ _ _ Hinv).
    + intros k z. destruct (decide (v = k)) as [<-|].
      * rewrite lookup_insert_eq. intros [= <-] _. split; [done|].
        intros l1 l2 ->. destruct HvL. set_solver.
      * rewrite lookup_insert_ne by done. apply (inv64_prev _ _ _ _ _ Hinv).
    + intros k. destruct (decide (v = k)) as [<-|].
      * rewrite lookup_insert_eq. by intros [= ?].
      * rewrite !lookup_insert_ne by done.
        apply (inv64_prev_inf _ _ _ _ _ Hinv).
    + rewrite lookup_insert_ne by done.
      apply (inv64_prev_src _ _ _ _ _ Hinv).
    + apply (inv64_L_nodup _ _ _ _ _ Hinv).
    + intros k z. destruct (decide (v = k)) as [<-|Hvk].
      * rewrite lookup_insert_eq. intros [= <-] _. exists w, x.
        rewrite lookup_insert_ne, lookup_insert_eq by done. done.
      * rewrite lookup_insert_ne by done. intros Hk Hz.
        destruct (inv64_links _ _ _ _ _ Hinv _ _ Hk Hz)
          as (w' & xz & Hin' & Hxz & Hxk).
        destruct (inv64_prev _ _ _ _ _ Hinv _ _ Hk Hz) as [HzL _].
        assert (v ≠ z) by (by intros <-).
        exists w', xz. by rewrite !lookup_insert_ne.
    + intros Hempty k y. destruct (decide (v = k)) as [<-|Hvk].
      * rewrite !lookup_insert_eq. intros _ _ [= ->].
        rewrite Hempty in Hu. done.
      * rewrite !lookup_insert_ne by done.
        by apply (inv64_root _ _ _ _ _ Hinv).
    + by rewrite lookup_insert_ne.
    + done.
    + intros k Hk. assert (v ≠ k) by (by intros <-).
      rewrite lookup_insert_ne by done. auto.
  - unfold dist_touch, dist_at. rewrite Hdv. simpl.
    rewrite insert_id by done.
    replace (mkState (pq st) (distances st) (previous st)) with st
      by (by destruct st).
    done.
Qed.

Lemma relax64_relaxed u x L e pend st :
  scanning64 frac g s u x L st → e ∈ getRoutes g u →
  relaxed64 frac g (e :: pend) u st →
  relaxed64 frac g pend u (relax64 frac (QueueNode.mk u x) st e).
Proof.
  intros [Hinv Hcur Hin Hbelow] He Hrel.
  pose proof He as (routes & Hu & He')%elem_of_getRoutes.
  pose proof (graph_closed_lookup _ _ _ _ Hclosed Hu He') as Hv.
  apply (inv64_dom _ _ _ _ _ Hinv) in Hv as Hdv. destruct Hdv as [dv Hdv].
  destruct e as [v w]. simpl in *.
  unfold relax64, dist_at. cbn -[dist_ltb dist_add64]. rewrite Hdv.
  cbn -[dist_ltb dist_add64].
  set (new := dist_add64 frac x w) in *.
  destruct (dist_ltb new dv) eqn:Hlt.
  - intros x0 routes' e' dx Hx0 He0. cbn -[dist_add64].
    destruct (decide (v = x0)) as [<-|Hvx].
    { rewrite lookup_insert_eq. intros [= <-] _. right. left.
      apply elem_of_pq_push. by left. }
    rewrite lookup_insert_ne by done. intros Hdx Hfin.
    destruct (Hrel _ _ _ _ Hx0 He0 Hdx Hfin)
      as [(dy & Hdy & Hle)|[Hq|[-> [->|Hpend]%elem_of_cons]]].
    + left. destruct (decide (v = destination e')) as [Heq|].
      * rewrite <-Heq in *. rewrite lookup_insert_eq.
        rewrite Hdv in Hdy. injection Hdy as <-.
        eexists. split; [done|].
        eapply dist_le_trans; [|exact Hle]. by apply dist_ltb_true_le.
      * rewrite lookup_insert_ne by done. eauto.
    + right. left. apply elem_of_pq_push. by right.
    + left. cbn -[dist_add64]. rewrite lookup_insert_eq.
      eexists. split; [done|]. simplify_eq. apply dist_le_refl.
    + right. right. done.
  - unfold dist_touch, dist_at. rewrite Hdv. simpl.
    rewrite insert_id by done.
    intros x0 routes' e' dx Hx0 He0 Hdx Hfin. simpl in *.
    destruct (Hrel _ _ _ _ Hx0 He0 Hdx Hfin)
      as [?|[?|[-> [->|Hpend]%elem_of_cons]]]; [by left|by right; left|..].
    + left. simpl. exists dv. split; [done|]. simplify_eq. done.
    + right. right. done.
Qed.

Lemma relax64_fold_relaxed u x L pend st :
  scanning64 frac g s u x L st → (∀ e, e ∈ pend → e ∈ getRoutes g u) →
  relaxed64 frac g pend u st →
  relaxed64 frac g [] ""
    (foldl (relax64 frac (QueueNode.mk u x)) st pend).
Proof.
  revert st. induction pend as [|e pend IH]; intros st Hsc Hpend Hrel.
  - intros x0 routes e dx Hx0 He Hdx Hfin.
    destruct (Hrel _ _ _ _ Hx0 He Hdx Hfin) as [?|[?|[_ []%elem_of_nil]]];
      auto.
  - simpl. apply IH.
    + apply relax64_scanning; [done|]. apply Hpend. by left.
    + intros e' He'. apply Hpend. by right.
    + eapply relax64_relaxed; [done| |done]. apply Hpend. by left.
Qed.

Lemma relaxed64_pop_stale st u x x' rest :
  relaxed64 frac g [] "" st →
  pq_pop (pq st) = Some (QueueNode.mk u x, rest) →
  distances st !! u = Some x' → dist_ltb x' x = true →
  relaxed64 frac g [] "" (mkState rest (distances st) (previous st)).
Proof.
  intros Hrel Hpop Hu Hlt x0 routes e dx Hx0 He Hdx Hfin. simpl in *.
  destruct (Hrel _ _ _ _ Hx0 He Hdx Hfin) as [?|[Hq|[_ []%elem_of_nil]]];
    [by left|].
  right. left. apply (elem_of_pq_pop _ _ _ _ Hpop) in Hq as [Heq|?]; [|done].
  injection Heq as -> ->. rewrite Hu in Hdx. injection Hdx as ->.
  by rewrite (dist_le_refl x) in Hlt.
Qed.

Lemma relaxed64_start st u x rest :
  relaxed64 frac g [] "" st →
  pq_pop (pq st) = Some (QueueNode.mk u x, rest) →
  relaxed64 frac g (getRoutes g u) u
    (mkState rest (distances st) (previous st)).
Proof.
  intros Hrel Hpop x0 routes e dx Hx0 He Hdx Hfin. simpl in *.
  destruct (Hrel _ _ _ _ Hx0 He Hdx Hfin) as [?|[Hq|[_ []%elem_of_nil]]];
    [by left|].
  apply (elem_of_pq_pop _ _ _ _ Hpop) in Hq as [Heq|?]; [|by right; left].
  right. right. simplify_eq. split; [done|].
  apply elem_of_getRoutes. eauto.
Qed.

(** A walk of rounded weight [W] from the source ends at a node whose
    tentative distance is at most [W], unless something at most [W] is
    queued. *)
Lemma walk_covered64 L st p v :
  inv64 frac g s L st → relaxed64 frac g [] "" st → walk g s p v →
  (∃ xv, distances st !! v = Some xv ∧
     dist_le xv (path_weight64 frac p)) ∨
  (∃ y, y ∈ pq_items (pq st) ∧
     dist_le (QueueNode.distance y) (path_weight64 frac p)).
Proof.
  intros Hinv Hrel. revert v.
  induction p as [|e p IH] using rev_ind; intros v Hwalk.
  - simpl in Hwalk. subst v. left. exists (Fin 0). split; [|done].
    apply (inv64_src _ _ _ _ _ Hinv).
  - apply walk_snoc_inv in Hwalk as (x & Hp & He & <-).
    rewrite path_weight64_snoc.
    pose proof (path_weight64_ok frac _ _ _ _ Hnonneg Hp) as Hok.
    apply elem_of_getRoutes in He as (routes & Hx & He).
    pose proof (graph_nonneg_lookup _ _ _ _ Hnonneg Hx He) as Hw.
    pose proof (graph_closed_lookup _ _ _ _ Hclosed Hx He) as Hv.
    destruct (dist_add64_ok frac _ _ Hok Hw) as [_ Hinfl].
    destruct (IH _ Hp) as [(dx & Hdx & Hle)|(y & Hy & Hle)].
    + destruct (decide (dx = Inf)) as [->|Hfin].
      { apply dist_le_inf_l in Hle. rewrite Hle. simpl. left.
        apply (inv64_dom _ _ _ _ _ Hinv) in Hv as [xv Hxv]. by exists xv. }
      destruct (Hrel _ _ _ _ Hx He Hdx Hfin)
        as [(dy & Hdy & Hle')|[Hq|[_ []%elem_of_nil]]].
      * left. exists dy. split; [done|].
        eapply dist_le_trans; [exact Hle'|].
        apply dist_add64_mono; [|done..].
        by apply (inv64_ok _ _ _ _ _ Hinv _ _ Hdx).
      * right. eexists. split; [exact Hq|]. simpl.
        by eapply dist_le_trans.
    + right. exists y. split; [done|]. by eapply dist_le_trans.
Qed.

Lemma relax64_fold_scanning u x L pend st :
  scanning64 frac g s u x L st → (∀ e, e ∈ pend → e ∈ getRoutes g u) →
  scanning64 frac g s u x L (foldl (relax64 frac (QueueNode.mk u x)) st pend).
Proof.
  revert st. induction pend as [|e pend IH]; intros st Hsc Hpend; [done|].
  simpl. apply IH.
  - apply relax64_scanning; [done|]. apply Hpend. by left.
  - intros e' He'. apply Hpend. by right.
Qed.

Lemma relax64_fold_length cur pend st :
  (length (pq_items (pq (foldl (relax64 frac cur) st pend)))
     ≤ length (pq_items (pq st)) + length pend)%nat.
Proof.
  revert st. induction pend as [|e pend IH]; intros st; simpl; [lia|].
  etrans; [apply IH|]. unfold relax64.
  destruct (dist_ltb _ _); simpl; [rewrite length_pq_push|]; lia.
Qed.

Lemma inv64_pop L st y rest :
  inv64 frac g s L st → pq_pop (pq st) = Some (y, rest) →
  inv64 frac g s L (mkState rest (distances st) (previous st)).
Proof.
  intros Hinv Hpop.
  assert (Hsub : ∀ z, z ∈ pq_items rest → z ∈ pq_items (pq st))
    by (intros z Hz; apply (elem_of_pq_pop _ _ _ z Hpop); by right).
  split; simpl.
  - apply (inv64_dom _ _ _ _ _ Hinv).
  - apply (inv64_src _ _ _ _ _ Hinv).
  - apply (inv64_ok _ _ _ _ _ Hinv).
  - apply (inv64_walk _ _ _ _ _ Hinv).
  - intros z Hz. apply (inv64_queue _ _ _ _ _ Hinv). auto.
  - eapply NoDup_pq_pop; [exact Hpop|]. apply (inv64_nodup _ _ _ _ _ Hinv).
  - intros k Hk.
    destruct (inv64_settled _ _ _ _ _ Hinv _ Hk) as (xk & ? & Hmin).
    exists xk. split; [done|]. intros z Hz. apply Hmin. auto.
  - intros z a Hz. apply (inv64_stale _ _ _ _ _ Hinv). auto.
  - apply (inv64_prev_dom _ _ _ _ _ Hinv).
  - apply (inv64_prev _ _ _ _ _ Hinv).
  - apply (inv64_prev_inf _ _ _ _ _ Hinv).
  - apply (inv64_prev_src _ _ _ _ _ Hinv).
  - apply (inv64_L_nodup _ _ _ _ _ Hinv).
  - apply (inv64_links _ _ _ _ _ Hinv).
  - apply (inv64_root _ _ _ _ _ Hinv).
Qed.

Lemma scanning64_start L st u x rest :
  inv64 frac g s L st →
  pq_pop (pq st) = Some (QueueNode.mk u x, rest) →
  distances st !! u = Some x →
  u ∉ L ∧
  scanning64 frac g s u x (u :: L)
    (mkState rest (distances st) (previous st)).
Proof.
  intros Hinv Hpop Hu.
  assert (Hhead : QueueNode.mk u x ∈ pq_items (pq st))
    by (apply (elem_of_pq_pop _ _ _ _ Hpop); by left).
  assert (HuL : u ∉ L).
  { intros HuL.
    pose proof (inv64_stale _ _ _ _ _ Hinv _ x Hhead HuL Hu) as Hlt.
    simpl in Hlt. by rewrite (dist_le_refl x) in Hlt. }
  pose proof (inv64_pop _ _ _ _ Hinv Hpop) as Hinv'.
  destruct (NoDup_pq_pop _ _ _ Hpop (inv64_nodup _ _ _ _ _ Hinv))
    as [Hnotin _].
  split; [done|]. split; [split|..]; simpl.
  - apply (inv64_dom _ _ _ _ _ Hinv).
  - apply (inv64_src _ _ _ _ _ Hinv).
  - apply (inv64_ok _ _ _ _ _ Hinv).
  - apply (inv64_walk _ _ _ _ _ Hinv).
  - apply (inv64_queue _ _ _ _ _ Hinv').
  - apply (inv64_nodup _ _ _ _ _ Hinv').
  - intros k [->|Hk]%elem_of_cons;
      [|by apply (inv64_settled _ _ _ _ _ Hinv')].
    exists x. split; [done|]. intros y Hy.
    apply (pq_pop_least64 _ _ _ _ Hpop Hy).
  - intros y a Hy [Heq|HyL]%elem_of_cons Ha;
      [|by eapply (inv64_stale _ _ _ _ _ Hinv')].
    destruct (inv64_queue _ _ _ _ _ Hinv' _ Hy) as (_ & a' & Ha' & Hle).
    simpl in *. rewrite Ha in Ha'. injection Ha' as <-.
    rewrite Heq, Hu in Ha. injection Ha as <-.
    apply dist_le_ne_lt; [done|]. intros Hxy. apply Hnotin.
    by destruct y; simpl in *; subst.
  - apply (inv64_prev_dom _ _ _ _ _ Hinv).
  - intros v z Hv Hz.
    destruct (inv64_prev _ _ _ _ _ Hinv _ _ Hv Hz) as [HzL Hord].
    split; [by right|]. intros [|y l1] l2 Heq; simplify_eq/=; [done|].
    by eapply Hord.
  - apply (inv64_prev_inf _ _ _ _ _ Hinv).
  - apply (inv64_prev_src _ _ _ _ _ Hinv).
  - constructor; [done|]. apply (inv64_L_nodup _ _ _ _ _ Hinv).
  - apply (inv64_links _ _ _ _ _ Hinv).
  - apply (inv64_root _ _ _ _ _ Hinv).
  - done.
  - by left.
  - intros k [->|Hk]%elem_of_cons;
      [exists x; split; [done|apply dist_le_refl]|].
    destruct (inv64_settled _ _ _ _ _ Hinv _ Hk) as (xk & Hxk & Hmin).
    exists xk. split; [done|]. by apply (Hmin _ Hhead).
Qed.

Lemma dijkstra_loop64_ok fuel L st :
  inv64 frac g s L st → relaxed64 frac g [] "" st → t ∉ L →
  (measure g L st < fuel)%nat →
  ∃ L' st', dijkstra_loop64 frac fuel g t st = Some st' ∧
    inv64 frac g s L' st' ∧ target_final64 frac g s t st' ∧ t ∉ L'.
Proof.
  revert L st.
  induction fuel as [|fuel IH]; intros L st Hinv Hrel HtL Hfuel; [lia|].
  simpl. destruct (pq_pop (pq st)) as [[[u x] rest]|] eqn:Hpop; cycle 1.
  { exists L, st. split; [done|]. split; [done|]. split; [|done].
    apply pq_pop_None in Hpop. intros p Hp.
    destruct (walk_covered64 _ _ _ _ Hinv Hrel Hp)
      as [?|(y & Hy & _)]; [done|].
    rewrite Hpop in Hy. by apply elem_of_nil in Hy. }
  assert (Hhead : QueueNode.mk u x ∈ pq_items (pq st))
    by (apply (elem_of_pq_pop _ _ _ _ Hpop); by left).
  destruct (inv64_queue _ _ _ _ _ Hinv _ Hhead) as (_ & x' & Hu & Hle).
  simpl in Hu, Hle. simpl.
  pose proof (length_pq_pop _ _ _ Hpop) as Hlen.
  case_decide as Hut.
  { exists L, (mkState rest (distances st) (previous st)).
    split; [done|]. split; [by eapply inv64_pop|]. split; [|done].
    intros p Hp. subst u. simpl.
    destruct (walk_covered64 _ _ _ _ Hinv Hrel Hp)
      as [?|(y & Hy & Hley)]; [done|].
    exists x'. split; [done|].
    eapply dist_le_trans; [exact Hle|].
    eapply dist_le_trans; [|exact Hley].
    apply (elem_of_pq_pop _ _ _ _ Hpop) in Hy as [->|Hy];
      [apply dist_le_refl|].
    apply (pq_pop_least64 _ _ _ _ Hpop Hy). }
  unfold dist_touch, dist_at. rewrite Hu. cbn -[dist_ltb].
  rewrite insert_id by done.
  destruct (dist_ltb x' x) eqn:Hlt.
  - apply (IH L); [by eapply inv64_pop|by eapply relaxed64_pop_stale|done|].
    unfold measure in *. simpl. lia.
  - assert (x' = x) as -> by (by apply dist_le_antisym).
    destruct (scanning64_start _ _ _ _ _ Hinv Hpop Hu) as [HuL Hsc].
    pose proof (relax64_fold_relaxed _ _ _ _ _ Hsc (λ e He, He)
                  (relaxed64_start _ _ _ _ Hrel Hpop)) as Hrel'.
    apply (relax64_fold_scanning _ _ _ (getRoutes g u)) in Hsc; [|done].
    destruct Hsc as [Hinv' _ _ _].
    apply (IH (u :: L)); [done..|by apply not_elem_of_cons|].
    assert (is_Some (g !! u)) as [routes Hroutes]
      by (apply (inv64_dom _ _ _ _ _ Hinv); eauto).
    unfold measure in *.
    rewrite (measure_settle g _ _ _ HuL Hroutes) in Hfuel.
    pose proof (relax64_fold_length (QueueNode.mk u x)
      (getRoutes g u)
      (mkState rest (distances st) (previous st))) as Hpush.
    rewrite (getRoutes_Some _ _ _ Hroutes) in *. simpl in Hpush.
    lia.
Qed.

(** The state before the first iteration. *)
Lemma init_state_inv64 :
  is_Some (g !! s) → inv64 frac g s [] (init_state g s).
Proof.
  intros Hs.
  assert (Hq : pq_items (pq_push (QueueNode.mk s (Fin 0)) pq_new)
               = [QueueNode.mk s (Fin 0)]).
  { apply Permutation_singleton_r. rewrite pq_push_items.
    by rewrite pq_new_items. }
  assert (Hval : ∀ v x,
    (<[s:=Fin 0]> ((λ _, Inf) <$> g) : gmap string dist) !! v = Some x →
    (v = s ∧ x = Fin 0) ∨ (v ≠ s ∧ x = Inf)).
  { intros v x. destruct (decide (s = v)) as [<-|].
    - rewrite lookup_insert_eq. intros [= <-]. by left.
    - rewrite lookup_insert_ne, lookup_fmap by done.
      destruct (g !! v); intros [= <-]. by right. }
  split; unfold init_state; simpl; rewrite ?Hq.
  - intros k. destruct (decide (s = k)) as [<-|].
    + rewrite lookup_insert_eq. by split; eauto.
    + rewrite lookup_insert_ne, lookup_fmap by done.
      by rewrite fmap_is_Some.
  - by rewrite lookup_insert_eq.
  - intros v x [[_ ->]|[_ ->]]%Hval; [by split|done].
  - intros v x [[-> ->]|[_ ->]]%Hval; [by exists []|done].
  - intros y ->%list_elem_of_singleton. simpl. split; [by split|].
    rewrite lookup_insert_eq. eexists. split; [done|]. apply dist_le_refl.
  - apply NoDup_singleton.
  - by intros u ?%elem_of_nil.
  - by intros y x _ ?%elem_of_nil.
  - intros k. by rewrite lookup_fmap, fmap_is_Some.
  - intros v u. rewrite lookup_fmap. by destruct (g !! v); intros [= <-].
  - intros v Hv. rewrite lookup_fmap.
    assert (is_Some (g !! v)) as [? ->]; [|done].
    destruct (decide (s = v)) as [<-|]; [done|].
    rewrite lookup_insert_ne, lookup_fmap in Hv by done.
    destruct (g !! v); [eauto|done].
  - destruct Hs as [? Hs]. by rewrite lookup_fmap, Hs.
  - constructor.
  - intros v u. rewrite lookup_fmap. by destruct (g !! v); intros [= <-].
  - intros _ v x [[-> _]|[_ ->]]%Hval; done.
Qed.

Lemma init_state_relaxed64 : relaxed64 frac g [] "" (init_state g s).
Proof.
  assert (Hq : pq_items (pq_push (QueueNode.mk s (Fin 0)) pq_new)
               = [QueueNode.mk s (Fin 0)]).
  { apply Permutation_singleton_r. rewrite pq_push_items.
    by rewrite pq_new_items. }
  intros x routes e dx _ _. unfold init_state. simpl.
  destruct (decide (s = x)) as [<-|].
  - rewrite lookup_insert_eq. intros [= <-] _. right. left.
    rewrite Hq. by apply list_elem_of_singleton.
  - rewrite lookup_insert_ne, lookup_fmap by done.
    by destruct (g !! x); intros [= <-].
Qed.

(** *** The reconstruction loop along ordered links *)

Lemma reconstruct_ordered L (P : gmap string string) fuel :
  prev_ordered L P → ∀ l1 curr l2 acc,
  L = l1 ++ curr :: l2 → (length l2 + 2 ≤ fuel)%nat →
  is_Some (reconstruct fuel P curr acc).
Proof.
  intros Hprev.
  induction fuel as [|fuel IH]; intros l1 curr l2 acc HL Hfuel; [lia|].
  cbn [reconstruct]. case_decide as Hcurr; [|done].
  destruct Hcurr as [_ [z Hz]]. unfold prev_at. rewrite Hz. cbn [default].
  destruct (decide (z = "")) as [->|Hne].
  - destruct fuel as [|fuel]; [lia|]. by rewrite reconstruct_stop.
  - destruct (Hprev _ _ Hz Hne) as [_ Hord].
    specialize (Hord _ _ HL).
    apply list_elem_of_split in Hord as (l3 & l4 & ->).
    apply (IH (l1 ++ curr :: l3) z l4).
    + by rewrite HL, <-(assoc_L (++)).
    + rewrite length_app in Hfuel. simpl in Hfuel. lia.
Qed.

Lemma reconstruct_ordered_ok L (P : gmap string string) fuel curr acc :
  prev_ordered L P → (length L + 2 ≤ fuel)%nat →
  is_Some (reconstruct fuel P curr acc).
Proof.
  intros Hprev Hfuel. destruct fuel as [|fuel]; [lia|].
  cbn [reconstruct]. case_decide as Hcurr; [|done].
  destruct Hcurr as [_ [z Hz]]. unfold prev_at. rewrite Hz. cbn [default].
  destruct (decide (z = "")) as [->|Hne].
  - destruct fuel as [|fuel]; [lia|]. by rewrite reconstruct_stop.
  - destruct (Hprev _ _ Hz Hne) as [HzL _].
    apply list_elem_of_split in HzL as (l1 & l2 & HL).
    eapply reconstruct_ordered; [done..|].
    rewrite HL, length_app in Hfuel. simpl in Hfuel. lia.
Qed.

Lemma reconstruct_ordered_chain L (P : gmap string string) fuel :
  prev_ordered L P → NoDup L → ∀ l1 curr l2 acc r,
  L = l1 ++ curr :: l2 →
  reconstruct fuel P curr acc = Some r →
  ∃ pre, r = pre ++ acc ∧ NoDup pre ∧ ∀ x, x ∈ pre → x ∈ curr :: l2.
Proof.
  intros Hprev HndL.
  induction fuel as [|fuel IH]; intros l1 curr l2 acc r HL Hrun; [done|].
  cbn [reconstruct] in Hrun. case_decide as Hcurr; cycle 1.
  { injection Hrun as <-. exists []. split_and!; [done|constructor|].
    by intros x ?%elem_of_nil. }
  destruct Hcurr as [_ [z Hz]]. unfold prev_at in Hrun. rewrite Hz in Hrun.
  cbn [default] in Hrun.
  destruct (decide (z = "")) as [->|Hne].
  - destruct fuel as [|fuel]; [done|]. rewrite reconstruct_stop in Hrun.
    injection Hrun as <-. exists [curr].
    split_and!; [done|apply NoDup_singleton|].
    intros x ->%list_elem_of_singleton. by left.
  - destruct (Hprev _ _ Hz Hne) as [_ Hord].
    specialize (Hord _ _ HL).
    apply list_elem_of_split in Hord as (l3 & l4 & ->).
    destruct (IH (l1 ++ curr :: l3) z l4 (curr :: acc) r)
      as (pre & -> & Hnd & Hsub); [by rewrite HL, <-(assoc_L (++))|done|].
    assert (Hcl : curr ∉ l3 ++ z :: l4).
    { rewrite HL in HndL. apply NoDup_app in HndL as (_ & _ & HndL).
      by apply NoDup_cons in HndL as [? _]. }
    exists (pre ++ [curr]). split_and!.
    + by rewrite <-(assoc_L (++)).
    + apply NoDup_app. split_and!; [done| |apply NoDup_singleton].
      intros x Hx ->%list_elem_of_singleton. apply Hcl.
      apply elem_of_app. right. by apply Hsub.
    + intros x [Hx| ->%list_elem_of_singleton]%elem_of_app; [|by left].
      right. apply elem_of_app. right. by apply Hsub.
Qed.

Lemma reconstruct_ordered_target L (P : gmap string string) fuel r :
  prev_ordered L P → NoDup L → t ∉ L →
  reconstruct fuel P t [] = Some r →
  NoDup r ∧ ∀ x, x ∈ r → x ∈ t :: L.
Proof.
  intros Hprev HndL HtL Hrun.
  destruct fuel as [|fuel]; [done|].
  cbn [reconstruct] in Hrun. case_decide as Hcurr; cycle 1.
  { injection Hrun as <-. split; [constructor|]. by intros x ?%elem_of_nil. }
  destruct Hcurr as [_ [z Hz]]. unfold prev_at in Hrun. rewrite Hz in Hrun.
  cbn [default] in Hrun.
  destruct (decide (z = "")) as [->|Hne].
  - destruct fuel as [|fuel]; [done|]. rewrite reconstruct_stop in Hrun.
    injection Hrun as <-. split; [apply NoDup_singleton|].
    intros x ->%list_elem_of_singleton. by left.
  - destruct (Hprev _ _ Hz Hne) as [HzL _].
    apply list_elem_of_split in HzL as (l1 & l2 & HL).
    destruct (reconstruct_ordered_chain _ _ _ Hprev HndL _ _ _ _ _ HL Hrun)
      as (pre & -> & Hnd & Hsub).
    assert (HpreL : ∀ x, x ∈ pre → x ∈ L).
    { intros x Hx%Hsub. rewrite HL. apply elem_of_app. by right. }
    split.
    + apply NoDup_app. split_and!; [done| |apply NoDup_singleton].
      intros x Hx ->%list_elem_of_singleton. auto.
    + intros x [Hx| ->%list_elem_of_singleton]%elem_of_app;
        [right; auto|by left].
Qed.

Lemma settled_length64 L st :
  inv64 frac g s L st → is_Some (g !! t) → t ∉ L →
  NoDup (t :: L) ∧ (∀ x, x ∈ t :: L → is_Some (g !! x)) ∧
  (S (length L) ≤ size g)%nat.
Proof.
  intros Hinv Ht HtL.
  assert (Hnd : NoDup (t :: L))
    by (constructor; [done|apply (inv64_L_nodup _ _ _ _ _ Hinv)]).
  assert (Hsub : ∀ x, x ∈ t :: L → is_Some (g !! x)).
  { intros x [->|Hx]%elem_of_cons; [done|].
    destruct (inv64_settled _ _ _ _ _ Hinv _ Hx) as (xk & Hxk & _).
    apply (inv64_dom _ _ _ _ _ Hinv). eauto. }
  split_and!; [done..|].
  change (S (length L)) with (length (t :: L)).
  rewrite <-(size_list_to_set (C:=gset string) (t :: L)) by done.
  rewrite <-(size_dom (D:=gset string) g). apply subseteq_size.
  intros x Hx%elem_of_list_to_set. apply elem_of_dom. auto.
Qed.

(** Walking the predecessor links back from a node with a distance other
    than [+infinity] spells out a walk from the source; its weights,
    added in binary64 in the order of the walk, give that distance. *)
Lemma reconstruct_route64 L st fuel :
  g !! "" = None → inv64 frac g s L st →
  ∀ curr acc r x,
  distances st !! curr = Some x → x ≠ Inf →
  reconstruct fuel (previous st) curr acc = Some r →
  ∃ p, walk g s p curr ∧ r = (s :: map destination p) ++ acc ∧
    path_weight64 frac p = x.
Proof.
  intros Hempty Hinv.
  induction fuel as [|fuel IH]; intros curr acc r x Hx Hfin Hrun; [done|].
  assert (Hg : is_Some (g !! curr))
    by (apply (inv64_dom _ _ _ _ _ Hinv); eauto).
  assert (Hne : curr ≠ "")
    by (intros ->; rewrite Hempty in Hg; by destruct Hg).
  pose proof Hg as [z Hz]%(inv64_prev_dom _ _ _ _ _ Hinv).
  cbn [reconstruct] in Hrun. rewrite decide_True in Hrun by eauto.
  unfold prev_at in Hrun. rewrite Hz in Hrun. cbn [default] in Hrun.
  destruct (decide (z = "")) as [->|Hzne].
  - destruct fuel as [|fuel]; [done|]. rewrite reconstruct_stop in Hrun.
    injection Hrun as <-.
    pose proof (inv64_root _ _ _ _ _ Hinv Hempty _ _ Hx Hfin Hz) as ->.
    rewrite (inv64_src _ _ _ _ _ Hinv) in Hx. injection Hx as <-.
    by exists [].
  - destruct (inv64_links _ _ _ _ _ Hinv _ _ Hz Hzne)
      as (w & xz & Hin & Hxz & Hxcurr).
    rewrite Hx in Hxcurr. injection Hxcurr as ->.
    destruct (IH _ _ _ _ Hxz (dist_add64_inf _ _ _ Hfin) Hrun)
      as (p & Hp & -> & Hw).
    exists (p ++ [mkEdge curr w]). split_and!.
    + by apply (walk_snoc _ _ _ _ (mkEdge curr w) Hp).
    + rewrite map_app. simpl. by rewrite <-(assoc_L (++)).
    + by rewrite path_weight64_snoc, Hw.
Qed.

(** *** Both loops together *)

Lemma findShortestPath64_run fuel :
  is_Some (g !! s) → is_Some (g !! t) → (fuel_bound g ≤ fuel)%nat →
  ∃ L st p,
    inv64 frac g s L st ∧ target_final64 frac g s t st ∧ t ∉ L ∧
    reconstruct fuel (previous st) t [] = Some p ∧
    findShortestPath64 frac fuel g s t =
      Some (mkPathResult p (default (Fin 0) (distances st !! t))).
Proof.
  intros Hs Ht Hfuel. unfold fuel_bound in Hfuel.
  destruct (dijkstra_loop64_ok fuel [] (init_state g s)
              (init_state_inv64 Hs) init_state_relaxed64)
    as (L & st & Hloop & Hinv & Hfinal & HtL).
  { apply not_elem_of_nil. }
  { unfold measure, init_state. simpl. rewrite length_pq_push, pq_new_items.
    simpl. lia. }
  destruct (settled_length64 _ _ Hinv Ht HtL) as (_ & _ & HL).
  destruct (reconstruct_ordered_ok L (previous st) fuel t []
              (inv64_prev _ _ _ _ _ Hinv)) as [p Hp]; [lia|].
  exists L, st, p. do 4 (split; [done|]).
  unfold findShortestPath64.
  apply hasAirport_true in Hs as ->. apply hasAirport_true in Ht as ->.
  simpl. rewrite Hloop. simpl. rewrite Hp. simpl.
  by destruct (distances st !! t).
Qed.
End search64_correct.

(** ** What [findShortestPath64] returns *)

Section results64.
Context `{PQ : PriorityQueue}.

Lemma search64_missing frac fuel (g : Graph) s t :
  g !! s = None ∨ g !! t = None →
  findShortestPath64 frac fuel g s t = Some empty_result.
Proof.
  intros Hmiss. unfold findShortestPath64, hasAirport.
  destruct Hmiss as [-> | ->]; [done|]. by destruct (g !! s).
Qed.

Lemma search64_terminates frac fuel (g : Graph) s t :
  graph_closed g → graph_nonneg g → (fuel_bound g ≤ fuel)%nat →
  ∃ r, findShortestPath64 frac fuel g s t = Some r ∧
    NoDup (path r) ∧ (∀ x, x ∈ path r → hasAirport g x = true) ∧
    (length (path r) ≤ size g)%nat.
Proof.
  intros Hc Hnn Hfuel.
  assert (Hempty : ∃ r, Some empty_result = Some r ∧
    NoDup (path r) ∧ (∀ x, x ∈ path r → hasAirport g x = true) ∧
    (length (path r) ≤ size g)%nat).
  { eexists. split; [done|]. simpl. split_and!; [constructor| |lia].
    by intros x ?%elem_of_nil. }
  destruct (g !! s) as [rs|] eqn:Hs;
    [|by rewrite search64_missing by auto].
  destruct (g !! t) as [rt|] eqn:Ht;
    [|by rewrite search64_missing by auto].
  destruct (findShortestPath64_run frac g s t Hc Hnn fuel) as
    (L & st & p & Hinv & _ & HtL & Hrec & ->); [by eexists..|done|].
  destruct (settled_length64 frac g s t L st Hinv) as (HndL & Hsub & Hlen);
    [by eexists|done|].
  destruct (reconstruct_ordered_target t L (previous st) fuel p
              (inv64_prev _ _ _ _ _ Hinv) (inv64_L_nodup _ _ _ _ _ Hinv)
              HtL Hrec) as [Hnd Hin].
  eexists. split; [done|]. simpl. split_and!; [done| |].
  - intros x Hx. apply hasAirport_true. auto.
  - etrans; [|exact Hlen]. change (S (length L)) with (length (t :: L)).
    apply submseteq_length, NoDup_submseteq; done.
Qed.

Lemma search64_unreachable frac fuel (g : Graph) s t :
  graph_closed g → graph_nonneg g →
  is_Some (g !! s) → is_Some (g !! t) →
  (∀ p, ¬ walk g s p t) → (fuel_bound g ≤ fuel)%nat →
  findShortestPath64 frac fuel g s t =
    Some (mkPathResult (if decide (t = "") then [] else [t]) Inf).
Proof.
  intros Hc Hnn Hs Ht Hnone Hfuel.
  destruct (findShortestPath64_run frac g s t Hc Hnn fuel Hs Ht Hfuel)
    as (L & st & p & Hinv & _ & _ & Hrec & ->).
  assert (Hdt : distances st !! t = Some Inf).
  { apply (inv64_dom _ _ _ _ _ Hinv) in Ht as [x Hx]. rewrite Hx. f_equal.
    destruct (decide (x = Inf)) as [|Hfin]; [done|].
    destruct (inv64_walk _ _ _ _ _ Hinv _ _ Hx Hfin) as (p' & Hp' & _).
    by destruct (Hnone p'). }
  pose proof (inv64_prev_inf _ _ _ _ _ Hinv _ Hdt) as Hprev.
  rewrite Hdt. simpl. do 2 f_equal.
  unfold fuel_bound in Hfuel.
  destruct fuel as [|[|fuel]]; [lia..|].
  cbn [reconstruct] in Hrec. unfold prev_at in Hrec. rewrite Hprev in Hrec.
  simpl in Hrec. repeat case_decide; naive_solver.
Qed.

Lemma search64_route frac fuel (g : Graph) s t :
  graph_closed g → graph_nonneg g →
  is_Some (g !! s) → is_Some (g !! t) → g !! "" = None →
  (fuel_bound g ≤ fuel)%nat →
  ∃ r, findShortestPath64 frac fuel g s t = Some r ∧
    (totalDistance r = Inf → path r = [t]) ∧
    (totalDistance r ≠ Inf →
     ∃ p, walk g s p t ∧ path r = s :: map destination p ∧
       path_weight64 frac p = totalDistance r).
Proof.
  intros Hc Hnn Hs Ht Hempty Hfuel.
  destruct (findShortestPath64_run frac g s t Hc Hnn fuel Hs Ht Hfuel)
    as (L & st & pth & Hinv & _ & _ & Hrec & ->).
  eexists. split; [done|]. simpl.
  pose proof Ht as [x Hx]%(inv64_dom _ _ _ _ _ Hinv). rewrite Hx. simpl.
  split.
  - intros ->.
    pose proof (inv64_prev_inf _ _ _ _ _ Hinv _ Hx) as Hprev.
    assert (t ≠ "") by (intros ->; rewrite Hempty in Ht; by destruct Ht).
    unfold fuel_bound in Hfuel.
    destruct fuel as [|[|fuel]]; [lia..|].
    cbn [reconstruct] in Hrec. unfold prev_at in Hrec.
    rewrite Hprev in Hrec. simpl in Hrec.
    repeat case_decide; naive_solver.
  - intros Hfin.
    destruct (reconstruct_route64 frac g s L st fuel Hempty Hinv _ _ _ _
                Hx Hfin Hrec) as (p & Hp & -> & Hw).
    exists p. by rewrite app_nil_r.
Qed.

(** The returned distance is the least rounded weight of a walk. *)
Lemma search64_least frac fuel (g : Graph) s t :
  graph_closed g → graph_nonneg g →
  is_Some (g !! s) → is_Some (g !! t) → (fuel_bound g ≤ fuel)%nat →
  ∃ r, findShortestPath64 frac fuel g s t = Some r ∧
    (∀ p, walk g s p t → dist_le (totalDistance r) (path_weight64 frac p)) ∧
    ((∃ p, walk g s p t) →
     ∃ p, walk g s p t ∧ path_weight64 frac p = totalDistance r).
Proof.
  intros Hc Hnn Hs Ht Hfuel.
  destruct (findShortestPath64_run frac g s t Hc Hnn fuel Hs Ht Hfuel)
    as (L & st & pth & Hinv & Hfinal & _ & _ & ->).
  eexists. split; [done|]. simpl.
  pose proof Ht as [x Hx]%(inv64_dom _ _ _ _ _ Hinv). rewrite Hx. simpl.
  split.
  - intros p Hp. destruct (Hfinal _ Hp) as (x' & Hx' & Hle). by simplify_eq.
  - intros [p Hp]. destruct (decide (x = Inf)) as [->|Hfin].
    + exists p. split; [done|].
      destruct (Hfinal _ Hp) as (x' & Hx' & Hle). simplify_eq.
      by apply dist_le_inf_l in Hle.
    + apply (inv64_walk _ _ _ _ _ Hinv _ _ Hx Hfin).
Qed.
End results64.

(** * Further theorems *)

(** X1.  On a graph whose weights are non-negative whole numbers of
    units [2^-frac] with a sum over all adjacency entries of at most
    [2^53] units, and in which the empty
    string is not an airport, for two existing airports joined by a path,
    the returned [path] is a route of the graph from the source to the
    target: it starts at the source, each next entry is the destination of
    an edge stored at the entry before it, it ends at the target, and the
    weights of these edges add up to [totalDistance], which is the least
    weight of any route. *)
Theorem X1_returned_path_is_shortest_route `{PQ : PriorityQueue}
    (frac : nat) (ops : list GraphOp) (s t : string) (fuel : nat) :
  graph_nonneg (build ops) →
  total_weight (build ops) ≤ 2 ^ 53 →
  is_Some (build ops !! s) → is_Some (build ops !! t) →
  build ops !! "" = None →
  (∃ p, walk (build ops) s p t) →
  (fuel_bound (build ops) ≤ fuel)%nat →
  ∃ r p d, findShortestPath64 frac fuel (build ops) s t = Some r ∧
    walk (build ops) s p t ∧ path r = s :: map destination p ∧
    totalDistance r = Fin d ∧ path_weight p = d ∧
    min_weight (build ops) s t d.
Proof.
  intros Hnn Hsmall **.
  rewrite (findShortestPath64_exact frac _ s t (build_closed ops) Hnn Hsmall).
  apply search_route; auto using build_closed.
Qed.

Lemma X1_returned_path_is_shortest_route_witness :
  graph_nonneg (build sample_ops) ∧
  total_weight (build sample_ops) ≤ 2 ^ 53 ∧
  is_Some (build sample_ops !! "JFK") ∧
  is_Some (build sample_ops !! "DFW") ∧
  build sample_ops !! "" = None ∧
  (∃ p, walk (build sample_ops) "JFK" p "DFW") ∧
  (fuel_bound (build sample_ops) ≤ 9)%nat ∧
  ∃ r p d, findShortestPath64 (PQ:=ListPQ) 0 9 (build sample_ops) "JFK" "DFW"
             = Some r ∧
    walk (build sample_ops) "JFK" p "DFW" ∧
    path r = "JFK" :: map destination p ∧
    totalDistance r = Fin d ∧ path_weight p = d ∧
    min_weight (build sample_ops) "JFK" "DFW" d.
Proof.
  assert (H1 : graph_nonneg (build sample_ops))
    by (apply (bool_decide_unpack _); vm_compute; exact I).
  assert (H0 : total_weight (build sample_ops) ≤ 2 ^ 53)
    by (vm_compute; discriminate).
  assert (H2 : is_Some (build sample_ops !! "JFK")) by (vm_compute; eauto).
  assert (H3 : is_Some (build sample_ops !! "DFW")) by (vm_compute; eauto).
  assert (H4 : build sample_ops !! "" = None) by reflexivity.
  assert (H5 : ∃ p, walk (build sample_ops) "JFK" p "DFW").
  { exists [mkEdge "ORD" 800; mkEdge "DFW" 1650].
    vm_compute. repeat constructor. }
  assert (H6 : (fuel_bound (build sample_ops) ≤ 9)%nat) by (vm_compute; lia).
  split_and!; [done..|].
  exact (X1_returned_path_is_shortest_route (PQ:=ListPQ) 0 sample_ops
           "JFK" "DFW" 9 H1 H0 H2 H3 H4 H5 H6).
Defined.





(** X4.  Whatever the size and the sign of the weights, when both
    endpoints exist and the call returns a [totalDistance] other than
    [+infinity], some route of the graph from the source to the target
    has exactly that weight when its edges are added one after the other
    in binary64. *)
Theorem X4_distance_is_a_rounded_route_weight `{PQ : PriorityQueue}
    (frac : nat) (ops : list GraphOp) (s t : string) (fuel : nat)
    (r : PathResult) :
  is_Some (build ops !! s) → is_Some (build ops !! t) →
  findShortestPath64 frac fuel (build ops) s t = Some r →
  totalDistance r ≠ Inf →
  ∃ p, walk (build ops) s p t ∧ path_weight64 frac p = totalDistance r.
Proof.
  intros Hs Ht Hrun Hfin.
  exact (search64_sound frac _ s t (build_closed ops) fuel r Hs Ht Hrun
           Hfin).
Qed.

Lemma X4_distance_is_a_rounded_route_weight_witness :
  is_Some
    (build [AddRoute "A" "B" 9007199254740992; AddRoute "B" "C" 1] !! "A") ∧
  is_Some
    (build [AddRoute "A" "B" 9007199254740992; AddRoute "B" "C" 1] !! "C") ∧
  findShortestPath64 (PQ:=ListPQ) 0 9
    (build [AddRoute "A" "B" 9007199254740992; AddRoute "B" "C" 1]) "A" "C"
    = Some (mkPathResult ["A"; "B"; "C"] (Fin 9007199254740992)) ∧
  totalDistance (mkPathResult ["A"; "B"; "C"] (Fin 9007199254740992))
    ≠ Inf ∧
  ∃ p,
    walk (build [AddRoute "A" "B" 9007199254740992; AddRoute "B" "C" 1])
      "A" p "C" ∧
    path_weight64 0 p
      = totalDistance
          (mkPathResult ["A"; "B"; "C"] (Fin 9007199254740992)).
Proof.
  assert (H1 : is_Some
    (build [AddRoute "A" "B" 9007199254740992; AddRoute "B" "C" 1] !! "A"))
    by (vm_compute; eauto).
  assert (H2 : is_Some
    (build [AddRoute "A" "B" 9007199254740992; AddRoute "B" "C" 1] !! "C"))
    by (vm_compute; eauto).
  assert (H3 : findShortestPath64 (PQ:=ListPQ) 0 9
    (build [AddRoute "A" "B" 9007199254740992; AddRoute "B" "C" 1]) "A" "C"
    = Some (mkPathResult ["A"; "B"; "C"] (Fin 9007199254740992)))
    by (by vm_compute).
  assert (H4 : totalDistance
    (mkPathResult ["A"; "B"; "C"] (Fin 9007199254740992)) ≠ Inf)
    by discriminate.
  split_and!; [done..|].
  exact (X4_distance_is_a_rounded_route_weight (PQ:=ListPQ) 0
           [AddRoute "A" "B" 9007199254740992; AddRoute "B" "C" 1]
           "A" "C" 9 _ H1 H2 H3 H4).
Defined.

(** X5.  On a graph whose weights are non-negative whole numbers of
    units [2^-frac] with a sum over all adjacency entries of at most
    [2^53] units, for two existing
    airports, the returned [totalDistance] is infinite exactly when no
    route leads from the source to the target. *)
Theorem X5_infinite_iff_unreachable `{PQ : PriorityQueue}
    (frac : nat) (ops : list GraphOp) (s t : string) (fuel : nat) :
  graph_nonneg (build ops) →
  total_weight (build ops) ≤ 2 ^ 53 →
  is_Some (build ops !! s) → is_Some (build ops !! t) →
  (fuel_bound (build ops) ≤ fuel)%nat →
  ∃ r, findShortestPath64 frac fuel (build ops) s t = Some r ∧
    (totalDistance r = Inf ↔ ∀ p, ¬ walk (build ops) s p t).
Proof.
  intros Hnn Hsmall **.
  rewrite (findShortestPath64_exact frac _ s t (build_closed ops) Hnn Hsmall).
  apply search_finite_iff; auto using build_closed.
Qed.

Lemma X5_infinite_iff_unreachable_witness :
  graph_nonneg (build [AddAirport "A"; AddAirport "B"]) ∧
  total_weight (build [AddAirport "A"; AddAirport "B"]) ≤ 2 ^ 53 ∧
  is_Some (build [AddAirport "A"; AddAirport "B"] !! "A") ∧
  is_Some (build [AddAirport "A"; AddAirport "B"] !! "B") ∧
  (fuel_bound (build [AddAirport "A"; AddAirport "B"]) ≤ 4)%nat ∧
  ∃ r, findShortestPath64 (PQ:=ListPQ) 0 4
         (build [AddAirport "A"; AddAirport "B"]) "A" "B" = Some r ∧
    (totalDistance r = Inf ↔
     ∀ p, ¬ walk (build [AddAirport "A"; AddAirport "B"]) "A" p "B").
Proof.
  assert (H1 : graph_nonneg (build [AddAirport "A"; AddAirport "B"]))
    by (apply (bool_decide_unpack _); vm_compute; exact I).
  assert (H0 : total_weight (build [AddAirport "A"; AddAirport "B"])
               ≤ 2 ^ 53) by (vm_compute; discriminate).
  assert (H2 : is_Some (build [AddAirport "A"; AddAirport "B"] !! "A"))
    by (vm_compute; eauto).
  assert (H3 : is_Some (build [AddAirport "A"; AddAirport "B"] !! "B"))
    by (vm_compute; eauto).
  assert (H4 : (fuel_bound (build [AddAirport "A"; AddAirport "B"]) ≤ 4)%nat)
    by (vm_compute; lia).
  split_and!; [done..|].
  exact (X5_infinite_iff_unreachable (PQ:=ListPQ) 0
           [AddAirport "A"; AddAirport "B"] "A" "B" 4 H1 H0 H2 H3 H4).
Defined.

(** X6.  On a graph whose weights are non-negative whole numbers of
    units [2^-frac] with a sum over all adjacency entries of at most
    [2^53] units, for two existing
    airports, the search from [s] to [t] and the search from [t] to [s]
    return the same [totalDistance] (finite or infinite): routes are
    stored in both directions and no addition rounds. *)
Theorem X6_distance_is_symmetric `{PQ : PriorityQueue}
    (frac : nat) (ops : list GraphOp) (s t : string) (fuel : nat) :
  graph_nonneg (build ops) →
  total_weight (build ops) ≤ 2 ^ 53 →
  is_Some (build ops !! s) → is_Some (build ops !! t) →
  (fuel_bound (build ops) ≤ fuel)%nat →
  ∃ r r', findShortestPath64 frac fuel (build ops) s t = Some r ∧
    findShortestPath64 frac fuel (build ops) t s = Some r' ∧
    totalDistance r = totalDistance r'.
Proof.
  intros Hnn Hsmall **.
  rewrite (findShortestPath64_exact frac _ s t (build_closed ops) Hnn Hsmall).
  rewrite (findShortestPath64_exact frac _ t s (build_closed ops) Hnn Hsmall).
  apply search_symmetric; auto using build_closed, build_symmetric.
Qed.

Lemma X6_distance_is_symmetric_witness :
  graph_nonneg (build sample_ops) ∧
  total_weight (build sample_ops) ≤ 2 ^ 53 ∧
  is_Some (build sample_ops !! "JFK") ∧
  is_Some (build sample_ops !! "DFW") ∧
  (fuel_bound (build sample_ops) ≤ 9)%nat ∧
  ∃ r r', findShortestPath64 (PQ:=ListPQ) 0 9 (build sample_ops) "JFK" "DFW"
            = Some r ∧
    findShortestPath64 (PQ:=ListPQ) 0 9 (build sample_ops) "DFW" "JFK"
      = Some r' ∧
    totalDistance r = totalDistance r'.
Proof.
  assert (H1 : graph_nonneg (build sample_ops))
    by (apply (bool_decide_unpack _); vm_compute; exact I).
  assert (H0 : total_weight (build sample_ops) ≤ 2 ^ 53)
    by (vm_compute; discriminate).
  assert (H2 : is_Some (build sample_ops !! "JFK")) by (vm_compute; eauto).
  assert (H3 : is_Some (build sample_ops !! "DFW")) by (vm_compute; eauto).
  assert (H4 : (fuel_bound (build sample_ops) ≤ 9)%nat) by (vm_compute; lia).
  split_and!; [done..|].
  exact (X6_distance_is_symmetric (PQ:=ListPQ) 0 sample_ops "JFK" "DFW" 9
           H1 H0 H2 H3 H4).
Defined.

(** X7.  After any sequence of calls, [getRoutes k] is the list of the
    edges the [addRoute] calls appended to the entry of [k], in call
    order and with repetitions: nothing is dropped, merged or reordered,
    and [addAirport] contributes nothing. *)
Theorem X7_getRoutes_lists_every_call (ops : list GraphOp) (k : string) :
  getRoutes (build ops) k = ops ≫= op_routes k.
Proof. apply build_getRoutes. Qed.

(** X8.  After any sequence of calls the adjacency is symmetric: an edge to
    [b] with weight [w] is stored at [a] exactly when an edge to [a] with
    weight [w] is stored at [b]. *)
Theorem X8_adjacency_is_symmetric (ops : list GraphOp) (a b : string)
    (w : Z) :
  mkEdge b w ∈ getRoutes (build ops) a ↔ mkEdge a w ∈ getRoutes (build ops) b.
Proof. split; apply build_symmetric. Qed.

(** X9.  After any sequence of calls the graph stores two adjacency
    entries for each [addRoute] call, also for repeated routes and for a
    route from an airport to itself. *)
Theorem X9_two_entries_per_route (ops : list GraphOp) :
  total_edges (build ops) = (2 * route_calls ops)%nat.
Proof.
  induction ops as [|op ops IH] using rev_ind; [done|].
  rewrite build_snoc, apply_op_total_edges, IH.
  unfold route_calls. rewrite sum_list_with_app. lia.
Qed.

(** X10.  Further calls never remove anything: the routes stored at an
    airport stay a prefix of its later routes, and an airport that exists
    keeps existing. *)
Theorem X10_graph_only_grows (ops more : list GraphOp) (k : string) :
  getRoutes (build ops) k `prefix_of` getRoutes (build (ops ++ more)) k ∧
  (hasAirport (build ops) k = true →
   hasAirport (build (ops ++ more)) k = true).
Proof.
  split.
  - rewrite !build_getRoutes, bind_app. by apply prefix_app_r.
  - rewrite !hasAirport_true, !build_is_Some. unfold was_added.
    rewrite Exists_app. auto.
Qed.

(** X11.  After any sequence of calls, every stored edge starts at an
    existing airport and leads to an existing airport. *)
Theorem X11_routes_join_airports (ops : list GraphOp) (k : string)
    (e : Edge) :
  e ∈ getRoutes (build ops) k →
  hasAirport (build ops) k = true ∧
  hasAirport (build ops) (destination e) = true.
Proof.
  intros (routes & Hk & He)%elem_of_getRoutes.
  rewrite !hasAirport_true. split; [by eexists|].
  by eapply graph_closed_lookup; [apply build_closed|..].
Qed.

Lemma X11_routes_join_airports_witness :
  mkEdge "DFW" 1650 ∈ getRoutes (build sample_ops) "ORD" ∧
  hasAirport (build sample_ops) "ORD" = true ∧
  hasAirport (build sample_ops) (destination (mkEdge "DFW" 1650)) = true.
Proof.
  assert (H : mkEdge "DFW" 1650 ∈ getRoutes (build sample_ops) "ORD")
    by (vm_compute; repeat constructor).
  split; [exact H|].
  exact (X11_routes_join_airports sample_ops "ORD" (mkEdge "DFW" 1650) H).
Defined.

(** X12.  [addAirport] and [addRoute] can be called in either order with
    the same resulting graph; in particular declaring an endpoint of a
    route before adding the route changes nothing. *)
Theorem X12_addAirport_addRoute_commute (g : Graph) (x a b : string)
    (w : Z) :
  addRoute (addAirport g x) a b w = addAirport (addRoute g a b w) x ∧
  (x = a ∨ x = b → addRoute (addAirport g x) a b w = addRoute g a b w).
Proof.
  assert (Hcomm :
    addRoute (addAirport g x) a b w = addAirport (addRoute g a b w) x).
  { apply map_eq. intros k.
    rewrite addRoute_lookup, !addAirport_lookup. unfold adj_at.
    rewrite !addAirport_lookup, !addRoute_lookup. unfold adj_at.
    repeat case_decide; subst; try done;
      by destruct (g !! _). }
  split; [done|]. intros Hx. rewrite Hcomm.
  apply map_eq. intros k. rewrite addAirport_lookup.
  case_decide as Hk; [subst k|done].
  assert (is_Some (addRoute g a b w !! x)) as [routes Hr]
    by (apply addRoute_is_Some; naive_solver).
  unfold adj_at. by rewrite Hr.
Qed.

Lemma X12_addAirport_addRoute_commute_witness :
  addRoute (addAirport ∅ "JFK") "JFK" "ORD" 800
    = addAirport (addRoute ∅ "JFK" "ORD" 800) "JFK" ∧
  ("JFK" = "JFK" ∨ "JFK" = "ORD") ∧
  addRoute (addAirport ∅ "JFK") "JFK" "ORD" 800
    = addRoute ∅ "JFK" "ORD" 800.
Proof.
  assert (H : "JFK" = "JFK" ∨ "JFK" = "ORD") by (by left).
  split; [|split; [exact H|]].
  - exact (proj1 (X12_addAirport_addRoute_commute ∅ "JFK" "JFK" "ORD" 800)).
  - exact (proj2 (X12_addAirport_addRoute_commute ∅ "JFK" "JFK" "ORD" 800) H).
Defined.

(** X13.  On a graph whose weights are non-negative whole numbers of
    units [2^-frac] with a sum over all adjacency entries of at most
    [2^53] units, no addition of the
    search rounds: the search with binary64 additions returns what the
    search with exact additions returns, for every pair of identifiers
    and every step budget. *)
Theorem X13_small_weights_never_round `{PQ : PriorityQueue}
    (frac : nat) (ops : list GraphOp) (s t : string) (fuel : nat) :
  graph_nonneg (build ops) →
  total_weight (build ops) ≤ 2 ^ 53 →
  findShortestPath64 frac fuel (build ops) s t
    = findShortestPath fuel (build ops) s t.
Proof.
  intros Hnn Hsmall.
  exact (findShortestPath64_exact frac _ s t (build_closed ops) Hnn Hsmall
           fuel).
Qed.

Lemma X13_small_weights_never_round_witness :
  graph_nonneg (build sample_ops) ∧
  total_weight (build sample_ops) ≤ 2 ^ 53 ∧
  findShortestPath64 (PQ:=ListPQ) 0 9 (build sample_ops) "JFK" "DFW"
    = findShortestPath (PQ:=ListPQ) 9 (build sample_ops) "JFK" "DFW".
Proof.
  assert (H1 : graph_nonneg (build sample_ops))
    by (apply (bool_decide_unpack _); vm_compute; exact I).
  assert (H0 : total_weight (build sample_ops) ≤ 2 ^ 53)
    by (vm_compute; discriminate).
  split_and!; [done..|].
  exact (X13_small_weights_never_round (PQ:=ListPQ) 0 sample_ops
           "JFK" "DFW" 9 H1 H0).
Defined.

(** X14.  A route does not make the distance finite.  With the routes A-B
    and B-C, both of the largest finite length, the sum at line 54
    overflows to [+infinity], which is not below the initial distance of
    C: the search returns the path [[C]] and the distance [+infinity]
    although C can be reached from A. *)
Theorem X14_overflow_hides_a_route :
  round53 0 largest_double = Fin largest_double ∧
  graph_nonneg
    (build [AddRoute "A" "B" largest_double;
            AddRoute "B" "C" largest_double]) ∧
  (∃ p,
    walk
      (build [AddRoute "A" "B" largest_double;
              AddRoute "B" "C" largest_double]) "A" p "C") ∧
  findShortestPath64 (PQ:=ListPQ) 0 9
    (build [AddRoute "A" "B" largest_double;
            AddRoute "B" "C" largest_double]) "A" "C"
    = Some (mkPathResult ["C"] Inf).
Proof.
  split_and!.
  - by vm_compute.
  - apply (bool_decide_unpack _). vm_compute. exact I.
  - exists [mkEdge "B" largest_double; mkEdge "C" largest_double].
    vm_compute. repeat constructor.
  - by vm_compute.
Qed.

(** X15.  Where additions round the distance depends on the direction.
    With the routes A-B of length [2^53], B-C of length 1 and C-D of
    length 1, the search from A adds 1 to [2^53] twice and returns
    [2^53]; the search from D adds 1 and 1 first and returns [2^53 + 2]
    along the same route backwards. *)
Theorem X15_rounding_breaks_symmetry :
  findShortestPath64 (PQ:=ListPQ) 0 12
    (build [AddRoute "A" "B" 9007199254740992; AddRoute "B" "C" 1;
            AddRoute "C" "D" 1]) "A" "D"
    = Some (mkPathResult ["A"; "B"; "C"; "D"] (Fin 9007199254740992)) ∧
  findShortestPath64 (PQ:=ListPQ) 0 12
    (build [AddRoute "A" "B" 9007199254740992; AddRoute "B" "C" 1;
            AddRoute "C" "D" 1]) "D" "A"
    = Some (mkPathResult ["D"; "C"; "B"; "A"] (Fin 9007199254740994)).
Proof. split; by vm_compute. Qed.

(** X16.  On a graph without negative weights, whatever their size, the
    search with binary64 additions returns for every pair of
    identifiers within [fuel_bound] loop tests; the returned path names
    no airport twice, names airports of the graph only, and is no longer
    than the graph has nodes. *)
Theorem X16_rounded_search_terminates `{PQ : PriorityQueue}
    (frac : nat) (ops : list GraphOp) (s t : string) (fuel : nat) :
  graph_nonneg (build ops) → (fuel_bound (build ops) ≤ fuel)%nat →
  ∃ r, findShortestPath64 frac fuel (build ops) s t = Some r ∧
    NoDup (path r) ∧ (∀ x, x ∈ path r → hasAirport (build ops) x = true) ∧
    (length (path r) ≤ size (build ops))%nat.
Proof. intros. apply search64_terminates; auto using build_closed. Qed.

Lemma X16_rounded_search_terminates_witness :
  graph_nonneg (build rounding_ops) ∧
  (fuel_bound (build rounding_ops) ≤ 9)%nat ∧
  ∃ r, findShortestPath64 (PQ:=ListPQ) 0 9 (build rounding_ops) "C" "A"
         = Some r ∧
    NoDup (path r) ∧
    (∀ x, x ∈ path r → hasAirport (build rounding_ops) x = true) ∧
    (length (path r) ≤ size (build rounding_ops))%nat.
Proof.
  assert (H1 : graph_nonneg (build rounding_ops))
    by (apply (bool_decide_unpack _); vm_compute; exact I).
  assert (H2 : (fuel_bound (build rounding_ops) ≤ 9)%nat) by (vm_compute; lia).
  split_and!; [done..|].
  exact (X16_rounded_search_terminates (PQ:=ListPQ) 0 rounding_ops
           "C" "A" 9 H1 H2).
Defined.

(** X17.  On a graph without negative weights, whatever their size, for
    two existing airports with no route between them, the search with
    binary64 additions returns the one-element path [[t]] (the empty path
    only if [t] is the empty string) and the distance [+infinity]. *)
Theorem X17_rounded_search_unreachable `{PQ : PriorityQueue}
    (frac : nat) (ops : list GraphOp) (s t : string) (fuel : nat) :
  graph_nonneg (build ops) →
  is_Some (build ops !! s) → is_Some (build ops !! t) →
  (∀ p, ¬ walk (build ops) s p t) →
  (fuel_bound (build ops) ≤ fuel)%nat →
  findShortestPath64 frac fuel (build ops) s t =
    Some (mkPathResult (if decide (t = "") then [] else [t]) Inf).
Proof. intros. apply search64_unreachable; auto using build_closed. Qed.

Lemma X17_rounded_search_unreachable_witness :
  graph_nonneg (build [AddRoute "A" "B" 9007199254740992; AddAirport "C"]) ∧
  is_Some
    (build [AddRoute "A" "B" 9007199254740992; AddAirport "C"] !! "A") ∧
  is_Some
    (build [AddRoute "A" "B" 9007199254740992; AddAirport "C"] !! "C") ∧
  (∀ p, ¬ walk (build [AddRoute "A" "B" 9007199254740992; AddAirport "C"])
          "A" p "C") ∧
  (fuel_bound (build [AddRoute "A" "B" 9007199254740992; AddAirport "C"])
     ≤ 7)%nat ∧
  findShortestPath64 (PQ:=ListPQ) 0 7
    (build [AddRoute "A" "B" 9007199254740992; AddAirport "C"]) "A" "C"
    = Some (mkPathResult ["C"] Inf).
Proof.
  assert (H1 : graph_nonneg
    (build [AddRoute "A" "B" 9007199254740992; AddAirport "C"]))
    by (apply (bool_decide_unpack _); vm_compute; exact I).
  assert (H2 : is_Some
    (build [AddRoute "A" "B" 9007199254740992; AddAirport "C"] !! "A"))
    by (vm_compute; eauto).
  assert (H3 : is_Some
    (build [AddRoute "A" "B" 9007199254740992; AddAirport "C"] !! "C"))
    by (vm_compute; eauto).
  assert (H4 : ∀ p,
    ¬ walk (build [AddRoute "A" "B" 9007199254740992; AddAirport "C"])
        "A" p "C").
  { assert (Hstay : ∀ p x, x = "A" ∨ x = "B" →
      ¬ walk (build [AddRoute "A" "B" 9007199254740992; AddAirport "C"])
          x p "C").
    { induction p as [|e p IH]; intros x Hx.
      - simpl. by destruct Hx as [-> | ->].
      - intros [He Hp]. apply (IH (destination e)); [|done].
        destruct Hx as [-> | ->]; vm_compute in He;
          apply list_elem_of_singleton in He; subst e; simpl; auto. }
    intros p. apply Hstay. by left. }
  assert (H5 : (fuel_bound
    (build [AddRoute "A" "B" 9007199254740992; AddAirport "C"]) ≤ 7)%nat)
    by (vm_compute; lia).
  split_and!; [done..|].
  exact (X17_rounded_search_unreachable (PQ:=ListPQ) 0
           [AddRoute "A" "B" 9007199254740992; AddAirport "C"]
           "A" "C" 7 H1 H2 H3 H4 H5).
Defined.

(** X18.  On a graph without negative weights, whatever their size, in
    which the empty string is not an airport, for two existing airports:
    when the returned distance is [+infinity] the returned path is
    [[t]]; otherwise the returned path is a route of the graph from the
    source to the target, and its weights, added one after the other in
    binary64 from the source on, give the returned distance. *)
Theorem X18_rounded_path_is_a_route `{PQ : PriorityQueue}
    (frac : nat) (ops : list GraphOp) (s t : string) (fuel : nat) :
  graph_nonneg (build ops) →
  is_Some (build ops !! s) → is_Some (build ops !! t) →
  build ops !! "" = None →
  (fuel_bound (build ops) ≤ fuel)%nat →
  ∃ r, findShortestPath64 frac fuel (build ops) s t = Some r ∧
    (totalDistance r = Inf → path r = [t]) ∧
    (totalDistance r ≠ Inf →
     ∃ p, walk (build ops) s p t ∧ path r = s :: map destination p ∧
       path_weight64 frac p = totalDistance r).
Proof. intros. apply search64_route; auto using build_closed. Qed.

Lemma X18_rounded_path_is_a_route_witness :
  graph_nonneg (build rounding_ops) ∧
  is_Some (build rounding_ops !! "A") ∧
  is_Some (build rounding_ops !! "C") ∧
  build rounding_ops !! "" = None ∧
  (fuel_bound (build rounding_ops) ≤ 9)%nat ∧
  ∃ r, findShortestPath64 (PQ:=ListPQ) 0 9 (build rounding_ops) "A" "C"
         = Some r ∧
    (totalDistance r = Inf → path r = ["C"]) ∧
    (totalDistance r ≠ Inf →
     ∃ p, walk (build rounding_ops) "A" p "C" ∧
       path r = "A" :: map destination p ∧
       path_weight64 0 p = totalDistance r).
Proof.
  assert (H1 : graph_nonneg (build rounding_ops))
    by (apply (bool_decide_unpack _); vm_compute; exact I).
  assert (H2 : is_Some (build rounding_ops !! "A")) by (vm_compute; eauto).
  assert (H3 : is_Some (build rounding_ops !! "C")) by (vm_compute; eauto).
  assert (H4 : build rounding_ops !! "" = None) by reflexivity.
  assert (H5 : (fuel_bound (build rounding_ops) ≤ 9)%nat) by (vm_compute; lia).
  split_and!; [done..|].
  exact (X18_rounded_path_is_a_route (PQ:=ListPQ) 0 rounding_ops "A" "C" 9
           H1 H2 H3 H4 H5).
Defined.

(** X19.  On a graph without negative weights, whatever their size, for
    two existing airports, the returned distance is the least weight of
    a route from the source to the target when the weights of a route are
    added one after the other in binary64 from the source on: it is not
    above the rounded weight of any route, and when a route exists it is
    the rounded weight of one. *)
Theorem X19_rounded_distance_is_least `{PQ : PriorityQueue}
    (frac : nat) (ops : list GraphOp) (s t : string) (fuel : nat) :
  graph_nonneg (build ops) →
  is_Some (build ops !! s) → is_Some (build ops !! t) →
  (fuel_bound (build ops) ≤ fuel)%nat →
  ∃ r, findShortestPath64 frac fuel (build ops) s t = Some r ∧
    (∀ p, walk (build ops) s p t →
       dist_le (totalDistance r) (path_weight64 frac p)) ∧
    ((∃ p, walk (build ops) s p t) →
     ∃ p, walk (build ops) s p t ∧
       path_weight64 frac p = totalDistance r).
Proof. intros. apply search64_least; auto using build_closed. Qed.

Lemma X19_rounded_distance_is_least_witness :
  graph_nonneg (build rounding_ops) ∧
  is_Some (build rounding_ops !! "A") ∧
  is_Some (build rounding_ops !! "C") ∧
  (fuel_bound (build rounding_ops) ≤ 9)%nat ∧
  ∃ r, findShortestPath64 (PQ:=ListPQ) 0 9 (build rounding_ops) "A" "C"
         = Some r ∧
    (∀ p, walk (build rounding_ops) "A" p "C" →
       dist_le (totalDistance r) (path_weight64 0 p)) ∧
    ((∃ p, walk (build rounding_ops) "A" p "C") →
     ∃ p, walk (build rounding_ops) "A" p "C" ∧
       path_weight64 0 p = totalDistance r).
Proof.
  assert (H1 : graph_nonneg (build rounding_ops))
    by (apply (bool_decide_unpack _); vm_compute; exact I).
  assert (H2 : is_Some (build rounding_ops !! "A")) by (vm_compute; eauto).
  assert (H3 : is_Some (build rounding_ops !! "C")) by (vm_compute; eauto).
  assert (H4 : (fuel_bound (build rounding_ops) ≤ 9)%nat) by (vm_compute; lia).
  split_and!; [done..|].
  exact (X19_rounded_distance_is_least (PQ:=ListPQ) 0 rounding_ops "A" "C" 9
           H1 H2 H3 H4).
Defined.
